(** * clicache: an on-disk cache of command results

    A verification development for the Python package [clicache]
    ([clicache/__init__.py], [clicache/cli.py], [clicache/settings.py]).

    The Python code is embedded shallowly:
    - a Python 2 [str] is a byte string, here [string] (a list of [ascii]);
    - a command is either shell code or an argument list ([command]);
    - exceptions are values of [exn], carried by [outcome];
    - the file system is a finite map from paths to nodes, the calls of
      [os] and [shutil] are functions on it;
    - stateful code runs in a state-and-exception monad over [World];
    - concurrent writers are an interleaving of the system calls of [_cache].

    Layout: definitions first (modules [Py], [Cli], [Sha1], [Num], [Fs],
    [Cache], [Race], [RaceInv], [Examples], [SpecWords], [CliRun],
    [ShWords], [Served]), then the theorems, module by module. *)

From Stdlib Require Import ZArith String Ascii List Bool Lia Floats.
From stdpp Require Import base option list strings gmap fin_maps.

Local Open Scope string_scope.
Local Open Scope list_scope.
Local Open Scope Z_scope.

(* ===================================================================== *)
(** * Python values shared by the modules *)
(* ===================================================================== *)

Module Py.

(** [errno] values that the code tests for or that the model raises. *)
Inductive errno := EEXIST | ENOENT | ENOTDIR | EISDIR | EINVAL.

(** The exceptions that can cross a function boundary of the package.
    [CacheMiss] is the package's own class; the others are builtins. *)
Inductive exn :=
| CacheMiss (msg : string)
| OSError (e : errno)
| IOError (e : errno)
| ValueError (msg : string)
| IndexError
| UnboundLocalError (name : string)
| Exception (msg : string).

(** The result of evaluating an expression: a value or a raised exception. *)
Inductive outcome (A : Type) :=
| Ok (a : A)
| Raise (e : exn).
Arguments Ok {A} a.
Arguments Raise {A} e.

Definition is_CacheMiss (e : exn) : bool :=
  match e with CacheMiss _ => true | _ => false end.

(** The expression raised [CacheMiss]. *)
Definition is_miss {A} (o : outcome A) : bool :=
  match o with Raise e => is_CacheMiss e | Ok _ => false end.

(** [except (OSError, IOError)] *)
Definition is_OSError_or_IOError (e : exn) : bool :=
  match e with OSError _ | IOError _ => true | _ => false end.

Definition newline : ascii := ascii_of_nat 10.
Definition squote : ascii := ascii_of_nat 39.
Definition backslash : ascii := ascii_of_nat 92.

(** [s[n:]] on a [str]: slicing never raises, whatever [n] is. *)
Fixpoint slice_from (n : nat) (s : string) : string :=
  match n, s with
  | O, _ => s
  | S _, EmptyString => EmptyString
  | S k, String _ rest => slice_from k rest
  end.

(** [s[:n]] *)
Fixpoint slice_to (n : nat) (s : string) : string :=
  match n, s with
  | O, _ => EmptyString
  | S _, EmptyString => EmptyString
  | S k, String c rest => String c (slice_to k rest)
  end.

(** [s[a:b]] for [0 <= a <= b]. *)
Definition slice (a b : nat) (s : string) : string :=
  slice_to (b - a) (slice_from a s).

(** [text.replace(c, new)] for a pattern of one character: every occurrence
    is replaced, left to right. *)
Fixpoint replace_char (c : ascii) (new : string) (text : string) : string :=
  match text with
  | EmptyString => EmptyString
  | String a rest =>
      if Ascii.eqb a c then new +:+ replace_char c new rest
      else String a (replace_char c new rest)
  end.

(** Number of occurrences of a character, [text.count(c)]. *)
Fixpoint count_char (c : ascii) (text : string) : nat :=
  match text with
  | EmptyString => O
  | String a rest => ((if Ascii.eqb a c then 1 else 0) + count_char c rest)%nat
  end.

End Py.
Export Py.

(* ===================================================================== *)
(** * clicache/cli.py: quoting and argument lists *)
(* ===================================================================== *)

Module Cli.

(** A command as [runsh] receives it: [isinstance(sh, basestring)] or a
    list of exec args. *)
Inductive command :=
| ShCode (sh : string)
| ArgList (argv : list string).

Definition in_range (lo hi : nat) (c : ascii) : bool :=
  let n := nat_of_ascii c in (lo <=? n)%nat && (n <=? hi)%nat.

(** The character class of [re_unquote]: [[a-zA-Z0-9_\-\.,/]]. *)
Definition unquote_class (c : ascii) : bool :=
  in_range 97 122 c || in_range 65 90 c || in_range 48 57 c
  || Ascii.eqb c "_" || Ascii.eqb c "-" || Ascii.eqb c "."
  || Ascii.eqb c "," || Ascii.eqb c "/".

(** The rest of [re_unquote] once one character of the class is read:
    more of them, then [$], which matches at the end of the string and
    also just before a newline that ends the string. *)
Fixpoint re_unquote_rest (s : string) : bool :=
  match s with
  | EmptyString => true
  | String c rest =>
      if unquote_class c then re_unquote_rest rest
      else Ascii.eqb c newline && String.eqb rest EmptyString
  end.

(** [re_unquote.match(arg)] is not [None]. *)
Definition re_unquote_match (arg : string) : bool :=
  match arg with
  | EmptyString => false
  | String c rest => unquote_class c && re_unquote_rest rest
  end.

(** [shquote(text)]: ["'%s'" % text.replace("'", r"'\''")]. *)
Definition squote_escape : string :=
  String squote (String backslash (String squote (String squote EmptyString))).

Definition shquote (text : string) : string :=
  String squote (replace_char squote squote_escape text +:+ String squote EmptyString).

(** The body of the [for] loop of [argv2sh], and the loop. *)
Definition argv2sh_body (sh arg : string) : string :=
  let sh := sh +:+ " " in
  if re_unquote_match arg then sh +:+ arg else sh +:+ shquote arg.

Definition argv2sh_loop (argv : list string) : string :=
  fold_left argv2sh_body argv "".

(** [sh[1:]] as an expression that could raise: a slice never does. *)
Definition slice_expr (sh : string) : outcome string := Ok (slice_from 1 sh).

(** [argv2sh(argv)]: the [try] returns the slice; the handler turns an
    [IndexError] into [ValueError]. *)
Definition argv2sh (argv : list string) : outcome string :=
  let sh := argv2sh_loop argv in
  match slice_expr sh with
  | Ok s => Ok s
  | Raise IndexError =>
      Raise (ValueError "cannot create shell code from an empty list")
  | Raise e => Raise e
  end.

(** ** Reading a word the way [sh] does

    A reference reading of one shell word made of single-quoted parts,
    backslash escapes and plain characters of [unquote_class]: what the
    shell passes to the program for that word.  [None]: the text is not
    such a word (an open quotation, a dangling backslash, or an unquoted
    character with a meaning of its own). *)
Inductive lex_mode := Unquoted | InSingle | Escaped.

Fixpoint sh_scan (m : lex_mode) (s : string) : option string :=
  match s with
  | EmptyString => match m with Unquoted => Some EmptyString | _ => None end
  | String c rest =>
      match m with
      | InSingle =>
          if Ascii.eqb c squote then sh_scan Unquoted rest
          else String c <$> sh_scan InSingle rest
      | Escaped =>
          if Ascii.eqb c newline then sh_scan Unquoted rest
          else String c <$> sh_scan Unquoted rest
      | Unquoted =>
          if Ascii.eqb c squote then sh_scan InSingle rest
          else if Ascii.eqb c backslash then sh_scan Escaped rest
          else if unquote_class c then String c <$> sh_scan Unquoted rest
          else None
      end
  end.

Definition sh_word_value (s : string) : option string := sh_scan Unquoted s.

End Cli.
Export Cli.


(* ===================================================================== *)
(** * hashlib.sha1 *)
(* ===================================================================== *)

(** SHA-1 (FIPS 180-4) on byte strings, with 32-bit words as [Z] and the
    wrap-around written out.  [hashlib] is outside the package; the
    function is written here so that the keys of the package's own tests
    can be recomputed. *)
Module Sha1.

Definition w32 (x : Z) : Z := Z.land x 4294967295.

Definition add32 (x y : Z) : Z := w32 (x + y).

Definition rotl (n : Z) (x : Z) : Z :=
  w32 (Z.lor (Z.shiftl x n) (Z.shiftr x (32 - n))).

Definition not32 (x : Z) : Z := Z.lxor x 4294967295.

Definition bytes_of_string (s : string) : list Z :=
  map (fun c => Z.of_nat (nat_of_ascii c)) (list_ascii_of_string s).

(** Big-endian bytes of [x], [n] of them. *)
Fixpoint be_bytes (n : nat) (x : Z) : list Z :=
  match n with
  | O => []
  | S k => Z.land (Z.shiftr x (8 * Z.of_nat k)) 255 :: be_bytes k x
  end.

(** The message, the byte 0x80, zeros up to 56 modulo 64, and the length
    in bits on eight bytes. *)
Definition pad (msg : list Z) : list Z :=
  let len := Z.of_nat (length msg) in
  let zeros := Z.to_nat ((55 - len) mod 64) in
  msg ++ 128 :: repeat 0 zeros ++ be_bytes 8 (8 * len).

Definition word_of_bytes (b0 b1 b2 b3 : Z) : Z :=
  Z.lor (Z.shiftl b0 24) (Z.lor (Z.shiftl b1 16) (Z.lor (Z.shiftl b2 8) b3)).

Fixpoint words_of_bytes (fuel : nat) (bs : list Z) : list Z :=
  match fuel, bs with
  | S k, b0 :: b1 :: b2 :: b3 :: rest =>
      word_of_bytes b0 b1 b2 b3 :: words_of_bytes k rest
  | _, _ => []
  end.

(** The message schedule, latest word first: [rev_w] holds W[t-1], W[t-2], ... *)
Fixpoint schedule (n : nat) (rev_w : list Z) : list Z :=
  match n with
  | O => rev_w
  | S k =>
      let w := rotl 1 (Z.lxor (Z.lxor (nth 2 rev_w 0) (nth 7 rev_w 0))
                              (Z.lxor (nth 13 rev_w 0) (nth 15 rev_w 0))) in
      schedule k (w :: rev_w)
  end.

Definition round_f (t : nat) (b c d : Z) : Z :=
  if (t <? 20)%nat then Z.lor (Z.land b c) (Z.land (not32 b) d)
  else if (t <? 40)%nat then Z.lxor (Z.lxor b c) d
  else if (t <? 60)%nat then Z.lor (Z.lor (Z.land b c) (Z.land b d)) (Z.land c d)
  else Z.lxor (Z.lxor b c) d.

Definition round_k (t : nat) : Z :=
  if (t <? 20)%nat then 1518500249
  else if (t <? 40)%nat then 1859775393
  else if (t <? 60)%nat then 2400959708
  else 3395469782.

Definition state : Type := Z * Z * Z * Z * Z.

Fixpoint rounds (t : nat) (ws : list Z) (s : state) : state :=
  match ws with
  | [] => s
  | w :: rest =>
      let '(a, b, c, d, e) := s in
      let tmp := add32 (add32 (add32 (add32 (rotl 5 a) (round_f t b c d)) e) (round_k t)) w in
      rounds (S t) rest (tmp, a, rotl 30 b, c, d)
  end.

Definition compress (h : state) (block : list Z) : state :=
  let ws := rev (schedule 64 (rev block)) in
  let '(a, b, c, d, e) := rounds 0 ws h in
  let '(h0, h1, h2, h3, h4) := h in
  (add32 h0 a, add32 h1 b, add32 h2 c, add32 h3 d, add32 h4 e).

Fixpoint blocks (fuel : nat) (ws : list Z) (h : state) : state :=
  match fuel, ws with
  | S k, _ :: _ => blocks k (drop 16 ws) (compress h (take 16 ws))
  | _, _ => h
  end.

Definition init : state :=
  (1732584193, 4023233417, 2562383102, 271733878, 3285377520).

Definition digest (msg : string) : state :=
  let bs := pad (bytes_of_string msg) in
  let ws := words_of_bytes (length bs) bs in
  blocks (length ws) ws init.

Definition hex_digit (n : Z) : ascii :=
  ascii_of_nat (Z.to_nat (if n <? 10 then 48 + n else 87 + n)).

Fixpoint hex_of (digits : nat) (x : Z) : string :=
  match digits with
  | O => EmptyString
  | S k => String (hex_digit (Z.land (Z.shiftr x (4 * Z.of_nat k)) 15)) (hex_of k x)
  end.

(** [hashlib.sha1(msg).hexdigest()] *)
Definition hexdigest (msg : string) : string :=
  let '(h0, h1, h2, h3, h4) := digest msg in
  hex_of 8 h0 +:+ hex_of 8 h1 +:+ hex_of 8 h2 +:+ hex_of 8 h3 +:+ hex_of 8 h4.

End Sha1.

(* ===================================================================== *)
(** * Python numbers, and the builtins that parse and print them *)
(* ===================================================================== *)

Module Num.

(** A Python [float] is a binary64 value: Rocq's primitive [float].
    [maxage] is whatever number the caller passes: an [int] (the default
    [-1], [sys.maxint]) or a [float]. *)
Inductive pynum :=
| PyInt (n : Z)
| PyFloat (x : float).

(** [sys.maxint] on a 64-bit build. *)
Definition sys_maxint : Z := 9223372036854775807.

(** The integer [v * 2^e] (for [0 <= e]) or the fraction [v / 2^-e]
    compared with the integer [n], exactly. *)
Definition scaled_compare (v e n : Z) : comparison :=
  if 0 <=? e then (v * 2 ^ e ?= n) else (v ?= n * 2 ^ (- e)).

Definition signed (s : bool) (m : positive) : Z :=
  if s then Z.neg m else Z.pos m.

(** [x > n] for a float [x] and an int [n]: Python compares the two
    values exactly; a NaN compares false with everything. *)
Definition float_gt_int (x : float) (n : Z) : bool :=
  match Prim2SF x with
  | S754_nan => false
  | S754_infinity s => negb s
  | S754_zero _ => n <? 0
  | S754_finite s m e =>
      match scaled_compare (signed s m) e n with Gt => true | _ => false end
  end.

(** [x == n] *)
Definition float_eq_int (x : float) (n : Z) : bool :=
  match Prim2SF x with
  | S754_nan => false
  | S754_infinity _ => false
  | S754_zero _ => n =? 0
  | S754_finite s m e =>
      match scaled_compare (signed s m) e n with Eq => true | _ => false end
  end.

(** [x > m] *)
Definition py_gt (x : float) (m : pynum) : bool :=
  match m with
  | PyInt n => float_gt_int x n
  | PyFloat y => PrimFloat.ltb y x
  end.

(** [x == m] *)
Definition py_eq (x : float) (m : pynum) : bool :=
  match m with
  | PyInt n => float_eq_int x n
  | PyFloat y => PrimFloat.eqb x y
  end.

(** [m < 0] *)
Definition py_negative (m : pynum) : bool :=
  match m with
  | PyInt n => n <? 0
  | PyFloat y => PrimFloat.ltb y PrimFloat.zero
  end.

(** [0 <= x] *)
Definition float_nonneg (x : float) : bool := PrimFloat.leb PrimFloat.zero x.

(** The interpreter's conversions between numbers and text.  Their code
    is CPython's, not the package's, so the package is read over any such
    functions; [None] stands for the [ValueError] of a failed parse. *)
Class Builtins := {
  py_float : string -> option float;     (* float(s) *)
  py_int : string -> option Z;           (* int(s) *)
  fmt_6f : float -> string;              (* '%.6f' % x *)
  fmt_d : Z -> string                    (* '%d' % n *)
}.

(** ** A reference instance for plain decimal text

    Enough of CPython's behaviour to run the package on ordinary data:
    [int] and [float] strip white space and read an optional sign and
    decimal digits (with a fraction for [float]); ['%d'] and ['%.6f']
    print in decimal, the latter rounding the exact binary value to six
    places, ties to even. *)

Definition digit_char (d : Z) : ascii := ascii_of_nat (Z.to_nat (48 + d)).

Fixpoint dec_digits (fuel : nat) (n : Z) (acc : string) : string :=
  match fuel with
  | O => acc
  | S k =>
      let acc' := String (digit_char (n mod 10)) acc in
      if n <? 10 then acc' else dec_digits k (n / 10) acc'
  end.

(** Decimal digits of [0 <= n]. *)
Definition dec (n : Z) : string :=
  dec_digits (S (Z.to_nat (Z.log2 n))) n EmptyString.

Definition ref_fmt_d (n : Z) : string :=
  if n <? 0 then String "-" (dec (- n)) else dec n.

Fixpoint pad_left (width : nat) (s : string) : string :=
  if (String.length s <? width)%nat
  then match width with O => s | S k => String "0" (pad_left k s) end
  else s.

(** [num / den] rounded to the nearest integer, ties to even ([0 < den]). *)
Definition round_half_even (num den : Z) : Z :=
  let q := num / den in
  let r := num mod den in
  match 2 * r ?= den with
  | Lt => q
  | Gt => q + 1
  | Eq => if Z.even q then q else q + 1
  end.

Definition ref_fmt_6f (x : float) : string :=
  match Prim2SF x with
  | S754_nan => "nan"
  | S754_infinity s => if s then "-inf" else "inf"
  | S754_zero s => (if s then "-" else "") +:+ "0.000000"
  | S754_finite s m e =>
      let micro :=
        if 0 <=? e then Z.pos m * 2 ^ e * 1000000
        else round_half_even (Z.pos m * 1000000) (2 ^ (- e)) in
      (if s then "-" else "") +:+ dec (micro / 1000000) +:+ "."
        +:+ pad_left 6 (dec (micro mod 1000000))
  end.

Definition is_space (c : ascii) : bool :=
  let n := nat_of_ascii c in (n =? 32)%nat || ((9 <=? n)%nat && (n <=? 13)%nat).

Fixpoint lstrip (s : string) : string :=
  match s with
  | String c rest => if is_space c then lstrip rest else s
  | EmptyString => EmptyString
  end.

Fixpoint rstrip (s : string) : string :=
  match s with
  | EmptyString => EmptyString
  | String c rest =>
      match rstrip rest with
      | EmptyString => if is_space c then EmptyString else String c EmptyString
      | r => String c r
      end
  end.

Definition is_digit (c : ascii) : bool :=
  let n := nat_of_ascii c in (48 <=? n)%nat && (n <=? 57)%nat.

(** Digits read so far as a number, then the rest of the text. *)
Fixpoint read_digits (acc : Z) (count : nat) (s : string) : Z * nat * string :=
  match s with
  | String c rest =>
      if is_digit c
      then read_digits (10 * acc + (Z.of_nat (nat_of_ascii c) - 48)) (S count) rest
      else (acc, count, s)
  | EmptyString => (acc, count, s)
  end.

Definition read_sign (s : string) : bool * string :=
  match s with
  | String "-" rest => (true, rest)
  | String "+" rest => (false, rest)
  | _ => (false, s)
  end.

Definition ref_int (s : string) : option Z :=
  let '(neg, body) := read_sign (rstrip (lstrip s)) in
  match read_digits 0 0 body with
  | (_, O, _) => None
  | (n, _, EmptyString) => Some (if neg then - n else n)
  | _ => None
  end.

Definition float_of_Z (n : Z) : float := PrimFloat.of_uint63 (Uint63.of_Z n).

(** [n / 10^k] as a float: one correctly rounded division when both are
    exact binary64 values; longer literals are outside this instance. *)
Definition decimal_float (neg : bool) (n : Z) (k : nat) : option float :=
  if (n <? 2 ^ 53) && (k <=? 22)%nat then
    let x := PrimFloat.div (float_of_Z n) (float_of_Z (10 ^ Z.of_nat k)) in
    Some (if neg then PrimFloat.opp x else x)
  else None.

Definition ref_float (s : string) : option float :=
  let '(neg, body) := read_sign (rstrip (lstrip s)) in
  match read_digits 0 0 body with
  | (n, ni, EmptyString) =>
      match ni with O => None | _ => decimal_float neg n 0 end
  | (n, ni, String "." frac) =>
      match read_digits n 0 frac with
      | (n', nf, EmptyString) =>
          match (ni + nf)%nat with O => None | _ => decimal_float neg n' nf end
      | _ => None
      end
  | _ => None
  end.

Definition RefBuiltins : Builtins :=
  {| py_float := ref_float; py_int := ref_int;
     fmt_6f := ref_fmt_6f; fmt_d := ref_fmt_d |}.

End Num.
Export Num.

(* ===================================================================== *)
(** * The file system and the calls of [os] and [shutil] *)
(* ===================================================================== *)

Module Fs.

(** A path is the list of its components below the working directory
    ([os.path.join] appends).  The empty path is that directory itself. *)
Abbreviation path := (list string).

Inductive node :=
| Dir
| File (content : string)
| Symlink (target : string).

(** The tree as a finite map.  Symbolic links are stored and read back,
    never followed: the only link of the package is [current], which the
    code reads with [os.readlink]. *)
Abbreviation FS := (gmap path node).

(** [os.path.dirname] *)
Definition parent (p : path) : path := removelast p.

Definition is_dir (fs : FS) (p : path) : bool :=
  match p with
  | [] => true
  | _ => match fs !! p with Some Dir => true | _ => false end
  end.

(** Some name on the way from [pre] down to [pre ++ rest] is there and
    is not a directory (a file, or a link, which the model never
    follows). *)
Fixpoint blocked (fs : FS) (pre : path) (rest : list string) : bool :=
  match rest with
  | [] => false
  | name :: more =>
      match fs !! (pre ++ [name]) with
      | Some Dir | None => blocked fs (pre ++ [name]) more
      | Some _ => true
      end
  end.

(** Why no name can be made or found under the parent of [p], if so.
    The kernel resolves the parent one component at a time and stops at
    the first that is not a directory ([ENOTDIR]) or is missing
    ([ENOENT]).  In a tree nothing lies below a missing name, so the
    error is [ENOTDIR] when some name on the way to the parent is there
    and is no directory, and [ENOENT] otherwise. *)
Definition parent_error (fs : FS) (p : path) : option errno :=
  if is_dir fs (parent p) then None
  else if blocked fs [] (parent p) then Some ENOTDIR
  else Some ENOENT.

(** [os.mkdir(p)] *)
Definition os_mkdir (fs : FS) (p : path) : errno + FS :=
  match p with
  | [] => inl EEXIST
  | _ =>
      match fs !! p with
      | Some _ => inl EEXIST
      | None =>
          match parent_error fs p with
          | Some e => inl e
          | None => inr (<[p := Dir]> fs)
          end
      end
  end.

(** [os.makedirs(pre/rest)]: the missing ancestors are made first (an
    ancestor that exists is left alone), then the leaf with [os.mkdir].
    Directories made before a failure stay. *)
Fixpoint makedirs_from (pre : path) (rest : list string) (fs : FS) : FS * option errno :=
  match rest with
  | [] => (fs, Some ENOENT)
  | [name] =>
      match os_mkdir fs (pre ++ [name]) with
      | inl e => (fs, Some e)
      | inr fs' => (fs', None)
      end
  | name :: more =>
      let p := pre ++ [name] in
      match fs !! p with
      | Some _ => makedirs_from p more fs
      | None =>
          match os_mkdir fs p with
          | inl e => (fs, Some e)
          | inr fs' => makedirs_from p more fs'
          end
      end
  end.

Definition os_makedirs (fs : FS) (p : path) : FS * option errno :=
  makedirs_from [] p fs.

(** [open(p, 'w')]: the file is created empty, or emptied. *)
Definition open_w (fs : FS) (p : path) : errno + FS :=
  match p with
  | [] => inl EISDIR
  | _ =>
      match fs !! p with
      | Some Dir => inl EISDIR
      | Some (Symlink _) => inl ENOENT
      | Some (File _) => inr (<[p := File ""]> fs)
      | None =>
          match parent_error fs p with
          | Some e => inl e
          | None => inr (<[p := File ""]> fs)
          end
      end
  end.

(** [f.write(s)] on the handle of a file just opened for writing, and the
    close that follows: the text reaches the file if the name still
    leads to it. *)
Definition write_handle (fs : FS) (p : path) (s : string) : FS :=
  match fs !! p with
  | Some (File _) => <[p := File s]> fs
  | _ => fs
  end.

(** [open(p, 'r')], then [read()] on the handle: the text of the file as
    it was when the handle was opened. *)
Definition open_r (fs : FS) (p : path) : errno + string :=
  match fs !! p with
  | Some (File c) => inr c
  | Some Dir => inl EISDIR
  | Some (Symlink _) => inl ENOENT
  | None =>
      match parent_error fs p with
      | Some e => inl e
      | None => inl ENOENT
      end
  end.

(** [os.symlink(target, p)] *)
Definition os_symlink (fs : FS) (target : string) (p : path) : errno + FS :=
  match p with
  | [] => inl EEXIST
  | _ =>
      match fs !! p with
      | Some _ => inl EEXIST
      | None =>
          match parent_error fs p with
          | Some e => inl e
          | None => inr (<[p := Symlink target]> fs)
          end
      end
  end.

(** [os.readlink(p)] *)
Definition os_readlink (fs : FS) (p : path) : errno + string :=
  match fs !! p with
  | Some (Symlink target) => inr target
  | Some _ => inl EINVAL
  | None =>
      match parent_error fs p with
      | Some e => inl e
      | None => inl ENOENT
      end
  end.

(** [os.rename(src, dst)] for a source that is a file or a link: in one
    step the name [dst] comes to denote the node of [src], replacing
    whatever file or link it denoted.  Moving a directory is outside the
    model ([EINVAL]); the package renames only the link it has just made. *)
Definition os_rename (fs : FS) (src dst : path) : errno + FS :=
  match fs !! src with
  | None =>
      match parent_error fs src with
      | Some e => inl e
      | None => inl ENOENT
      end
  | Some Dir => inl EINVAL
  | Some n =>
      match dst with
      | [] => inl EISDIR
      | _ =>
          match fs !! dst with
          | Some Dir => inl EISDIR
          | _ =>
              match parent_error fs dst with
              | Some e => inl e
              | None => inr (<[dst := n]> (delete src fs))
              end
          end
      end
  end.

(** [shutil.rmtree(p, ignore_errors=True)]: a directory goes with all
    that is below it; on anything else (a link, a file, a missing name)
    the errors are ignored and nothing changes. *)
Definition shutil_rmtree (fs : FS) (p : path) : FS :=
  match fs !! p with
  | Some Dir => filter (fun kv => ¬ (p `prefix_of` kv.1)) fs
  | _ => fs
  end.

End Fs.
Export Fs.

(* ===================================================================== *)
(** * clicache/__init__.py *)
(* ===================================================================== *)

Module Cache.

Definition FNAME_r : string := "r".
Definition FNAME_t : string := "t".
Definition FNAME_stdout : string := "stdout".
Definition FNAME_stderr : string := "stderr".
Definition FNAME_returncode : string := "returncode".

(** [settings.py].  [CLICACHE_DIR] is given by its components.
    [CLICACHE_MAX_RETRIES] is the integer of the default; a value taken
    from the environment is a string, which Python 2 orders above every
    [int], and the loop below then runs as it does for any positive
    bound. *)
Record Settings := {
  CLICACHE_DIR : path;
  CLICACHE_MAX_RETRIES : Z
}.

(** What the process meets outside itself, call by call: the clock, the
    uuid generator and the subprocesses. *)
Record Env := {
  settings : Settings;
  clock : nat -> float;                 (* the n-th value of time.time() *)
  uuid1 : nat -> string;                (* the n-th str(uuid.uuid1()) *)
  popen : nat -> command -> option string -> outcome (string * string * Z)
}.

(** The state the code acts on. [runs] lists the subprocesses started. *)
Record World := {
  fs : FS;
  time_calls : nat;
  uuid_calls : nat;
  runs : list (command * option string)
}.

Definition set_fs (w : World) (fs' : FS) : World :=
  {| fs := fs'; time_calls := time_calls w; uuid_calls := uuid_calls w; runs := runs w |}.

(** The world after one more reading of the clock. *)
Definition tick (w : World) : World :=
  {| fs := fs w; time_calls := S (time_calls w);
     uuid_calls := uuid_calls w; runs := runs w |}.

(** The world after one more subprocess. *)
Definition record_run (w : World) (sh : command) (inputstr : option string) : World :=
  {| fs := fs w; time_calls := time_calls w;
     uuid_calls := uuid_calls w; runs := runs w ++ [(sh, inputstr)] |}.

(** ** The monad of statements: state, and exceptions that keep the state *)

Definition M (A : Type) : Type := World -> outcome A * World.

Definition ret {A} (a : A) : M A := fun w => (Ok a, w).

Definition raise {A} (e : exn) : M A := fun w => (Raise e, w).

Definition bind {A B} (m : M A) (k : A -> M B) : M B :=
  fun w => match m w with
           | (Ok a, w') => k a w'
           | (Raise e, w') => (Raise e, w')
           end.

(** [try: m  except ...: handler]; a handler that answers [None] does not
    apply (or re-raises). *)
Definition try_except {A} (m : M A) (handler : exn -> option (M A)) : M A :=
  fun w => match m w with
           | (Ok a, w') => (Ok a, w')
           | (Raise e, w') =>
               match handler e with
               | Some k => k w'
               | None => (Raise e, w')
               end
           end.

Declare Scope py_scope.
Delimit Scope py_scope with py.
Notation "'do' x <- m ; k" := (bind m (fun x => k))
  (at level 10, x pattern, m at level 100, k at level 200) : py_scope.
Notation "'run' m ; k" := (bind m (fun _ => k))
  (at level 10, m at level 100, k at level 200) : py_scope.
Local Open Scope py_scope.

Definition lift {A} (o : outcome A) : M A := fun w => (o, w).

(** A call of [os] that changes the tree, raising [OSError]. *)
Definition os_call (f : FS -> errno + FS) : M unit :=
  fun w => match f (fs w) with
           | inl e => (Raise (OSError e), w)
           | inr fs' => (Ok tt, set_fs w fs')
           end.

(** A call of [open], raising [IOError]. *)
Definition io_call (f : FS -> errno + FS) : M unit :=
  fun w => match f (fs w) with
           | inl e => (Raise (IOError e), w)
           | inr fs' => (Ok tt, set_fs w fs')
           end.

Definition modify_fs (f : FS -> FS) : M unit :=
  fun w => (Ok tt, set_fs w (f (fs w))).

(** A statement that starts no subprocess. *)
Definition keeps_runs {A} (m : M A) : Prop :=
  forall w, runs (snd (m w)) = runs w.

(** How one turn of a [while] body ends. *)
Inductive ctl (A : Type) :=
| Break (a : A)
| Continue
| Throw (e : exn).
Arguments Break {A} a.
Arguments Continue {A}.
Arguments Throw {A} e.

Section Package.

Context {B : Builtins} (env : Env).

Definition time_time : M float :=
  fun w => (Ok (clock env (time_calls w)), tick w).

Definition uuid_uuid1 : M string :=
  fun w => (Ok (uuid1 env (uuid_calls w)),
            {| fs := fs w; time_calls := time_calls w;
               uuid_calls := S (uuid_calls w); runs := runs w |}).

(** [cli.runsh_t(sh, inputstr)]: the subprocess is the world's affair;
    the call is recorded. *)
Definition runsh_t (sh : command) (inputstr : option string) : M (string * string * Z) :=
  fun w => (popen env (length (runs w)) sh inputstr, record_run w sh inputstr).

(** [_hash(sh, inputstr)] *)
Definition _hash (sh : command) (inputstr : option string) : outcome (string * string) :=
  match (match sh with
         | ArgList argv => argv2sh argv
         | ShCode s => Ok s
         end) with
  | Raise e => Raise e
  | Ok r =>
      let r := match inputstr with
               | Some i => "echo " +:+ shquote i +:+ " | " +:+ r
               | None => r
               end in
      Ok (Sha1.hexdigest r, r)
  end.

(** [_hash2dir(h)] *)
Definition _hash2dir (h : string) : path :=
  CLICACHE_DIR (settings env) ++ [slice 0 2 h; slice 2 4 h; h].

(** [open(path, 'w').write(text)]: [open] first, then the argument of
    [write], then the write. *)
Definition open_write (p : path) (text : M string) : M unit :=
  run io_call (fun fs => open_w fs p);
  do s <- text;
  modify_fs (fun fs => write_handle fs p s).

(** The [try] around [os.readlink] in [_cache]: [ENOENT] leaves [None]. *)
Definition read_old_canonical (basedir : path) : M (option path) :=
  fun w => match os_readlink (fs w) (basedir ++ ["current"]) with
           | inr target => (Ok (Some (basedir ++ [target])), w)
           | inl ENOENT => (Ok None, w)
           | inl e => (Raise (OSError e), w)
           end.

(** [_cache(h, r, t, stdout, stderr, returncode)] *)
Definition _cache (h r : string) (t : float) (stdout stderr : string)
    (returncode : Z) : M unit :=
  let basedir := _hash2dir h in
  run try_except
        (fun w => match os_makedirs (fs w) basedir with
                  | (fs', Some e) => (Raise (OSError e), set_fs w fs')
                  | (fs', None) => (Ok tt, set_fs w fs')
                  end)
        (fun e => match e with OSError EEXIST => Some (ret tt) | _ => None end);
  do id <- uuid_uuid1;
  let new_canonical := basedir ++ [id] in
  run os_call (fun fs => os_mkdir fs new_canonical);
  run open_write (new_canonical ++ [FNAME_t]) (do now <- time_time; ret (fmt_6f now));
  run open_write (new_canonical ++ [FNAME_r]) (ret r);
  run open_write (new_canonical ++ [FNAME_stdout]) (ret stdout);
  run open_write (new_canonical ++ [FNAME_stderr]) (ret stderr);
  run open_write (new_canonical ++ [FNAME_returncode]) (ret (fmt_d returncode));
  let tmp_symlink := "current." +:+ id in
  run os_call (fun fs => os_symlink fs id (basedir ++ [tmp_symlink]));
  do old_canonical <- read_old_canonical basedir;
  run os_call (fun fs => os_rename fs (basedir ++ [tmp_symlink]) (basedir ++ ["current"]));
  match old_canonical with
  | Some old => modify_fs (fun fs => shutil_rmtree fs old)
  | None => ret tt
  end.

(** ** The reader *)

(** The five handles, each with the text it will read. *)
Record handles := {
  f_t : string;
  f_r : string;
  f_stdout : string;
  f_stderr : string;
  f_returncode : string
}.

Definition miss_no_entry (h : string) : exn :=
  CacheMiss ("cache miss: " +:+ h +:+ ": no entry in cache").

Definition miss_too_old (h : string) : exn :=
  CacheMiss ("cache miss: " +:+ h +:+ ": cache entry is too old").

Definition err_no_handle : exn :=
  Exception "internal error: unable to get a handle on a cache result".

Definition err_timestamp : exn :=
  Exception "internal error: unexpected timestamp value in cache".

Definition err_returncode : exn :=
  Exception "internal error: unexpected returncode value in cache".

(** The first [try] of [_cached_runsh]: [canonical] is bound when the
    link is read; [ENOENT] is a miss; after any other [OSError] the
    handler ends without raising and [canonical] is left unbound. *)
Definition resolve_current (fs : FS) (h : string) : outcome (option path) :=
  match os_readlink fs (_hash2dir h ++ ["current"]) with
  | inr target => Ok (Some (_hash2dir h ++ [target]))
  | inl ENOENT => Raise (miss_no_entry h)
  | inl _ => Ok None
  end.

Definition open_field (fs : FS) (canonical : path) (name : string) : outcome string :=
  match open_r fs (canonical ++ [name]) with
  | inr text => Ok text
  | inl e => Raise (IOError e)
  end.

(** The five [open] calls of the [try] block, in order. *)
Definition open_fields (fs : FS) (canonical : option path) : outcome handles :=
  match canonical with
  | None => Raise (UnboundLocalError "canonical")
  | Some c =>
      match open_field fs c FNAME_t with
      | Raise e => Raise e
      | Ok t =>
      match open_field fs c FNAME_r with
      | Raise e => Raise e
      | Ok r =>
      match open_field fs c FNAME_stdout with
      | Raise e => Raise e
      | Ok so =>
      match open_field fs c FNAME_stderr with
      | Raise e => Raise e
      | Ok se =>
      match open_field fs c FNAME_returncode with
      | Raise e => Raise e
      | Ok rc =>
          Ok {| f_t := t; f_r := r; f_stdout := so; f_stderr := se; f_returncode := rc |}
      end end end end end
  end.

(** The entry that [current] leads to in [fs], when the link can be
    read and the five files opened. *)
Definition current_entry (fs : FS) (h : string) : option handles :=
  match resolve_current fs h with
  | Ok (Some c) =>
      match open_fields fs (Some c) with
      | Ok hs => Some hs
      | Raise _ => None
      end
  | _ => None
  end.

(** The body of the retry loop on the tree [fs] of that moment.  The
    handler of [(OSError, IOError)] is [raise] followed by [continue]:
    the exception leaves the loop and the [continue] is never reached. *)
Definition attempt (fs : FS) (canonical : option path) : ctl handles :=
  match open_fields fs canonical with
  | Ok hs => Break hs
  | Raise e => if is_OSError_or_IOError e then Throw e else Throw e
  end.

(** [while i < bound: try: body  finally: i += 1], with the final [i].
    [Ok None]: the loop ended with [good] still false. *)
Fixpoint while_lt {A} (fuel : nat) (i bound : Z) (body : Z -> ctl A)
    : outcome (option A) * Z :=
  match fuel with
  | O => (Ok None, i)
  | S fuel' =>
      if i <? bound then
        match body i with
        | Break a => (Ok (Some a), i + 1)
        | Continue => while_lt fuel' (i + 1) bound body
        | Throw e => (Raise e, i + 1)
        end
      else (Ok None, i)
  end.

(** The retry loop; [fs_at i] is the tree as the turn that starts with
    that [i] finds it (other processes may have changed it in between). *)
Definition open_loop (fs_at : Z -> FS) (canonical : option path)
    : outcome (option handles) * Z :=
  let bound := CLICACHE_MAX_RETRIES (settings env) in
  while_lt (Z.to_nat bound) 0 bound (fun i => attempt (fs_at i) canonical).

(** The loop and the [if not good: raise] after it. *)
Definition get_handles (fs_at : Z -> FS) (canonical : option path) : outcome handles :=
  match fst (open_loop fs_at canonical) with
  | Ok (Some hs) => Ok hs
  | Ok None => Raise err_no_handle
  | Raise e => Raise e
  end.

(** The rest of [_cached_runsh], once the handles are open: the age of
    the entry, then its content. *)
Definition examine (h : string) (maxage : pynum) (hs : handles) : M (string * string * Z) :=
  do t <- match py_float (f_t hs) with
          | Some t => ret t
          | None => raise err_timestamp
          end;
  do now <- time_time;
  if py_gt (PrimFloat.sub now t) maxage then raise (miss_too_old h)
  else
    match py_int (f_returncode hs) with
    | Some returncode => ret (f_stdout hs, f_stderr hs, returncode)
    | None => raise err_returncode
    end.

(** [_cached_runsh(h, maxage)] *)
Definition _cached_runsh (h : string) (maxage : pynum) : M (string * string * Z) :=
  do canonical <- (fun w => (resolve_current (fs w) h, w));
  do hs <- (fun w => (get_handles (fun _ => fs w) canonical, w));
  examine h maxage hs.

(** The handler of [CacheMiss] in [runsh]: run it for real, cache it,
    return it from the cache. *)
Definition refill (h r : string) (sh : command) (inputstr : option string)
    : M (string * string * Z) :=
  do res <- runsh_t sh inputstr;
  let '(stdout, stderr, returncode) := res in
  do t <- time_time;
  run _cache h r t stdout stderr returncode;
  _cached_runsh h (PyInt sys_maxint).

(** [runsh(sh, inputstr, maxage)] *)
Definition runsh (sh : command) (inputstr : option string) (maxage : pynum)
    : M (string * string * Z) :=
  do hr <- lift (_hash sh inputstr);
  let '(h, r) := hr in
  try_except (_cached_runsh h maxage)
    (fun e =>
       match e with
       | CacheMiss _ => Some (refill h r sh inputstr)
       | _ => None
       end).

(** The default of the parameter [maxage] of [runsh] and [_cached_runsh]. *)
Definition default_maxage : pynum := PyInt (-1).

End Package.

End Cache.
Export Cache.

(* ===================================================================== *)
(** * Several processes in [_cache] at once *)
(* ===================================================================== *)

(** Each process runs [_cache] for the same key; the file system is the
    only thing they share.  A process advances by one system call at a
    time, and the calls of different processes interleave in any order.
    Each call acts on the tree in one step: for [os.rename] this is what
    POSIX promises, and most others touch a single name.  [os.makedirs]
    and [shutil.rmtree] make several calls of their own; they are taken
    as one step each, the first because it only adds the directories that
    every process adds alike (and [_cache] absorbs [EEXIST]), the second
    because it removes an entry that no process of the race opens. *)
Module Race.

Inductive field := Ft | Fr | Fstdout | Fstderr | Freturncode.

Definition field_name (f : field) : string :=
  match f with
  | Ft => FNAME_t
  | Fr => FNAME_r
  | Fstdout => FNAME_stdout
  | Fstderr => FNAME_stderr
  | Freturncode => FNAME_returncode
  end.

(** The order in which [_cache] writes them. *)
Definition field_index (f : field) : nat :=
  match f with Ft => 0 | Fr => 1 | Fstdout => 2 | Fstderr => 3 | Freturncode => 4 end.

Definition next_field (f : field) : option field :=
  match f with
  | Ft => Some Fr
  | Fr => Some Fstdout
  | Fstdout => Some Fstderr
  | Fstderr => Some Freturncode
  | Freturncode => None
  end.

Definition all_fields : list field := [Ft; Fr; Fstdout; Fstderr; Freturncode].

(** Where a process stands: the call it makes next. *)
Inductive pc :=
| PMakedirs
| PMkdir
| POpen (f : field)
| PWrite (f : field)
| PSymlink
| PReadlink
| PRename
| PRmtree
| PDone
| PRaised (e : exn).

(** One call of [_cache]: its arguments, and what [uuid.uuid1()] and
    [time.time()] return to it. *)
Record call := {
  c_r : string;
  c_t : float;
  c_stdout : string;
  c_stderr : string;
  c_returncode : Z;
  c_uuid : string;
  c_now : float
}.

Record proc := {
  p_call : call;
  p_pc : pc;
  p_old : option path            (* old_canonical *)
}.

Definition at_pc (p : proc) (l : pc) : proc :=
  {| p_call := p_call p; p_pc := l; p_old := p_old p |}.

Section Steps.

Context {B : Builtins} (basedir : path).

Definition current : path := basedir ++ ["current"].
Definition entry (id : string) : path := basedir ++ [id].
Definition entry_file (id : string) (f : field) : path := basedir ++ [id; field_name f].
Definition tmp_link (id : string) : path := basedir ++ ["current." +:+ id].

(** The text [_cache] writes into each file. *)
Definition field_text (c : call) (f : field) : string :=
  match f with
  | Ft => fmt_6f (c_now c)
  | Fr => c_r c
  | Fstdout => c_stdout c
  | Fstderr => c_stderr c
  | Freturncode => fmt_d (c_returncode c)
  end.

(** One system call of the process, on the tree as it is now. *)
Definition proc_step (p : proc) (fs : FS) : proc * FS :=
  let id := c_uuid (p_call p) in
  match p_pc p with
  | PMakedirs =>
      match os_makedirs fs basedir with
      | (fs', None) | (fs', Some EEXIST) => (at_pc p PMkdir, fs')
      | (fs', Some e) => (at_pc p (PRaised (OSError e)), fs')
      end
  | PMkdir =>
      match os_mkdir fs (entry id) with
      | inr fs' => (at_pc p (POpen Ft), fs')
      | inl e => (at_pc p (PRaised (OSError e)), fs)
      end
  | POpen f =>
      match open_w fs (entry_file id f) with
      | inr fs' => (at_pc p (PWrite f), fs')
      | inl e => (at_pc p (PRaised (IOError e)), fs)
      end
  | PWrite f =>
      (at_pc p (match next_field f with Some g => POpen g | None => PSymlink end),
       write_handle fs (entry_file id f) (field_text (p_call p) f))
  | PSymlink =>
      match os_symlink fs id (tmp_link id) with
      | inr fs' => (at_pc p PReadlink, fs')
      | inl e => (at_pc p (PRaised (OSError e)), fs)
      end
  | PReadlink =>
      match os_readlink fs current with
      | inr target =>
          ({| p_call := p_call p; p_pc := PRename; p_old := Some (basedir ++ [target]) |}, fs)
      | inl ENOENT =>
          ({| p_call := p_call p; p_pc := PRename; p_old := None |}, fs)
      | inl e => (at_pc p (PRaised (OSError e)), fs)
      end
  | PRename =>
      match os_rename fs (tmp_link id) current with
      | inr fs' => (at_pc p PRmtree, fs')
      | inl e => (at_pc p (PRaised (OSError e)), fs)
      end
  | PRmtree =>
      (at_pc p PDone,
       match p_old p with
       | Some old => shutil_rmtree fs old
       | None => fs
       end)
  | PDone => (p, fs)
  | PRaised _ => (p, fs)
  end.

(** A process on its own: [n] calls in a row. *)
Fixpoint run_alone (n : nat) (p : proc) (fs : FS) : proc * FS :=
  match n with
  | O => (p, fs)
  | S k => let '(p', fs') := proc_step p fs in run_alone k p' fs'
  end.

(** How [_cache] has ended, for a process that has ended. *)
Definition outcome_at (l : pc) : option (outcome unit) :=
  match l with
  | PDone => Some (Ok tt)
  | PRaised e => Some (Raise e)
  | _ => None
  end.

(** The processes and the tree they share. *)
Record system := {
  tree : FS;
  procs : list proc
}.

(** Process number [i] makes its next call. *)
Definition step (i : nat) (s : system) : system :=
  match procs s !! i with
  | Some p =>
      let '(p', fs') := proc_step p (tree s) in
      {| tree := fs'; procs := <[i := p']> (procs s) |}
  | None => s
  end.

(** A schedule names, turn by turn, the process that moves. *)
Definition run_schedule (sched : list nat) (s : system) : system :=
  fold_left (fun s i => step i s) sched s.

Definition start (c : call) : proc :=
  {| p_call := c; p_pc := PMakedirs; p_old := None |}.

Definition start_system (fs0 : FS) (calls : list call) : system :=
  {| tree := fs0; procs := map start calls |}.

Definition is_done (p : proc) : bool :=
  match p_pc p with PDone => true | _ => false end.

Definition all_done (s : system) : bool := forallb is_done (procs s).

(** The entry [id] is there with its five files, holding [text]. *)
Definition written (fs : FS) (id : string) (text : field -> string) : Prop :=
  fs !! entry id = Some Dir /\
  forall f, fs !! entry_file id f = Some (File (text f)).

(** The same as a test. *)
Definition node_eqb (a b : node) : bool :=
  match a, b with
  | Dir, Dir => true
  | File x, File y => String.eqb x y
  | Symlink x, Symlink y => String.eqb x y
  | _, _ => false
  end.

Definition has_node (fs : FS) (p : path) (n : node) : bool :=
  match fs !! p with Some m => node_eqb m n | None => false end.

Definition is_file (fs : FS) (p : path) : bool :=
  match fs !! p with Some (File _) => true | _ => false end.

Definition free (fs : FS) (p : path) : bool :=
  match fs !! p with None => true | Some _ => false end.

(** Nothing of the tree lies at or below [p]. *)
Definition free_below (fs : FS) (p : path) : bool :=
  forallb (fun kv => negb (bool_decide (p `prefix_of` kv.1))) (map_to_list fs).

Fixpoint distinct (l : list string) : bool :=
  match l with
  | [] => true
  | x :: rest => negb (existsb (String.eqb x) rest) && distinct rest
  end.

(** [current] is absent, or a link to an entry that has its five files. *)
Definition current_ok (fs : FS) : bool :=
  match fs !! current with
  | None => true
  | Some (Symlink target) =>
      has_node fs (entry target) Dir
      && forallb (fun f => is_file fs (entry_file target f)) all_fields
  | Some _ => false
  end.

(** Every directory from the top down to [basedir] is there or can be
    made. *)
Fixpoint dirs_ok (fs : FS) (pre : path) (rest : list string) : bool :=
  match rest with
  | [] => true
  | name :: more =>
      match fs !! (pre ++ [name]) with
      | None | Some Dir => dirs_ok fs (pre ++ [name]) more
      | Some _ => false
      end
  end.

(** What the processes may assume when they start: a tree in which
    [current], if there, leads to a whole entry; and identifiers as
    [uuid.uuid1()] gives them: 36 characters, all different, and new to
    the tree. *)
Definition good_start (fs0 : FS) (calls : list call) : bool :=
  dirs_ok fs0 [] basedir
  && negb (bool_decide (basedir = []))
  && current_ok fs0
  && distinct (map c_uuid calls)
  && forallb (fun c => (String.length (c_uuid c) =? 36)%nat
                       && free_below fs0 (entry (c_uuid c))
                       && free fs0 (tmp_link (c_uuid c))) calls.

End Steps.

(** The call of [_cache] made in the world [w], as a process of the race:
    its identifier and its reading of the clock are the next ones of [w]. *)
Definition call_of (env : Env) (r : string) (t : float) (stdout stderr : string)
    (returncode : Z) (w : World) : call :=
  {| c_r := r; c_t := t; c_stdout := stdout; c_stderr := stderr;
     c_returncode := returncode;
     c_uuid := uuid1 env (uuid_calls w); c_now := clock env (time_calls w) |}.

End Race.
Export Race.

(* ===================================================================== *)
(** * What stays true while the processes run *)
(* ===================================================================== *)

Module RaceInv.

Section Invariant.

Context {B : Builtins} (basedir : path).

(** Every directory on the way to [p], and [p] itself, is there or can
    still be made. *)
Definition dirs_fine (fs : FS) (p : path) : Prop :=
  forall q, q `prefix_of` p -> q <> [] -> fs !! q = None \/ fs !! q = Some Dir.

(** The path [q] is [basedir/a] or lies below it. *)
Definition under (a : string) (q : path) : Prop :=
  exists rest, q = basedir ++ a :: rest.

(** From [fs] to [fs'] nothing has changed outside the names [names] of
    [basedir]. *)
Definition within (names : list string) (fs fs' : FS) : Prop :=
  forall q, (forall a, a ∈ names -> ~ under a q) -> fs' !! q = fs !! q.

Definition tmp_name (id : string) : string := "current." +:+ id.

(** The place that follows [l] when the call at [l] succeeds. *)
Definition next_pc (l : pc) : pc :=
  match l with
  | PMakedirs => PMkdir
  | PMkdir => POpen Ft
  | POpen f => PWrite f
  | PWrite f => match next_field f with Some g => POpen g | None => PSymlink end
  | PSymlink => PReadlink
  | PReadlink => PRename
  | PRename => PRmtree
  | PRmtree => PDone
  | PDone => PDone
  | PRaised e => PRaised e
  end.

(** How many calls lie behind a process at [l]; sixteen make a whole
    [_cache]. *)
Definition rank (l : pc) : nat :=
  match l with
  | PMakedirs => 0
  | PMkdir => 1
  | POpen f => 2 + 2 * field_index f
  | PWrite f => 3 + 2 * field_index f
  | PSymlink => 12
  | PReadlink => 13
  | PRename => 14
  | PRmtree => 15
  | PDone => 16
  | PRaised _ => 16
  end.

(** The process has not yet promoted its entry. *)
Definition pending (l : pc) : bool :=
  match l with
  | PMakedirs | PMkdir | POpen _ | PWrite _ | PSymlink | PReadlink | PRename => true
  | _ => false
  end.

(** The process has renamed its link onto [current]. *)
Definition renamed (l : pc) : bool :=
  match l with
  | PRmtree | PDone => true
  | _ => false
  end.

Definition entry_free (fs : FS) (id : string) : Prop :=
  forall q, entry basedir id `prefix_of` q -> fs !! q = None.

(** The files before [f] hold their text, [f] and those after it are not
    there yet. *)
Definition files_upto (fs : FS) (c : call) (f : field) : Prop :=
  forall g,
    ((field_index g < field_index f)%nat ->
       fs !! entry_file basedir (c_uuid c) g = Some (File (field_text c g)))
    /\ ((field_index f <= field_index g)%nat ->
       fs !! entry_file basedir (c_uuid c) g = None).

(** The same when [f] has just been opened: it is there, empty. *)
Definition files_open (fs : FS) (c : call) (f : field) : Prop :=
  forall g,
    ((field_index g < field_index f)%nat ->
       fs !! entry_file basedir (c_uuid c) g = Some (File (field_text c g)))
    /\ (g = f -> fs !! entry_file basedir (c_uuid c) g = Some (File ""))
    /\ ((field_index f < field_index g)%nat ->
       fs !! entry_file basedir (c_uuid c) g = None).

(** What a process can rely on, by the place it has reached. *)
Definition proc_ok (fs : FS) (p : proc) : Prop :=
  let c := p_call p in
  let id := c_uuid c in
  match p_pc p with
  | PMakedirs =>
      dirs_fine fs basedir /\ entry_free fs id /\ fs !! tmp_link basedir id = None
  | PMkdir =>
      fs !! basedir = Some Dir /\ entry_free fs id /\ fs !! tmp_link basedir id = None
  | POpen f =>
      fs !! basedir = Some Dir /\ fs !! entry basedir id = Some Dir
      /\ files_upto fs c f /\ fs !! tmp_link basedir id = None
  | PWrite f =>
      fs !! basedir = Some Dir /\ fs !! entry basedir id = Some Dir
      /\ files_open fs c f /\ fs !! tmp_link basedir id = None
  | PSymlink =>
      fs !! basedir = Some Dir /\ written basedir fs id (field_text c)
      /\ fs !! tmp_link basedir id = None
  | PReadlink | PRename =>
      fs !! basedir = Some Dir /\ written basedir fs id (field_text c)
      /\ fs !! tmp_link basedir id = Some (Symlink id)
  | PRmtree | PDone => fs !! basedir = Some Dir
  | PRaised _ => False
  end.

(** What is known of [current]: before any process has renamed, it is as
    it was at the start, absent or leading to an entry that none of the
    processes made; afterwards it leads to the entry of a process that
    has renamed, which is whole and holds what that process wrote. *)
Definition current_inv (s : system) : Prop :=
  (tree s !! current basedir = None
   /\ forall i p, procs s !! i = Some p -> renamed (p_pc p) = false)
  \/ (exists target text,
        tree s !! current basedir = Some (Symlink target)
        /\ written basedir (tree s) target text
        /\ ((forall i p, procs s !! i = Some p ->
               c_uuid (p_call p) <> target /\ renamed (p_pc p) = false)
            \/ (exists i p, procs s !! i = Some p /\ renamed (p_pc p) = true
                  /\ c_uuid (p_call p) = target /\ text = field_text (p_call p)))).

(** What is known of an [old_canonical]: it names an entry that no
    pending process is building, and once its holder has renamed it is
    not the entry [current] leads to. *)
Definition old_inv (s : system) : Prop :=
  forall i p old, procs s !! i = Some p -> p_old p = Some old ->
    exists y, old = basedir ++ [y]
      /\ (forall j q, procs s !! j = Some q -> pending (p_pc q) = true ->
            c_uuid (p_call q) <> y)
      /\ (renamed (p_pc p) = true -> tree s !! current basedir <> Some (Symlink y)).

(** The identifiers are [uuid.uuid1()]'s: 36 characters, all different. *)
Definition uuids_inv (s : system) : Prop :=
  (forall i p, procs s !! i = Some p -> String.length (c_uuid (p_call p)) = 36%nat)
  /\ (forall i j p q, procs s !! i = Some p -> procs s !! j = Some q ->
        c_uuid (p_call p) = c_uuid (p_call q) -> i = j).

Definition rank_of (s : system) (i : nat) : nat :=
  match procs s !! i with
  | Some p => rank (p_pc p)
  | None => 0
  end.

Definition inv (s : system) : Prop :=
  basedir <> []
  /\ uuids_inv s
  /\ (forall i p, procs s !! i = Some p -> proc_ok (tree s) p)
  /\ current_inv s
  /\ old_inv s.

End Invariant.

End RaceInv.
Export RaceInv.

(* ===================================================================== *)
(** * Worlds to run the package in *)
(* ===================================================================== *)

Module Examples.

#[local] Existing Instance RefBuiltins.

Definition ex_settings : Settings :=
  {| CLICACHE_DIR := [".clicache"]; CLICACHE_MAX_RETRIES := 10 |}.

Definition uuid_a : string := "aaaaaaaa-1111-11e4-8000-0123456789ab".
Definition uuid_b : string := "bbbbbbbb-2222-11e4-8000-0123456789ab".

(** A process whose clock reads the values of [times] in turn (then
    [last]), whose first uuid is [id], and whose subprocesses print [foo]. *)
Definition ex_env (times : list float) (last : float) (id : string) : Env :=
  {| settings := ex_settings;
     clock := fun n => nth n times last;
     uuid1 := fun n => match n with O => id | _ => uuid_b end;
     popen := fun _ _ _ => Ok ("foo", "", 0) |}.

Definition world_of (tree : FS) : World :=
  {| fs := tree; time_calls := 0; uuid_calls := 0; runs := [] |}.

(** The key of [echo foo], as in the layout drawn in the module's
    docstring. *)
Definition h_echo : string := "9f168d2f8df57c83626cf6026658c6adba47c759".

Definition dir_echo : path := [".clicache"; "9f"; "16"; h_echo].

(** A tree with one entry for [echo foo], holding the given timestamp
    and return code texts. *)
Definition tree_with (id t_text returncode_text : string) : FS :=
  list_to_map
    [([".clicache"], Dir); ([".clicache"; "9f"], Dir); ([".clicache"; "9f"; "16"], Dir);
     (dir_echo, Dir);
     (dir_echo ++ ["current"], Symlink id);
     (dir_echo ++ [id], Dir);
     (dir_echo ++ [id; "t"], File t_text);
     (dir_echo ++ [id; "r"], File "echo foo");
     (dir_echo ++ [id; "stdout"], File "foo");
     (dir_echo ++ [id; "stderr"], File "");
     (dir_echo ++ [id; "returncode"], File returncode_text)].

(** The tree after one process has cached [echo foo] in an empty cache:
    [_cache] is called with [t = 100.0] while its own reading of the
    clock gives [200.0]. *)
Definition after_first_write : World :=
  snd (_cache (ex_env [200%float] 200%float uuid_a) h_echo "echo foo" 100%float "foo" "" 0
         (world_of ∅)).

(** Then a second process caches a newer result for the same key. *)
Definition after_second_write : World :=
  snd (_cache (ex_env [300%float] 300%float uuid_b) h_echo "echo foo" 300%float "bar" "" 0
         (world_of (fs after_first_write))).

(** Two processes cache [echo foo] at the same time, in a cache that
    holds an older entry for it. *)
Definition uuid_c : string := "cccccccc-3333-11e4-8000-0123456789ab".

Definition race_tree : FS := tree_with uuid_c "50.000000" "0".

Definition call_a : call :=
  {| c_r := "echo foo"; c_t := 100%float; c_stdout := "foo"; c_stderr := "";
     c_returncode := 0; c_uuid := uuid_a; c_now := 200%float |}.

Definition call_b : call :=
  {| c_r := "echo foo"; c_t := 100%float; c_stdout := "bar"; c_stderr := "";
     c_returncode := 0; c_uuid := uuid_b; c_now := 300%float |}.

(** The two take turns, call by call. *)
Definition alternating : list nat := concat (repeat [0%nat; 1%nat] 16).

End Examples.

(* ===================================================================== *)
(** * The specification's wording, where it differs from the code *)
(* ===================================================================== *)

Module SpecWords.

(** Quoting as the specification words it: the text between single
    quotes, each embedded quote doubled. *)
Definition quote_by_doubling (text : string) : string :=
  String squote
    (replace_char squote (String squote (String squote EmptyString)) text
     +:+ String squote EmptyString).

End SpecWords.

(* ===================================================================== *)
(** * clicache/cli.py: running a command without the cache *)
(* ===================================================================== *)

Module CliRun.

(** [s.endswith('\n')] *)
Fixpoint ends_with_newline (s : string) : bool :=
  match s with
  | EmptyString => false
  | String c EmptyString => Ascii.eqb c newline
  | String _ rest => ends_with_newline rest
  end.

(** [repr()] of the two values that reach the message of [ShError]: the
    command (which may be [None]) and the text of stderr.  Like the
    formats of [Builtins], it is the interpreter's. *)
Class Repr := {
  repr_command : option command -> string;
  repr_str : string -> string
}.

(** An instance of [ShError]: its message and the three attributes that
    [sherrcheck] sets. *)
Record ShError := {
  e_message : string;
  e_sh : option command;
  e_returncode : option Z;
  e_stderr : option string
}.

(** How a function of [cli.py] ends. *)
Inductive cli_outcome (A : Type) :=
| Returns (a : A)
| RaisesShError (e : ShError)
| RaisesOther (e : exn).
Arguments Returns {A} a.
Arguments RaisesShError {A} e.
Arguments RaisesOther {A} e.

Section Checks.

Context {B : Builtins} {R : Repr}.

(** The test of [sherrcheck]:
    [(returncode is not None and returncode!=0) or
     (stderr is not None and stderr!='')]. *)
Definition indicates_error (stderr : option string) (returncode : option Z) : bool :=
  match returncode with Some rc => negb (rc =? 0) | None => false end
  || match stderr with Some s => negb (String.eqb s "") | None => false end.

(** The message, built up as the code does. *)
Definition sherr_message (sh : option command) (stderr : option string)
    (returncode : option Z) (verbose : bool) : string :=
  let msg := "shell code" in
  let msg := if verbose then msg +:+ " [" +:+ repr_command sh +:+ "]" else msg in
  let msg := match returncode with
             | Some rc =>
                 if 0 <=? rc
                 then msg +:+ " failed with exit status [" +:+ fmt_d rc +:+ "]"
                 else msg +:+ " killed by signal [" +:+ fmt_d (- rc) +:+ "]"
             | None => msg
             end in
  match stderr with
  | Some s => if verbose then msg +:+ ", stderr is [" +:+ repr_str s +:+ "]" else msg
  | None => msg
  end.

(** [sherrcheck(sh, stderr, returncode, verbose)]: [None] when it
    returns, the exception when it raises. *)
Definition sherrcheck (sh : option command) (stderr : option string)
    (returncode : option Z) (verbose : bool) : option ShError :=
  if indicates_error stderr returncode then
    Some {| e_message := sherr_message sh stderr returncode verbose;
            e_sh := sh; e_returncode := returncode; e_stderr := stderr |}
  else None.

(** [runsh(sh, inputstr)] of [cli.py]. *)
Definition cli_runsh (env : Env) (sh : command) (inputstr : option string)
    : World -> cli_outcome string * World :=
  fun w =>
    match runsh_t env sh inputstr w with
    | (Raise e, w') => (RaisesOther e, w')
    | (Ok (stdout, stderr, returncode), w') =>
        match sherrcheck (Some sh) (Some stderr) (Some returncode) true with
        | Some e => (RaisesShError e, w')
        | None => (Returns stdout, w')
        end
    end.

(** ** [runsh_i]: the lines of stdout, one by one *)

(** [s.find('\n', start)]; [None] is [-1]. *)
Fixpoint find_newline_0 (s : string) : option nat :=
  match s with
  | EmptyString => None
  | String c rest =>
      if Ascii.eqb c newline then Some O else S <$> find_newline_0 rest
  end.

Definition find_newline (s : string) (start : nat) : option nat :=
  (fun k => (start + k)%nat) <$> find_newline_0 (slice_from start s).

(** The inner loop on one block [s]:
    [while j != -1: yield stdout + s[i:j+1]; stdout = ''; i = j+1;
     j = s.find('\n', i)].
    It gives the lines yielded and the values of [stdout] and [i] when it
    ends.  Every turn moves [i] forward, so the length of the block and
    one more bound the turns. *)
Fixpoint split_loop (fuel : nat) (s stdout : string) (i : nat) (j : option nat)
    : list string * string * nat :=
  match j, fuel with
  | Some j', S fuel' =>
      let '(lines, stdout', i') :=
        split_loop fuel' s "" (j' + 1) (find_newline s (j' + 1)) in
      ((stdout +:+ slice i (j' + 1) s) :: lines, stdout', i')
  | _, _ => ([], stdout, i)
  end.

(** The [else] branch for a block that is not empty, down to
    [stdout += s[i:]]. *)
Definition split_block (stdout s : string) : list string * string :=
  let '(lines, stdout', i) :=
    split_loop (S (String.length s)) s stdout 0 (find_newline s 0) in
  (lines, stdout' +:+ slice_from i s).

(** What one turn of the outer loop finds: for each of the two pipes
    that [select] reports, the block that [os.read] returns (the empty
    block at end of file). *)
Record turn := {
  rd_stdout : option string;
  rd_stderr : option string
}.

Record istate := {
  stdoutDone : bool;
  stderrDone : bool;
  stdout_buf : string;
  stderr_buf : string
}.

Definition istart : istate :=
  {| stdoutDone := false; stderrDone := false; stdout_buf := ""; stderr_buf := "" |}.

(** The body of [while not (stdoutDone and stderrDone)]. *)
Definition turn_step (st : istate) (t : turn) : list string * istate :=
  let '(lines, st1) :=
    match rd_stdout t with
    | None => ([], st)
    | Some s =>
        if String.eqb s "" then
          ([], {| stdoutDone := true; stderrDone := stderrDone st;
                  stdout_buf := stdout_buf st; stderr_buf := stderr_buf st |})
        else
          let '(lines, out) := split_block (stdout_buf st) s in
          (lines, {| stdoutDone := stdoutDone st; stderrDone := stderrDone st;
                     stdout_buf := out; stderr_buf := stderr_buf st |})
    end in
  let st2 :=
    match rd_stderr t with
    | None => st1
    | Some s =>
        if String.eqb s "" then
          {| stdoutDone := stdoutDone st1; stderrDone := true;
             stdout_buf := stdout_buf st1; stderr_buf := stderr_buf st1 |}
        else
          {| stdoutDone := stdoutDone st1; stderrDone := stderrDone st1;
             stdout_buf := stdout_buf st1; stderr_buf := stderr_buf st1 +:+ s |}
    end in
  (lines, st2).

(** The outer loop over the turns that the process offers; it stops as
    soon as both pipes are at end of file.  It gives the lines yielded,
    the state it stops in and the turns it has not used. *)
Fixpoint read_loop (turns : list turn) (st : istate)
    : list string * istate * list turn :=
  if stdoutDone st && stderrDone st then ([], st, turns)
  else
    match turns with
    | [] => ([], st, [])
    | t :: rest =>
        let '(lines, st') := turn_step st t in
        let '(more, st'', unused) := read_loop rest st' in
        (lines ++ more, st'', unused)
    end.

(** A subprocess as [runsh_i] meets it: the turns of its two pipes and
    the exit status that [p.wait()] returns. *)
Record process := {
  turns : list turn;
  exit_status : Z
}.

(** How the iteration of the generator ends: by [StopIteration], by an
    exception, or not at all, when the pipes stay open and silent. *)
Inductive ending :=
| Stops
| RaisesSh (e : ShError)
| Raises (e : exn)
| Blocked.

(** [runsh_i(sh)], iterated to its end: the lines yielded, in order, and
    the ending.  [p] is what [subprocess.Popen] gives. *)
Definition runsh_i (sh : command) (p : outcome process) : list string * ending :=
  match p with
  | Raise e => ([], Raises e)
  | Ok p =>
      let '(lines, st, _) := read_loop (turns p) istart in
      if stdoutDone st && stderrDone st then
        let lines := if negb (String.eqb (stdout_buf st) "")
                     then lines ++ [stdout_buf st] else lines in
        match sherrcheck (Some sh) (Some (stderr_buf st)) (Some (exit_status p)) true with
        | Some e => (lines, RaisesSh e)
        | None => (lines, Stops)
        end
      else (lines, Blocked)
  end.

End Checks.

(** The lines of a text: each ends with its newline, the last one may
    lack it. *)
Fixpoint lines_from (pending : string) (s : string) : list string :=
  match s with
  | EmptyString => if String.eqb pending "" then [] else [pending]
  | String c rest =>
      if Ascii.eqb c newline
      then (pending +:+ String c "") :: lines_from "" rest
      else lines_from (pending +:+ String c "") rest
  end.

Definition lines_of (s : string) : list string := lines_from "" s.

(** All that the turns used by the loop have read from each pipe. *)
Definition stdout_of (ts : list turn) : string :=
  fold_right (fun t acc => default "" (rd_stdout t) +:+ acc) "" ts.

Definition stderr_of (ts : list turn) : string :=
  fold_right (fun t acc => default "" (rd_stderr t) +:+ acc) "" ts.

(** The turns that the loop of [runsh_i] goes through: all but those
    left when both pipes are at end of file. *)
Definition turns_used (p : process) : list turn :=
  let '(_, _, unused) := read_loop (turns p) istart in
  take (length (turns p) - length unused) (turns p).

(** The inner loop of [runsh_i] again, by recursion on the block:
    [pending] is [stdout] and what has been read of the line in hand. *)
Fixpoint split_chars (pending : string) (s : string) : list string * string :=
  match s with
  | EmptyString => ([], pending)
  | String c rest =>
      if Ascii.eqb c newline then
        let '(lines, carry) := split_chars "" rest in
        ((pending +:+ String c "") :: lines, carry)
      else split_chars (pending +:+ String c "") rest
  end.

(** A line with its newline, and a last line without one. *)
Definition whole_line (l : string) : bool :=
  (count_char newline l =? 1)%nat && ends_with_newline l.

Definition partial_line (l : string) : bool :=
  (count_char newline l =? 0)%nat && negb (String.eqb l "").

(** The lines one after the other. *)
Definition joined (lines : list string) : string :=
  fold_right (fun l acc => l +:+ acc) "" lines.

End CliRun.
Export CliRun.

(* ===================================================================== *)
(** * Reading a command line the way [sh] does *)
(* ===================================================================== *)

(** The reference reading of [sh_scan], for a line of several words:
    blanks that are not quoted separate the words.  [in_word] tells
    whether a word has begun; the head of the result is then what is
    left of that word. *)
Module ShWords.

Definition push (c : ascii) (ws : list string) : list string :=
  match ws with
  | w :: rest => String c w :: rest
  | [] => [String c ""]
  end.

Fixpoint sh_split (m : lex_mode) (in_word : bool) (s : string) : option (list string) :=
  match s with
  | EmptyString =>
      match m with
      | Unquoted => Some (if in_word then [""] else [])
      | _ => None
      end
  | String c rest =>
      match m with
      | InSingle =>
          if Ascii.eqb c squote then sh_split Unquoted true rest
          else push c <$> sh_split InSingle true rest
      | Escaped =>
          if Ascii.eqb c newline then sh_split Unquoted in_word rest
          else push c <$> sh_split Unquoted true rest
      | Unquoted =>
          if Ascii.eqb c " " then
            (if in_word then cons "" <$> sh_split Unquoted false rest
             else sh_split Unquoted false rest)
          else if Ascii.eqb c squote then sh_split InSingle true rest
          else if Ascii.eqb c backslash then sh_split Escaped in_word rest
          else if unquote_class c then push c <$> sh_split Unquoted true rest
          else None
      end
  end.

(** The words of a command line. *)
Definition sh_words (s : string) : option (list string) := sh_split Unquoted false s.

(** Every character is of the class of [re_unquote]. *)
Fixpoint plain (s : string) : bool :=
  match s with
  | EmptyString => true
  | String c rest => unquote_class c && plain rest
  end.

(** What the loop of [argv2sh] appends for one argument, after the
    blank; and the whole of what it appends for a list. *)
Definition quoted_arg (arg : string) : string :=
  if re_unquote_match arg then arg else shquote arg.

Definition spaced (argv : list string) : string :=
  fold_right (fun arg acc => " " +:+ quoted_arg arg +:+ acc) "" argv.

(** [s] put in front of the first word. *)
Definition prepend (s : string) (ws : list string) : list string :=
  match ws with
  | w :: rest => (s +:+ w) :: rest
  | [] => [s]
  end.

End ShWords.
Export ShWords.

(* ===================================================================== *)
(** * The entry that is served while a writer works *)
(* ===================================================================== *)

Module Served.

Section Defs.

Context {B : Builtins} (basedir : path).

(** [current] leads to the entry [id], which is whole and holds [text]. *)
Definition serves (fs : FS) (id : string) (text : field -> string) : Prop :=
  fs !! current basedir = Some (Symlink id) /\ written basedir fs id text.

(** The process has not renamed yet and, once its own directory is made,
    that directory is not the entry [id]. *)
Definition builds_beside (id : string) (p : proc) : Prop :=
  match p_pc p with
  | PMakedirs | PMkdir | PRaised _ => True
  | POpen _ | PWrite _ | PSymlink | PReadlink | PRename => c_uuid (p_call p) <> id
  | PRmtree | PDone => False
  end.

(** One process on its way to replace the entry [id]: the entry is
    there; [current] leads to it until the rename; from the read of the
    link on, it is the process's [old_canonical]. *)
Definition replacing (id : string) (s : system) : Prop :=
  exists p, procs s = [p]
    /\ tree s !! entry basedir id = Some Dir
    /\ match p_pc p with
       | PRename =>
           p_old p = Some (entry basedir id)
           /\ tree s !! current basedir = Some (Symlink id)
       | PRmtree => p_old p = Some (entry basedir id)
       | PDone | PRaised _ => False
       | _ => tree s !! current basedir = Some (Symlink id)
       end.

End Defs.

End Served.
Export Served.

(* ===================================================================== *)
(** * Theorems: quoting, argument lists and keys *)
(* ===================================================================== *)

(** [+:+] is kept folded by [simpl]; this unfolds one step of it. *)
Ltac sapp :=
  repeat (change (String ?a ?s +:+ ?t) with (String a (s +:+ t))
          || change (EmptyString +:+ ?t) with t).

Section CliFacts.

Lemma fmap_String_app (a : ascii) (t : string) (o : option string) :
  String a <$> ((fun s => t +:+ s) <$> o) = (fun s => String a t +:+ s) <$> o.
Proof. destruct o; reflexivity. Qed.

(** Inside a quotation, the escaped text reads back as the text. *)
Lemma sh_scan_escaped (text rest : string) :
  sh_scan InSingle (replace_char squote squote_escape text +:+ String squote rest)
  = (fun s => text +:+ s) <$> sh_scan Unquoted rest.
Proof.
  induction text as [|a t IH]; simpl.
  - destruct (sh_scan Unquoted rest); reflexivity.
  - destruct (Ascii.eqb a squote) eqn:Ea.
    + apply Ascii.eqb_eq in Ea. subst a. simpl.
      sapp. rewrite IH. apply fmap_String_app.
    + simpl. rewrite Ea, IH. apply fmap_String_app.
Qed.

Lemma append_empty_r (s : string) : s +:+ "" = s.
Proof. induction s as [|a s IH]; sapp; [reflexivity | now rewrite IH]. Qed.

Lemma append_assoc (a b c : string) : (a +:+ b) +:+ c = a +:+ (b +:+ c).
Proof. induction a as [|x a IH]; sapp; [reflexivity | now rewrite IH]. Qed.

Lemma length_append (a b : string) :
  String.length (a +:+ b) = (String.length a + String.length b)%nat.
Proof. induction a as [|x a IH]; sapp; simpl; [reflexivity | now rewrite IH]. Qed.

Lemma shquote_roundtrip (text : string) : sh_word_value (shquote text) = Some text.
Proof.
  unfold sh_word_value, shquote. simpl.
  rewrite sh_scan_escaped. simpl. now rewrite append_empty_r.
Qed.

Lemma replace_char_app (c : ascii) (new a b : string) :
  replace_char c new (a +:+ b) = replace_char c new a +:+ replace_char c new b.
Proof.
  induction a as [|x a IH]; sapp; simpl; [reflexivity|].
  destruct (Ascii.eqb x c); rewrite IH; [now rewrite append_assoc | reflexivity].
Qed.

Lemma shquote_embedded_quote (a b : string) :
  shquote (a +:+ String squote b)
  = shquote a +:+ String backslash (String squote (shquote b)).
Proof.
  unfold shquote. rewrite replace_char_app. simpl. sapp.
  f_equal. now rewrite !append_assoc.
Qed.

Lemma length_escaped (text : string) :
  String.length (replace_char squote squote_escape text)
  = (String.length text + 3 * count_char squote text)%nat.
Proof.
  induction text as [|x t IH]; simpl; [reflexivity|].
  destruct (Ascii.eqb x squote); rewrite ?length_append; simpl; rewrite IH; lia.
Qed.

Lemma argv2sh_total (argv : list string) :
  argv2sh argv = Ok (slice_from 1 (argv2sh_loop argv)).
Proof. reflexivity. Qed.

End CliFacts.

(** C6 (the code at the failing input): on the empty argument list
    [argv2sh] raises nothing, neither [ValueError] nor anything else; it
    returns the empty string, because the slice [sh[1:]] of an empty
    string is the empty string and no [IndexError] reaches the handler. *)
Theorem argv2sh_empty_returns :
  argv2sh [] = Ok "" /\ forall argv, exists sh, argv2sh argv = Ok sh.
Proof.
  split; [reflexivity|]. intros argv. eexists. apply argv2sh_total.
Qed.

(** C8 (counterexample): the quote embedded in [don't] is not doubled;
    and the doubled form would not even be safe, the shell reads it back
    as [dont]. *)
Lemma shquote_does_not_double :
  shquote "don't" <> SpecWords.quote_by_doubling "don't"
  /\ sh_word_value (SpecWords.quote_by_doubling "don't") = Some "dont".
Proof. split; [discriminate | reflexivity]. Qed.

(** C8 (amended): [shquote] returns the text as one single-quoted shell
    word that the shell reads back as exactly the text; an embedded
    single quote is written as the four characters quote, backslash,
    quote, quote (the quotation is closed, an escaped quote follows, the
    quotation is opened again), that is, the two quoted halves joined by
    a backslash and a quote. *)
Theorem shquote_shell_safe :
  forall text : string,
    sh_word_value (shquote text) = Some text
    /\ String.length (shquote text)
       = (String.length text + 2 + 3 * count_char squote text)%nat
    /\ forall a b : string,
         shquote (a +:+ String squote b)
         = shquote a +:+ String backslash (String squote (shquote b)).
Proof.
  intros text. split; [apply shquote_roundtrip|]. split.
  - unfold shquote. simpl. rewrite length_append, length_escaped. simpl. lia.
  - apply shquote_embedded_quote.
Qed.

(** C9: with an input string the hashed text is [echo], the input quoted
    for the shell, a pipe, and the command; the key is the SHA-1 hex
    digest of that text.  For [["cat"]] and [foo bar] the text is
    [echo 'foo bar' | cat] and the key is the one the package's test
    expects. *)
Theorem hash_folds_input :
  (forall (sh inputstr : string),
      _hash (ShCode sh) (Some inputstr)
      = Ok (Sha1.hexdigest ("echo " +:+ shquote inputstr +:+ " | " +:+ sh),
            "echo " +:+ shquote inputstr +:+ " | " +:+ sh))
  /\ (forall (argv : list string) (inputstr : string),
      _hash (ArgList argv) (Some inputstr)
      = Ok (Sha1.hexdigest ("echo " +:+ shquote inputstr +:+ " | "
                             +:+ slice_from 1 (argv2sh_loop argv)),
            "echo " +:+ shquote inputstr +:+ " | " +:+ slice_from 1 (argv2sh_loop argv)))
  /\ _hash (ArgList ["cat"]) (Some "foo bar")
     = Ok (Sha1.hexdigest "echo 'foo bar' | cat", "echo 'foo bar' | cat")
  /\ Sha1.hexdigest "echo 'foo bar' | cat" = "86cc5f6b73420f8a99d3cda3235284f125637840".
Proof.
  split; [reflexivity|]. split; [reflexivity|]. split; vm_compute; reflexivity.
Qed.

(* ===================================================================== *)
(** * Theorems: comparing ages *)
(* ===================================================================== *)

Section NumFacts.

Lemma SFcompare_Eq_sym (a b : spec_float) :
  SFcompare a b = Some Eq -> SFcompare b a = Some Eq.
Proof.
  destruct a as [sa|sa| |sa ma ea], b as [sb|sb| |sb mb eb]; simpl; try congruence;
    repeat match goal with s : bool |- _ => destruct s end; try congruence.
  all: intros H; injection H as H;
    destruct (Z.compare ea eb) eqn:Ee; try discriminate;
    apply Z.compare_eq in Ee; subst eb; rewrite Z.compare_refl;
    destruct (Pos.compare_cont Eq ma mb) eqn:Em; try discriminate;
    apply Pos.compare_eq in Em; subst mb; now rewrite Pos.compare_cont_refl.
Qed.

(** Equal floats are not in the order [<]. *)
Lemma float_eqb_not_ltb (x y : float) :
  PrimFloat.eqb x y = true -> PrimFloat.ltb y x = false.
Proof.
  rewrite FloatAxioms.eqb_spec, ltb_spec. unfold SFeqb, SFltb. intros H.
  destruct (SFcompare (Prim2SF x) (Prim2SF y)) as [[| |]|] eqn:E; try discriminate.
  now rewrite (SFcompare_Eq_sym _ _ E).
Qed.

(** An age equal to [maxage] does not exceed it. *)
Lemma py_eq_not_gt (x : float) (m : pynum) : py_eq x m = true -> py_gt x m = false.
Proof.
  destruct m as [n|y]; simpl.
  - unfold float_eq_int, float_gt_int.
    destruct (Prim2SF x) as [s|s| |s mx e]; try discriminate.
    + intros H. apply Z.eqb_eq in H. subst n. reflexivity.
    + destruct (scaled_compare (signed s mx) e n); congruence.
  - apply float_eqb_not_ltb.
Qed.

Lemma Prim2SF_zero : Prim2SF PrimFloat.zero = S754_zero false.
Proof. reflexivity. Qed.

Lemma pow2_pos (e : Z) : 0 <= e -> 0 < 2 ^ e.
Proof. intros. apply Z.pow_pos_nonneg; lia. Qed.

(** An age that is not negative exceeds the default [maxage] of [-1]. *)
Lemma nonneg_gt_minus_one (x : float) :
  float_nonneg x = true -> py_gt x (PyInt (-1)) = true.
Proof.
  unfold float_nonneg, py_gt, float_gt_int. rewrite leb_spec, Prim2SF_zero.
  unfold SFleb. destruct (Prim2SF x) as [s|s| |s mx e]; simpl; try discriminate.
  - reflexivity.
  - destruct s; [discriminate | reflexivity].
  - destruct s; [discriminate|]. intros _. unfold scaled_compare, signed.
    destruct (Z.leb_spec 0 e) as [He|He].
    + pose proof (pow2_pos e He).
      destruct (Z.compare_spec (Z.pos mx * 2 ^ e) (-1)); try reflexivity; nia.
    + assert (0 < 2 ^ (- e)) by (apply pow2_pos; lia).
      destruct (Z.compare_spec (Z.pos mx) (-1 * 2 ^ (- e))); try reflexivity; nia.
Qed.

(** An age that is not negative exceeds every negative [maxage]. *)
Lemma nonneg_gt_negative (x : float) (m : pynum) :
  float_nonneg x = true -> py_negative m = true -> py_gt x m = true.
Proof.
  unfold float_nonneg. rewrite leb_spec, Prim2SF_zero. unfold SFleb.
  destruct m as [n|y]; simpl.
  - unfold float_gt_int. intros Hx Hn. apply Z.ltb_lt in Hn.
    destruct (Prim2SF x) as [s|s| |s mx e]; simpl in Hx; try discriminate.
    + now apply Z.ltb_lt.
    + destruct s; [discriminate | reflexivity].
    + destruct s; [discriminate|]. unfold scaled_compare, signed.
      destruct (Z.leb_spec 0 e) as [He|He].
      * pose proof (pow2_pos e He).
        destruct (Z.compare_spec (Z.pos mx * 2 ^ e) n); try reflexivity; nia.
      * assert (0 < 2 ^ (- e)) by (apply pow2_pos; lia).
        destruct (Z.compare_spec (Z.pos mx) (n * 2 ^ (- e))); try reflexivity; nia.
  - rewrite !ltb_spec, Prim2SF_zero. unfold SFltb.
    destruct (Prim2SF x) as [s|s| |s mx e], (Prim2SF y) as [t|t| |t my ey];
      simpl; try discriminate; try reflexivity;
      repeat match goal with b : bool |- _ => destruct b end;
      simpl; try discriminate; try reflexivity.
Qed.

End NumFacts.

(* ===================================================================== *)
(** * Theorems: the reader *)
(* ===================================================================== *)

Section ReaderFacts.

Context {B : Builtins} (env : Env).

Local Open Scope py_scope.

Abbreviation max_retries := (CLICACHE_MAX_RETRIES (settings env)).

Lemma current_entry_inv (tree : FS) (h : string) (hs : handles) :
  current_entry env tree h = Some hs ->
  exists c, resolve_current env tree h = Ok (Some c)
            /\ open_fields tree (Some c) = Ok hs.
Proof.
  unfold current_entry. intros H.
  destruct (resolve_current env tree h) as [[c|]|e]; try discriminate.
  exists c. split; [reflexivity|].
  destruct (open_fields tree (Some c)); [congruence | discriminate].
Qed.

(** The five [open] calls raise [IOError], or [UnboundLocalError] when
    [canonical] was never bound; never [CacheMiss]. *)
Lemma open_fields_not_miss (tree : FS) (c : option path) (e : exn) :
  open_fields tree c = Raise e -> is_CacheMiss e = false.
Proof.
  unfold open_fields, open_field. intros H.
  destruct c as [c|]; [|injection H as <-; reflexivity].
  repeat (case_match; try discriminate); simplify_eq; reflexivity.
Qed.

Lemma attempt_throws (tree : FS) (c : option path) (e : exn) :
  open_fields tree c = Raise e -> attempt tree c = Throw e.
Proof. unfold attempt. intros ->. now destruct (is_OSError_or_IOError e). Qed.

(** The first turn of the loop is the last one, whatever happens in it. *)
Lemma open_loop_first_ok (fs_at : Z -> FS) (c : option path) (hs : handles) :
  0 < max_retries ->
  open_fields (fs_at 0) c = Ok hs ->
  open_loop env fs_at c = (Ok (Some hs), 1).
Proof.
  intros Hpos Hopen. unfold open_loop.
  destruct (Z.to_nat max_retries) eqn:E; [lia|]. simpl.
  destruct (Z.ltb_spec 0 max_retries); [|lia].
  unfold attempt. now rewrite Hopen.
Qed.

Lemma open_loop_first_fail (fs_at : Z -> FS) (c : option path) (e : exn) :
  0 < max_retries ->
  open_fields (fs_at 0) c = Raise e ->
  open_loop env fs_at c = (Raise e, 1).
Proof.
  intros Hpos Hopen. unfold open_loop.
  destruct (Z.to_nat max_retries) eqn:E; [lia|]. simpl.
  destruct (Z.ltb_spec 0 max_retries); [|lia].
  now rewrite (attempt_throws _ _ _ Hopen).
Qed.

Lemma open_loop_no_turn (fs_at : Z -> FS) (c : option path) :
  max_retries <= 0 -> open_loop env fs_at c = (Ok None, 0).
Proof.
  intros Hle. unfold open_loop.
  destruct (Z.to_nat max_retries) eqn:E; [reflexivity|lia].
Qed.

(** What the loop can give: the handles of the first turn, or its
    exception, or nothing when no turn is allowed. *)
Lemma get_handles_cases (tree : FS) (c : option path) :
  get_handles env (fun _ => tree) c
  = if 0 <? max_retries
    then match open_fields tree c with Ok hs => Ok hs | Raise e => Raise e end
    else Raise err_no_handle.
Proof.
  unfold get_handles. destruct (Z.ltb_spec 0 max_retries) as [Hpos|Hle].
  - destruct (open_fields tree c) as [hs|e] eqn:Ho.
    + now rewrite (open_loop_first_ok (fun _ => tree) c hs Hpos Ho).
    + now rewrite (open_loop_first_fail (fun _ => tree) c e Hpos Ho).
  - now rewrite open_loop_no_turn.
Qed.

(** The verdict on an entry whose handles are open, case by case. *)
Lemma examine_cases (h : string) (maxage : pynum) (hs : handles) (w : World) :
  examine env h maxage hs w
  = match py_float (f_t hs) with
    | None => (Raise err_timestamp, w)
    | Some t =>
        if py_gt (PrimFloat.sub (clock env (time_calls w)) t) maxage
        then (Raise (miss_too_old h), tick w)
        else match py_int (f_returncode hs) with
             | Some returncode => (Ok (f_stdout hs, f_stderr hs, returncode), tick w)
             | None => (Raise err_returncode, tick w)
             end
    end.
Proof.
  unfold examine, bind.
  destruct (py_float (f_t hs)) as [t|]; [|reflexivity]. simpl.
  destruct (py_gt _ maxage); [reflexivity|].
  destruct (py_int (f_returncode hs)); reflexivity.
Qed.

Lemma reader_on_entry (h : string) (maxage : pynum) (w : World) (hs : handles) :
  0 < max_retries ->
  current_entry env (fs w) h = Some hs ->
  _cached_runsh env h maxage w = examine env h maxage hs w.
Proof.
  intros Hpos Hcur. destruct (current_entry_inv _ _ _ Hcur) as (c & Hres & Hopen).
  unfold _cached_runsh, bind. rewrite Hres, get_handles_cases, Hopen.
  now destruct (Z.ltb_spec 0 max_retries); [|lia].
Qed.

(** Every way out of the reader, in one equation. *)
Lemma reader_cases (h : string) (maxage : pynum) (w : World) :
  _cached_runsh env h maxage w
  = match resolve_current env (fs w) h with
    | Raise e => (Raise e, w)
    | Ok c =>
        match get_handles env (fun _ => fs w) c with
        | Raise e => (Raise e, w)
        | Ok hs => examine env h maxage hs w
        end
    end.
Proof.
  unfold _cached_runsh, bind.
  destruct (resolve_current env (fs w) h) as [c|e]; [|reflexivity].
  now destruct (get_handles env (fun _ => fs w) c) as [hs|e].
Qed.

Lemma examine_world (h : string) (maxage : pynum) (hs : handles) (w : World) :
  fs (snd (examine env h maxage hs w)) = fs w
  /\ runs (snd (examine env h maxage hs w)) = runs w.
Proof.
  rewrite examine_cases. destruct (py_float (f_t hs)); [|now split].
  destruct (py_gt _ maxage); [now split|].
  destruct (py_int (f_returncode hs)); now split.
Qed.

(** The reader changes neither the tree nor the list of subprocesses. *)
Lemma reader_world (h : string) (maxage : pynum) (w : World) :
  fs (snd (_cached_runsh env h maxage w)) = fs w
  /\ runs (snd (_cached_runsh env h maxage w)) = runs w.
Proof.
  rewrite reader_cases.
  destruct (resolve_current env (fs w) h) as [c|e]; [|now split].
  destruct (get_handles env (fun _ => fs w) c) as [hs|e]; [|now split].
  apply examine_world.
Qed.

(** A result comes from the files of the entry that [current] leads to. *)
Lemma reader_ok_from_disk (h : string) (maxage : pynum) (w w' : World)
    (res : string * string * Z) :
  _cached_runsh env h maxage w = (Ok res, w') ->
  exists hs returncode,
    current_entry env (fs w) h = Some hs
    /\ py_int (f_returncode hs) = Some returncode
    /\ res = (f_stdout hs, f_stderr hs, returncode).
Proof.
  rewrite reader_cases. unfold current_entry.
  destruct (resolve_current env (fs w) h) as [c|e]; [|discriminate].
  rewrite get_handles_cases.
  destruct (0 <? max_retries); [|discriminate].
  destruct c as [c|]; [|discriminate].
  destruct (open_fields (fs w) (Some c)) as [hs|e]; [|discriminate].
  rewrite examine_cases. destruct (py_float (f_t hs)); [|discriminate].
  destruct (py_gt _ maxage); [discriminate|].
  destruct (py_int (f_returncode hs)) as [rc|] eqn:Hrc; [|discriminate].
  intros H. injection H as <- <-. exists hs, rc. auto.
Qed.

End ReaderFacts.

Section ReaderClaims.

Context {B : Builtins} (env : Env).

(** C4: for a key whose current entry can be opened and whose timestamp
    parses, the reader signals [CacheMiss] exactly when the elapsed time,
    now minus the stored timestamp, is strictly greater than [maxage];
    when the two are equal the read is a hit (given a return code that
    parses). *)
Theorem staleness_boundary (h : string) (maxage : pynum) (w : World)
    (hs : handles) (t : float) :
  0 < CLICACHE_MAX_RETRIES (settings env) ->
  current_entry env (fs w) h = Some hs ->
  py_float (f_t hs) = Some t ->
  let elapsed := PrimFloat.sub (clock env (time_calls w)) t in
  let result := fst (_cached_runsh env h maxage w) in
  (result = Raise (miss_too_old h) <-> py_gt elapsed maxage = true)
  /\ is_miss result = py_gt elapsed maxage
  /\ (py_eq elapsed maxage = true ->
      forall returncode, py_int (f_returncode hs) = Some returncode ->
      result = Ok (f_stdout hs, f_stderr hs, returncode)).
Proof.
  intros Hpos Hcur Ht elapsed result. subst result.
  rewrite (reader_on_entry env h maxage w hs Hpos Hcur), examine_cases, Ht.
  fold elapsed. destruct (py_gt elapsed maxage) eqn:Hgt.
  - simpl. split; [tauto|]. split; [reflexivity|].
    intros Heq. apply py_eq_not_gt in Heq. congruence.
  - split; [|split].
    + destruct (py_int (f_returncode hs)); simpl; split; discriminate.
    + now destruct (py_int (f_returncode hs)).
    + intros _ rc ->. reflexivity.
Qed.

(** C7 (amended): a timestamp that does not parse is a fatal error,
    never a miss; a return code that does not parse is a fatal error when
    the entry is fresh enough to be read, and when the entry is older
    than [maxage] the reader signals that miss before it looks at the
    return code. *)
Theorem corrupt_entry_outcome (h : string) (maxage : pynum) (w : World)
    (hs : handles) :
  0 < CLICACHE_MAX_RETRIES (settings env) ->
  current_entry env (fs w) h = Some hs ->
  let result := fst (_cached_runsh env h maxage w) in
  (py_float (f_t hs) = None -> result = Raise err_timestamp)
  /\ (forall t, py_float (f_t hs) = Some t ->
      py_int (f_returncode hs) = None ->
      result = if py_gt (PrimFloat.sub (clock env (time_calls w)) t) maxage
               then Raise (miss_too_old h)
               else Raise err_returncode).
Proof.
  intros Hpos Hcur result. subst result.
  rewrite (reader_on_entry env h maxage w hs Hpos Hcur), examine_cases.
  split.
  - intros ->. reflexivity.
  - intros t -> ->. now destruct (py_gt _ maxage).
Qed.

End ReaderClaims.

(** C2 (the code at the failing input): a first process has cached an
    entry and the reader has resolved [current] to it; a second process
    then promotes its own entry and removes the first.  The reader's
    first [open] fails and the loop ends there, after one turn, with the
    [IOError] of that [open], although ten turns are allowed and
    [current] now leads to an entry that can be opened.  In general the
    loop never takes a second turn, and what it raises is never
    [CacheMiss]. *)
Theorem open_failure_is_not_retried :
  let env := Examples.ex_env [] 0%float Examples.uuid_a in
  let canonical := Examples.dir_echo ++ [Examples.uuid_a] in
  resolve_current env (fs Examples.after_first_write) Examples.h_echo = Ok (Some canonical)
  /\ CLICACHE_MAX_RETRIES (settings env) = 10
  /\ open_loop env (fun _ => fs Examples.after_second_write) (Some canonical)
     = (Raise (IOError ENOENT), 1)
  /\ (exists hs, current_entry env (fs Examples.after_second_write) Examples.h_echo = Some hs)
  /\ (forall (env' : Env) (fs_at : Z -> FS) (c : option path),
        snd (open_loop env' fs_at c)
        = (if 0 <? CLICACHE_MAX_RETRIES (settings env') then 1 else 0)
        /\ is_miss (fst (open_loop env' fs_at c)) = false).
Proof.
  intros env canonical.
  split; [vm_compute; reflexivity|]. split; [reflexivity|].
  split; [vm_compute; reflexivity|]. split; [eexists; vm_compute; reflexivity|].
  intros env' fs_at c. destruct (Z.ltb_spec 0 (CLICACHE_MAX_RETRIES (settings env'))) as [Hpos|Hle].
  - destruct (open_fields (fs_at 0) c) as [hs|e] eqn:Ho.
    + now rewrite (open_loop_first_ok env' fs_at c hs Hpos Ho).
    + rewrite (open_loop_first_fail env' fs_at c e Hpos Ho). simpl.
      split; [reflexivity|]. exact (open_fields_not_miss _ _ _ Ho).
  - now rewrite open_loop_no_turn.
Qed.

(** C4 (witness): an entry stamped 100, read at 110 with [maxage = 10]. *)
Lemma staleness_boundary_witness :
  let env := Examples.ex_env [110%float] 110%float Examples.uuid_a in
  let w := Examples.world_of (Examples.tree_with Examples.uuid_a "100.000000" "0") in
  let result := fst (_cached_runsh (B := RefBuiltins) env Examples.h_echo (PyInt 10) w) in
  (result = Raise (miss_too_old Examples.h_echo)
   <-> py_gt (PrimFloat.sub 110%float 100%float) (PyInt 10) = true)
  /\ is_miss result = py_gt (PrimFloat.sub 110%float 100%float) (PyInt 10)
  /\ (py_eq (PrimFloat.sub 110%float 100%float) (PyInt 10) = true ->
      forall returncode, ref_int "0" = Some returncode ->
      result = Ok ("foo", "", returncode)).
Proof.
  exact (staleness_boundary (B := RefBuiltins)
           (Examples.ex_env [110%float] 110%float Examples.uuid_a)
           Examples.h_echo (PyInt 10)
           (Examples.world_of (Examples.tree_with Examples.uuid_a "100.000000" "0"))
           {| f_t := "100.000000"; f_r := "echo foo"; f_stdout := "foo";
              f_stderr := ""; f_returncode := "0" |}
           100%float eq_refl eq_refl eq_refl).
Defined.

(** C7 (counterexample): the return code of the entry is not a number,
    the entry is older than [maxage], and the reader signals
    [CacheMiss], not a fatal error. *)
Lemma corrupt_returncode_can_miss :
  let env := Examples.ex_env [100%float] 100%float Examples.uuid_a in
  let w := Examples.world_of (Examples.tree_with Examples.uuid_a "0.000000" "garbage") in
  (exists hs, current_entry env (fs w) Examples.h_echo = Some hs
              /\ py_int (Builtins := RefBuiltins) (f_returncode hs) = None)
  /\ fst (_cached_runsh (B := RefBuiltins) env Examples.h_echo (PyInt 10) w)
     = Raise (miss_too_old Examples.h_echo).
Proof.
  split; [eexists; split; vm_compute; reflexivity | vm_compute; reflexivity].
Qed.

(** C7 (witness): the same entry with a fresh timestamp is a fatal error. *)
Lemma corrupt_entry_outcome_witness :
  let env := Examples.ex_env [100%float] 100%float Examples.uuid_a in
  let w := Examples.world_of (Examples.tree_with Examples.uuid_a "95.000000" "garbage") in
  let result := fst (_cached_runsh (B := RefBuiltins) env Examples.h_echo (PyInt 10) w) in
  (ref_float "95.000000" = None -> result = Raise err_timestamp)
  /\ (forall t, ref_float "95.000000" = Some t ->
      ref_int "garbage" = None ->
      result = if py_gt (PrimFloat.sub 100%float t) (PyInt 10)
               then Raise (miss_too_old Examples.h_echo)
               else Raise err_returncode).
Proof.
  exact (corrupt_entry_outcome (B := RefBuiltins)
           (Examples.ex_env [100%float] 100%float Examples.uuid_a)
           Examples.h_echo (PyInt 10)
           (Examples.world_of (Examples.tree_with Examples.uuid_a "95.000000" "garbage"))
           {| f_t := "95.000000"; f_r := "echo foo"; f_stdout := "foo";
              f_stderr := ""; f_returncode := "garbage" |}
           eq_refl eq_refl).
Defined.

(* ===================================================================== *)
(** * Theorems: the orchestrator *)
(* ===================================================================== *)

Section RunsFacts.

Context {B : Builtins} (env : Env).

Local Open Scope py_scope.

Lemma keeps_runs_ret {A} (a : A) : keeps_runs (ret a).
Proof. intros w. reflexivity. Qed.

Lemma keeps_runs_bind {A C} (m : M A) (k : A -> M C) :
  keeps_runs m -> (forall a, keeps_runs (k a)) -> keeps_runs (bind m k).
Proof.
  intros Hm Hk w. unfold bind. specialize (Hm w).
  destruct (m w) as [[a|e] w']; simpl in *; [|exact Hm].
  now rewrite (Hk a w').
Qed.

Lemma keeps_runs_try {A} (m : M A) (handler : exn -> option (M A)) :
  keeps_runs m -> (forall e k, handler e = Some k -> keeps_runs k) ->
  keeps_runs (try_except m handler).
Proof.
  intros Hm Hk w. unfold try_except. specialize (Hm w).
  destruct (m w) as [[a|e] w']; simpl in *; [exact Hm|].
  destruct (handler e) as [k|] eqn:Hh; [|exact Hm].
  now rewrite (Hk e k Hh w').
Qed.

Lemma keeps_runs_os_call (f : FS -> errno + FS) : keeps_runs (os_call f).
Proof. intros w. unfold os_call. now destruct (f (fs w)). Qed.

Lemma keeps_runs_io_call (f : FS -> errno + FS) : keeps_runs (io_call f).
Proof. intros w. unfold io_call. now destruct (f (fs w)). Qed.

Lemma keeps_runs_modify (f : FS -> FS) : keeps_runs (modify_fs f).
Proof. intros w. reflexivity. Qed.

Lemma keeps_runs_time : keeps_runs (time_time env).
Proof. intros w. reflexivity. Qed.

Lemma keeps_runs_uuid : keeps_runs (uuid_uuid1 env).
Proof. intros w. reflexivity. Qed.

Lemma keeps_runs_open_write (p : path) (text : M string) :
  keeps_runs text -> keeps_runs (open_write p text).
Proof.
  intros Ht. unfold open_write.
  apply keeps_runs_bind; [apply keeps_runs_io_call|]. intros _.
  apply keeps_runs_bind; [exact Ht|]. intros s. apply keeps_runs_modify.
Qed.

Lemma keeps_runs_read_old (basedir : path) : keeps_runs (read_old_canonical basedir).
Proof.
  intros w. unfold read_old_canonical.
  destruct (os_readlink (fs w) (basedir ++ ["current"])) as [[]|]; reflexivity.
Qed.

(** The writer starts no subprocess. *)
Lemma keeps_runs_cache (h r : string) (t : float) (stdout stderr : string) (rc : Z) :
  keeps_runs (_cache env h r t stdout stderr rc).
Proof.
  unfold _cache.
  apply keeps_runs_bind.
  { apply keeps_runs_try.
    - intros w. now destruct (os_makedirs (fs w) (_hash2dir env h)) as [fs' [e|]].
    - intros e k Hk. destruct e as [| [] | | | | |]; try discriminate.
      injection Hk as <-. apply keeps_runs_ret. }
  intros _. apply keeps_runs_bind; [apply keeps_runs_uuid|]. intros id.
  apply keeps_runs_bind; [apply keeps_runs_os_call|]. intros _.
  apply keeps_runs_bind.
  { apply keeps_runs_open_write, keeps_runs_bind; [apply keeps_runs_time|].
    intros now. apply keeps_runs_ret. }
  intros _.
  do 4 (apply keeps_runs_bind;
        [apply keeps_runs_open_write, keeps_runs_ret | intros _]).
  apply keeps_runs_bind; [apply keeps_runs_os_call|]. intros _.
  apply keeps_runs_bind; [apply keeps_runs_read_old|]. intros old.
  apply keeps_runs_bind; [apply keeps_runs_os_call|]. intros _.
  destruct old; [apply keeps_runs_modify | apply keeps_runs_ret].
Qed.

Lemma keeps_runs_reader (h : string) (maxage : pynum) :
  keeps_runs (_cached_runsh env h maxage).
Proof. intros w. apply reader_world. Qed.

(** The handler of a miss, step by step. *)
Lemma refill_cases (h r : string) (sh : command) (inputstr : option string) (w : World) :
  refill env h r sh inputstr w
  = match popen env (length (runs w)) sh inputstr with
    | Raise e => (Raise e, record_run w sh inputstr)
    | Ok (stdout, stderr, returncode) =>
        match _cache env h r (clock env (time_calls w)) stdout stderr returncode
                (tick (record_run w sh inputstr)) with
        | (Raise e, w') => (Raise e, w')
        | (Ok _, w') => _cached_runsh env h (PyInt sys_maxint) w'
        end
    end.
Proof.
  unfold refill, bind, runsh_t.
  destruct (popen env (length (runs w)) sh inputstr) as [[[so se] rc]|e]; [|reflexivity].
  simpl. now destruct (_cache env h r _ so se rc _) as [[[]|e] w'].
Qed.

(** The handler of a miss starts exactly one subprocess. *)
Lemma refill_runs (h r : string) (sh : command) (inputstr : option string) (w : World) :
  runs (snd (refill env h r sh inputstr w)) = runs w ++ [(sh, inputstr)].
Proof.
  rewrite refill_cases.
  destruct (popen env (length (runs w)) sh inputstr) as [[[so se] rc]|e]; [|reflexivity].
  pose proof (keeps_runs_cache h r (clock env (time_calls w)) so se rc
                (tick (record_run w sh inputstr))) as Hc.
  destruct (_cache env h r _ so se rc _) as [[[]|e] w']; simpl in Hc.
  - rewrite keeps_runs_reader. exact Hc.
  - exact Hc.
Qed.

Lemma runsh_cases (sh : command) (inputstr : option string) (maxage : pynum)
    (w : World) (h r : string) :
  _hash sh inputstr = Ok (h, r) ->
  runsh env sh inputstr maxage w
  = match _cached_runsh env h maxage w with
    | (Raise (CacheMiss _), w') => refill env h r sh inputstr w'
    | other => other
    end.
Proof.
  intros Hh. unfold runsh, bind, lift, try_except. rewrite Hh.
  destruct (_cached_runsh env h maxage w) as [[res|e] w']; [reflexivity|].
  now destruct e.
Qed.

End RunsFacts.

Section OrchestratorClaims.

Context {B : Builtins} (env : Env).

(** C10 (amended): with the default [maxage] of [-1], an entry that can
    be opened, whose timestamp parses and whose elapsed age is not
    negative is judged too old: the read signals [CacheMiss] and [runsh]
    runs the command again; and to be served such an entry a caller must
    pass a [maxage] that is not negative (zero is enough when the
    elapsed age is zero). *)
Theorem default_maxage_always_misses (h : string) (w : World) (hs : handles) (t : float) :
  0 < CLICACHE_MAX_RETRIES (settings env) ->
  current_entry env (fs w) h = Some hs ->
  py_float (f_t hs) = Some t ->
  float_nonneg (PrimFloat.sub (clock env (time_calls w)) t) = true ->
  fst (_cached_runsh env h default_maxage w) = Raise (miss_too_old h)
  /\ (forall sh inputstr r, _hash sh inputstr = Ok (h, r) ->
      runs (snd (runsh env sh inputstr default_maxage w)) = runs w ++ [(sh, inputstr)])
  /\ (forall maxage res, fst (_cached_runsh env h maxage w) = Ok res ->
      py_negative maxage = false).
Proof.
  intros Hpos Hcur Ht Hage.
  assert (Hmiss : _cached_runsh env h default_maxage w = (Raise (miss_too_old h), tick w)).
  { rewrite (reader_on_entry env h default_maxage w hs Hpos Hcur), examine_cases, Ht.
    unfold default_maxage. now rewrite (nonneg_gt_minus_one _ Hage). }
  split; [now rewrite Hmiss|]. split.
  - intros sh inputstr r Hh. rewrite (runsh_cases env sh inputstr _ w h r Hh), Hmiss.
    unfold miss_too_old. now rewrite refill_runs.
  - intros maxage res.
    rewrite (reader_on_entry env h maxage w hs Hpos Hcur), examine_cases, Ht.
    destruct (py_negative maxage) eqn:Hneg; [|reflexivity].
    now rewrite (nonneg_gt_negative _ maxage Hage Hneg).
Qed.

End OrchestratorClaims.

(** C1 (the code at the failing input): [_cache] is called with
    [t = 100.0], the time the command finished, while its own reading of
    the clock gives [200.0]; the [t] file of the new entry holds
    [200.000000].  In general the argument [t] has no effect at all on
    what [_cache] does. *)
Theorem cache_stamps_its_own_clock :
  fs Examples.after_first_write !! (Examples.dir_echo ++ [Examples.uuid_a; FNAME_t])
  = Some (File "200.000000")
  /\ fmt_6f (Builtins := RefBuiltins) 100%float = "100.000000"
  /\ (forall (B : Builtins) (env : Env) (h r : string) (t t' : float)
             (stdout stderr : string) (returncode : Z),
        _cache env h r t stdout stderr returncode
        = _cache env h r t' stdout stderr returncode).
Proof.
  split; [vm_compute; reflexivity|]. split; [vm_compute; reflexivity|].
  reflexivity.
Qed.

Section OrchestratorRuns.

#[local] Existing Instance RefBuiltins.

(** C10 (counterexample): an entry stamped 100 is read at 100 with
    [maxage = 0], which is not positive, and it is served. *)
Lemma zero_maxage_is_served :
  let env := Examples.ex_env [100%float] 100%float Examples.uuid_a in
  let w := Examples.world_of (Examples.tree_with Examples.uuid_a "100.000000" "0") in
  fst (_cached_runsh (B := RefBuiltins) env Examples.h_echo (PyInt 0) w) = Ok ("foo", "", 0)
  /\ float_nonneg (PrimFloat.sub 100%float 100%float) = true
  /\ (0 <? 0) = false.
Proof. split; [|split]; vm_compute; reflexivity. Qed.

(** C10 (witness): the same entry read at 105 with the default [maxage]. *)
Lemma default_maxage_always_misses_witness :
  let env := Examples.ex_env [105%float] 105%float Examples.uuid_a in
  let w := Examples.world_of (Examples.tree_with Examples.uuid_a "100.000000" "0") in
  let h := Examples.h_echo in
  fst (_cached_runsh (B := RefBuiltins) env h default_maxage w) = Raise (miss_too_old h)
  /\ (forall sh inputstr r, _hash sh inputstr = Ok (h, r) ->
      runs (snd (runsh env sh inputstr default_maxage w)) = runs w ++ [(sh, inputstr)])
  /\ (forall maxage res, fst (_cached_runsh env h maxage w) = Ok res ->
      py_negative maxage = false).
Proof.
  exact (default_maxage_always_misses (B := RefBuiltins)
           (Examples.ex_env [105%float] 105%float Examples.uuid_a)
           Examples.h_echo
           (Examples.world_of (Examples.tree_with Examples.uuid_a "100.000000" "0"))
           {| f_t := "100.000000"; f_r := "echo foo"; f_stdout := "foo";
              f_stderr := ""; f_returncode := "0" |}
           100%float eq_refl eq_refl eq_refl eq_refl).
Defined.

End OrchestratorRuns.
(* ===================================================================== *)
(** * Theorems: what each call does to the tree *)
(* ===================================================================== *)

Section FsFacts.

Implicit Types (fs : FS) (p q : path) (n : node).

Lemma os_mkdir_inr fs p fs' :
  os_mkdir fs p = inr fs' -> fs !! p = None /\ fs' = <[p := Dir]> fs.
Proof.
  unfold os_mkdir. intros H. repeat case_match; try discriminate.
  injection H as <-. auto.
Qed.

Lemma os_mkdir_free fs p :
  p <> [] -> fs !! p = None -> is_dir fs (parent p) = true ->
  os_mkdir fs p = inr (<[p := Dir]> fs).
Proof.
  intros Hp Hfree Hdir. unfold os_mkdir, parent_error.
  destruct p as [|a p]; [congruence|]. now rewrite Hfree, Hdir.
Qed.

Lemma open_w_inr fs p fs' :
  open_w fs p = inr fs' ->
  (fs !! p = None \/ exists c, fs !! p = Some (File c)) /\ fs' = <[p := File ""]> fs.
Proof.
  unfold open_w. intros H. repeat case_match; try discriminate;
    injection H as <-; eauto.
Qed.

Lemma open_w_free fs p :
  p <> [] -> fs !! p = None -> is_dir fs (parent p) = true ->
  open_w fs p = inr (<[p := File ""]> fs).
Proof.
  intros Hp Hfree Hdir. unfold open_w, parent_error.
  destruct p as [|a p]; [congruence|]. now rewrite Hfree, Hdir.
Qed.

Lemma write_handle_file fs p c s :
  fs !! p = Some (File c) -> write_handle fs p s = <[p := File s]> fs.
Proof. unfold write_handle. now intros ->. Qed.

Lemma os_symlink_inr fs target p fs' :
  os_symlink fs target p = inr fs' ->
  fs !! p = None /\ fs' = <[p := Symlink target]> fs.
Proof.
  unfold os_symlink. intros H. repeat case_match; try discriminate.
  injection H as <-. auto.
Qed.

Lemma os_symlink_free fs target p :
  p <> [] -> fs !! p = None -> is_dir fs (parent p) = true ->
  os_symlink fs target p = inr (<[p := Symlink target]> fs).
Proof.
  intros Hp Hfree Hdir. unfold os_symlink, parent_error.
  destruct p as [|a p]; [congruence|]. now rewrite Hfree, Hdir.
Qed.

Lemma os_readlink_inr fs p target :
  os_readlink fs p = inr target <-> fs !! p = Some (Symlink target).
Proof.
  unfold os_readlink. split; intros H.
  - repeat case_match; try discriminate. congruence.
  - now rewrite H.
Qed.

Lemma os_readlink_free fs p :
  fs !! p = None -> is_dir fs (parent p) = true -> os_readlink fs p = inl ENOENT.
Proof. intros Hfree Hdir. unfold os_readlink, parent_error. now rewrite Hfree, Hdir. Qed.

Lemma os_rename_inr fs src dst fs' :
  os_rename fs src dst = inr fs' ->
  exists n, fs !! src = Some n /\ n <> Dir /\ fs' = <[dst := n]> (delete src fs).
Proof.
  unfold os_rename. intros H.
  destruct (fs !! src) as [n|] eqn:Es; [|repeat case_match; discriminate].
  exists n. split; [reflexivity|].
  repeat case_match; try discriminate; injection H as <-; split; congruence.
Qed.

Lemma os_rename_link fs src dst target :
  dst <> [] -> fs !! src = Some (Symlink target) ->
  fs !! dst <> Some Dir -> is_dir fs (parent dst) = true ->
  os_rename fs src dst = inr (<[dst := Symlink target]> (delete src fs)).
Proof.
  intros Hd Hs Hnd Hdir. unfold os_rename, parent_error. rewrite Hs, Hdir.
  destruct dst as [|a dst]; [congruence|].
  destruct (fs !! (a :: dst)) as [[| |]|]; congruence.
Qed.

(** What [shutil.rmtree] leaves of a name. *)
Lemma rmtree_lookup fs p q :
  shutil_rmtree fs p !! q
  = match fs !! p with
    | Some Dir => if decide (p `prefix_of` q) then None else fs !! q
    | _ => fs !! q
    end.
Proof.
  unfold shutil_rmtree. destruct (fs !! p) as [[| |]|]; try reflexivity.
  rewrite map_lookup_filter. destruct (fs !! q) as [n|]; [|now destruct (decide _)].
  simpl. destruct (decide (p `prefix_of` q)) as [Hp|Hp].
  - rewrite option_guard_False; [reflexivity | tauto].
  - now rewrite option_guard_True.
Qed.

Lemma rmtree_lookup_other fs p q :
  (fs !! p = Some Dir -> ~ p `prefix_of` q) -> shutil_rmtree fs p !! q = fs !! q.
Proof.
  intros H. rewrite rmtree_lookup. destruct (fs !! p) as [[| |]|]; try reflexivity.
  destruct (decide (p `prefix_of` q)); [|reflexivity]. now destruct H.
Qed.

Lemma is_dir_true fs p : fs !! p = Some Dir -> is_dir fs p = true.
Proof. unfold is_dir. intros ->. now destruct p. Qed.

Lemma parent_snoc (p : path) (a : string) : parent (p ++ [a]) = p.
Proof. unfold parent. apply removelast_last. Qed.

Lemma parent_snoc2 (p : path) (a b : string) : parent (p ++ [a; b]) = p ++ [a].
Proof.
  change [a; b] with ([a] ++ [b]). rewrite app_assoc. apply parent_snoc.
Qed.

End FsFacts.

(* ===================================================================== *)
(** * Theorems: names below [basedir] *)
(* ===================================================================== *)

Section NameFacts.

Context {B : Builtins} (basedir : path).

Implicit Types (fs : FS) (q : path) (a id : string).

Lemma under_entry id : under basedir id (entry basedir id).
Proof. now exists []. Qed.

Lemma under_entry_file id f : under basedir id (entry_file basedir id f).
Proof. now exists [field_name f]. Qed.

Lemma under_tmp id : under basedir (tmp_name id) (tmp_link basedir id).
Proof. now exists []. Qed.

Lemma under_current : under basedir "current" (current basedir).
Proof. now exists []. Qed.

Lemma under_inj a b q : under basedir a q -> under basedir b q -> a = b.
Proof.
  intros [r ->] [r' H]. apply app_inv_head in H. now injection H.
Qed.

Lemma under_longer a q : under basedir a q -> (length basedir < length q)%nat.
Proof. intros [r ->]. rewrite length_app. simpl. lia. Qed.

Lemma not_under_prefix a q : q `prefix_of` basedir -> ~ under basedir a q.
Proof.
  intros Hp Hu. apply prefix_length in Hp. apply under_longer in Hu. lia.
Qed.

Lemma not_under_base a : ~ under basedir a basedir.
Proof. now apply not_under_prefix. Qed.

Lemma prefix_entry_under id q : entry basedir id `prefix_of` q <-> under basedir id q.
Proof.
  unfold entry. split.
  - intros [k ->]. exists k. now rewrite <- app_assoc.
  - intros [r ->]. exists r. now rewrite <- app_assoc.
Qed.

Lemma prefix_snoc_under a q : (basedir ++ [a]) `prefix_of` q <-> under basedir a q.
Proof. apply prefix_entry_under. Qed.

(** ** The names are all different *)

Lemma tmp_name_length id : String.length (tmp_name id) = (8 + String.length id)%nat.
Proof. reflexivity. Qed.

Lemma tmp_name_inj id id' : tmp_name id = tmp_name id' -> id = id'.
Proof. unfold tmp_name. sapp. now intros [= ->]. Qed.

Lemma tmp_name_not_current id : tmp_name id <> "current".
Proof. unfold tmp_name. sapp. discriminate. Qed.

Lemma uuid_not_current id : String.length id = 36%nat -> id <> "current".
Proof. intros H ->. discriminate H. Qed.

Lemma uuid_not_tmp id id' :
  String.length id = 36%nat -> String.length id' = 36%nat -> id <> tmp_name id'.
Proof. intros H H' ->. rewrite tmp_name_length in H. lia. Qed.

Lemma field_name_inj f g : field_name f = field_name g -> f = g.
Proof. destruct f, g; (reflexivity || discriminate). Qed.

Lemma field_index_inj f g : field_index f = field_index g -> f = g.
Proof. destruct f, g; (reflexivity || discriminate). Qed.

Lemma entry_file_inj id f g :
  entry_file basedir id f = entry_file basedir id g -> f = g.
Proof.
  unfold entry_file. intros H. apply app_inv_head in H.
  injection H as H. now apply field_name_inj.
Qed.

Lemma entry_not_file id f : entry basedir id <> entry_file basedir id f.
Proof.
  unfold entry, entry_file. intros H. apply app_inv_head in H. discriminate H.
Qed.

(** ** Changes confined to some names *)

Lemma within_refl names fs : within basedir names fs fs.
Proof. intros q _. reflexivity. Qed.

Lemma within_insert names fs a k n :
  a ∈ names -> under basedir a k -> within basedir names fs (<[k := n]> fs).
Proof.
  intros Ha Hk q Hq. apply lookup_insert_ne. intros ->. now apply (Hq a).
Qed.

Lemma within_delete names fs a k :
  a ∈ names -> under basedir a k -> within basedir names fs (delete k fs).
Proof.
  intros Ha Hk q Hq. apply lookup_delete_ne. intros ->. now apply (Hq a).
Qed.

Lemma within_trans names fs1 fs2 fs3 :
  within basedir names fs1 fs2 -> within basedir names fs2 fs3 ->
  within basedir names fs1 fs3.
Proof. intros H12 H23 q Hq. now rewrite (H23 q Hq), (H12 q Hq). Qed.

Lemma within_rmtree names fs y :
  y ∈ names -> within basedir names fs (shutil_rmtree fs (basedir ++ [y])).
Proof.
  intros Hy q Hq. apply rmtree_lookup_other. intros _ Hp.
  apply prefix_snoc_under in Hp. now apply (Hq y).
Qed.

Lemma within_base names fs fs' :
  within basedir names fs fs' -> fs' !! basedir = fs !! basedir.
Proof. intros H. apply H. intros a _. apply not_under_base. Qed.

Lemma within_dirs_fine names fs fs' :
  within basedir names fs fs' -> dirs_fine fs basedir -> dirs_fine fs' basedir.
Proof.
  intros H Hd q Hq Hne. rewrite H; [now apply Hd|].
  intros a _. now apply not_under_prefix.
Qed.

Lemma within_under names fs fs' a q :
  within basedir names fs fs' -> a ∉ names -> under basedir a q ->
  fs' !! q = fs !! q.
Proof.
  intros H Ha Hq. apply H. intros b Hb Hu.
  apply Ha. now rewrite (under_inj _ _ _ Hq Hu).
Qed.

End NameFacts.

(* ===================================================================== *)
(** * Theorems: what a process can rely on survives the others' calls *)
(* ===================================================================== *)

Section FrameFacts.

Context {B : Builtins} (basedir : path).

Implicit Types (fs : FS) (q : path) (a id : string) (p : proc).

Lemma written_frame fs fs' id text :
  (forall x, under basedir id x -> fs' !! x = fs !! x) ->
  written basedir fs id text -> written basedir fs' id text.
Proof.
  intros H [Hd Hf]. split.
  - rewrite H; [exact Hd | apply under_entry].
  - intros f. rewrite H; [apply Hf | apply under_entry_file].
Qed.

(** The three things a process looks at: its two names, [basedir], and
    the way down to [basedir]. *)
Lemma proc_ok_frame fs fs' p :
  (forall x, under basedir (c_uuid (p_call p)) x -> fs' !! x = fs !! x) ->
  (fs' !! tmp_link basedir (c_uuid (p_call p)) = fs !! tmp_link basedir (c_uuid (p_call p))) ->
  (fs !! basedir = Some Dir -> fs' !! basedir = Some Dir) ->
  (dirs_fine fs basedir -> dirs_fine fs' basedir) ->
  proc_ok basedir fs p -> proc_ok basedir fs' p.
Proof.
  intros Hid Htmp Hbase Hdirs. unfold proc_ok.
  assert (Hfree : entry_free basedir fs (c_uuid (p_call p)) ->
                  entry_free basedir fs' (c_uuid (p_call p))).
  { intros Hf x Hx. rewrite Hid; [now apply Hf | now apply prefix_entry_under]. }
  assert (He : fs' !! entry basedir (c_uuid (p_call p))
               = fs !! entry basedir (c_uuid (p_call p))).
  { apply Hid, under_entry. }
  assert (Hfile : forall g, fs' !! entry_file basedir (c_uuid (p_call p)) g
                            = fs !! entry_file basedir (c_uuid (p_call p)) g).
  { intros g. apply Hid, under_entry_file. }
  destruct (p_pc p); rewrite ?Htmp, ?He; try tauto.
  - intros (Hb & Hd & Hu & Ht). repeat split; auto.
    + intros Hlt. rewrite Hfile. now apply Hu.
    + intros Hle. rewrite Hfile. now apply Hu.
  - intros (Hb & Hd & Hu & Ht). repeat split; auto.
    + intros Hlt. rewrite Hfile. now apply Hu.
    + intros Heq. rewrite Hfile. now apply Hu.
    + intros Hlt. rewrite Hfile. now apply Hu.
  - intros (Hb & Hw & Ht). split; [auto|]. split; [now apply (written_frame fs)|auto].
  - intros (Hb & Hw & Ht). split; [auto|]. split; [now apply (written_frame fs)|auto].
  - intros (Hb & Hw & Ht). split; [auto|]. split; [now apply (written_frame fs)|auto].
Qed.

Lemma proc_ok_within names fs fs' p :
  within basedir names fs fs' ->
  c_uuid (p_call p) ∉ names -> tmp_name (c_uuid (p_call p)) ∉ names ->
  proc_ok basedir fs p -> proc_ok basedir fs' p.
Proof.
  intros Hw Hid Htmp. apply proc_ok_frame.
  - intros x Hx. exact (within_under basedir names fs fs' _ x Hw Hid Hx).
  - exact (within_under basedir names fs fs' _ _ Hw Htmp (under_tmp basedir _)).
  - intros Hb. now rewrite (within_base basedir names fs fs' Hw).
  - exact (within_dirs_fine basedir names fs fs' Hw).
Qed.

Lemma written_within names fs fs' id text :
  within basedir names fs fs' -> id ∉ names ->
  written basedir fs id text -> written basedir fs' id text.
Proof.
  intros Hw Hid. apply written_frame. intros x Hx.
  exact (within_under basedir names fs fs' _ x Hw Hid Hx).
Qed.

Lemma current_within names fs fs' :
  within basedir names fs fs' -> "current" ∉ names ->
  fs' !! current basedir = fs !! current basedir.
Proof.
  intros Hw Hc. exact (within_under basedir names fs fs' _ _ Hw Hc (under_current basedir)).
Qed.

(** ** [os.makedirs] only adds directories on the way to its argument *)

Lemma makedirs_from_adds (rest : list string) :
  forall (pre : path) fs fs' r,
    makedirs_from pre rest fs = (fs', r) ->
    forall q, fs' !! q = fs !! q
              \/ (fs !! q = None /\ fs' !! q = Some Dir /\ q `prefix_of` pre ++ rest).
Proof.
  induction rest as [|name more IH]; intros pre fs fs' r H q.
  - injection H as <- <-. now left.
  - simpl in H. destruct more as [|name' more'].
    + destruct (os_mkdir fs (pre ++ [name])) as [e|fs1] eqn:Em.
      * injection H as <- <-. now left.
      * injection H as <- <-. apply os_mkdir_inr in Em as [Hfree ->].
        destruct (decide (q = pre ++ [name])) as [->|Hne].
        -- right. rewrite lookup_insert_eq. auto.
        -- left. now rewrite lookup_insert_ne.
    + assert (Hpre : forall x, x `prefix_of` (pre ++ [name]) ++ name' :: more' ->
                               x `prefix_of` pre ++ name :: name' :: more').
      { intros x. now rewrite <- app_assoc. }
      destruct (fs !! (pre ++ [name])) as [n|] eqn:El.
      * destruct (IH _ _ _ _ H q) as [Heq|(Hn & Hd & Hp)]; [now left|right; auto].
      * destruct (os_mkdir fs (pre ++ [name])) as [e|fs1] eqn:Em.
        -- injection H as <- <-. now left.
        -- apply os_mkdir_inr in Em as [Hfree ->].
           destruct (IH _ _ _ _ H q) as [Heq|(Hn & Hd & Hp)].
           ++ destruct (decide (q = pre ++ [name])) as [->|Hne].
              ** right. rewrite Heq, lookup_insert_eq. repeat split; auto.
                 exists (name' :: more'). now rewrite <- app_assoc.
              ** left. now rewrite Heq, lookup_insert_ne.
           ++ right. repeat split; auto.
              destruct (decide (q = pre ++ [name])) as [->|Hne].
              ** exact El.
              ** now rewrite lookup_insert_ne in Hn.
Qed.

Lemma makedirs_from_succeeds (rest : list string) :
  forall (pre : path) fs,
    rest <> [] -> is_dir fs pre = true ->
    (forall q, q `prefix_of` pre ++ rest -> (length pre < length q)%nat ->
               fs !! q = None \/ fs !! q = Some Dir) ->
    exists fs' r, makedirs_from pre rest fs = (fs', r)
                  /\ (r = None \/ r = Some EEXIST)
                  /\ fs' !! (pre ++ rest) = Some Dir.
Proof.
  induction rest as [|name more IH]; intros pre fs Hne Hpre Hfine; [congruence|].
  assert (Hhere : fs !! (pre ++ [name]) = None \/ fs !! (pre ++ [name]) = Some Dir).
  { apply Hfine.
    - exists more. now rewrite <- app_assoc.
    - rewrite length_app. simpl. lia. }
  assert (Hsnoc : pre ++ [name] <> []) by (now destruct pre).
  simpl. destruct more as [|name' more'].
  - destruct Hhere as [Hn|Hd].
    + rewrite (os_mkdir_free fs _ Hsnoc Hn) by (now rewrite parent_snoc).
      eexists _, _. split; [reflexivity|]. split; [now left|]. apply lookup_insert_eq.
    + unfold os_mkdir. rewrite Hd. destruct (pre ++ [name]) eqn:E; [congruence|].
      eexists _, _. split; [reflexivity|]. split; [now right|]. exact Hd.
  - assert (Hstep : forall fs1, is_dir fs1 (pre ++ [name]) = true ->
              (forall q, q <> pre ++ [name] -> fs1 !! q = fs !! q) ->
              exists fs' r, makedirs_from (pre ++ [name]) (name' :: more') fs1 = (fs', r)
                            /\ (r = None \/ r = Some EEXIST)
                            /\ fs' !! (pre ++ name :: name' :: more') = Some Dir).
    { intros fs1 Hd1 Hsame.
      destruct (IH (pre ++ [name]) fs1) as (fs' & r & Hm & Hr & Hl); [discriminate|exact Hd1| |].
      - intros q Hq Hlen. rewrite Hsame.
        + apply Hfine; [now rewrite <- app_assoc in Hq|].
          rewrite length_app in Hlen. simpl in Hlen. lia.
        + intros ->. lia.
      - exists fs', r. split; [exact Hm|]. split; [exact Hr|].
        now rewrite <- app_assoc in Hl. }
    destruct Hhere as [Hn|Hd].
    + rewrite Hn, (os_mkdir_free fs _ Hsnoc Hn) by (now rewrite parent_snoc).
      apply Hstep.
      * apply is_dir_true, lookup_insert_eq.
      * intros q Hq. now apply lookup_insert_ne.
    + rewrite Hd. apply Hstep; [now apply is_dir_true | reflexivity].
Qed.

(** The tree has grown by directories on the way to [basedir] only. *)
Lemma grown_frame fs fs' :
  (forall q, fs' !! q = fs !! q
             \/ (fs !! q = None /\ fs' !! q = Some Dir /\ q `prefix_of` basedir)) ->
  (forall a x, under basedir a x -> fs' !! x = fs !! x)
  /\ (fs !! basedir = Some Dir -> fs' !! basedir = Some Dir)
  /\ (dirs_fine fs basedir -> dirs_fine fs' basedir).
Proof.
  intros H. split; [|split].
  - intros a x Hx. destruct (H x) as [Heq|(_ & _ & Hp)]; [exact Heq|].
    now destruct (not_under_prefix basedir a x Hp).
  - intros Hb. destruct (H basedir) as [Heq|(Hn & _)]; congruence.
  - intros Hd q Hq Hne. destruct (H q) as [Heq|(_ & Hdir & _)]; [|now right].
    rewrite Heq. now apply Hd.
Qed.

End FrameFacts.

(* ===================================================================== *)
(** * Theorems: one call keeps the invariant *)
(* ===================================================================== *)

Section UpdateFacts.

Context {B : Builtins} (basedir : path).

Implicit Types (fs : FS) (id : string) (p q : proc) (s : system).

Lemma lookup_update (l : list proc) (i j : nat) p' q :
  <[i := p']> l !! j = Some q ->
  (j = i /\ q = p') \/ (j <> i /\ l !! j = Some q).
Proof.
  intros H. apply list_lookup_insert_Some in H as [(-> & -> & _)|(Hne & H)]; auto.
Qed.

Lemma pending_not_renamed l : pending l = true -> renamed l = false.
Proof. now destruct l. Qed.

Lemma renamed_not_pending l : renamed l = true -> pending l = false.
Proof. now destruct l. Qed.

Lemma rmtree_noop fs (x : path) : fs !! x <> Some Dir -> shutil_rmtree fs x = fs.
Proof. unfold shutil_rmtree. destruct (fs !! x) as [[| |]|]; congruence. Qed.

Lemma written_insert_fresh fs (k : path) n id text :
  fs !! k = None -> written basedir fs id text -> written basedir (<[k := n]> fs) id text.
Proof.
  intros Hk [Hd Hf]. split.
  - rewrite lookup_insert_ne; [exact Hd | congruence].
  - intros f. rewrite lookup_insert_ne; [apply Hf | intros ->; rewrite Hf in Hk; discriminate].
Qed.

(** The identifiers do not change. *)
Lemma uuids_update s i p p' fs' :
  uuids_inv s -> procs s !! i = Some p -> p_call p' = p_call p ->
  uuids_inv {| tree := fs'; procs := <[i := p']> (procs s) |}.
Proof.
  intros [Hlen Huniq] Hp Hcall. split; simpl.
  - intros j q Hq. apply lookup_update in Hq as [(-> & ->)|(Hne & Hq)].
    + rewrite Hcall. now apply (Hlen i).
    + now apply (Hlen j).
  - intros j k q r Hq Hr Heq.
    apply lookup_update in Hq as [(-> & ->)|(Hne & Hq)];
      apply lookup_update in Hr as [(-> & ->)|(Hne' & Hr)]; try reflexivity.
    + rewrite Hcall in Heq. exact (Huniq _ _ _ _ Hp Hr Heq).
    + rewrite Hcall in Heq. exact (Huniq _ _ _ _ Hq Hp Heq).
    + exact (Huniq _ _ _ _ Hq Hr Heq).
Qed.

(** A pending process moves on without renaming: [current] and the
    entry it leads to are as before. *)
Lemma current_update_pending s i p p' fs' :
  current_inv basedir s -> procs s !! i = Some p ->
  p_call p' = p_call p ->
  renamed (p_pc p) = false -> renamed (p_pc p') = false ->
  fs' !! current basedir = tree s !! current basedir ->
  (forall target text,
     tree s !! current basedir = Some (Symlink target) ->
     c_uuid (p_call p) <> target ->
     written basedir (tree s) target text -> written basedir fs' target text) ->
  uuids_inv s ->
  current_inv basedir {| tree := fs'; procs := <[i := p']> (procs s) |}.
Proof.
  intros Hcur Hp Hcall Hr Hr' Hsame Hw [_ Huniq].
  destruct Hcur as [[Hnone Hall]|(target & text & Hlink & Hwr & Horigin)].
  - left. simpl. split; [congruence|]. intros j q Hq.
    apply lookup_update in Hq as [(-> & ->)|(Hne & Hq)]; [exact Hr'|eauto].
  - right. exists target, text. simpl. split; [congruence|].
    assert (Hdiff : c_uuid (p_call p) <> target).
    { destruct Horigin as [Hinit|(k & r & Hk & Hkr & Hku & _)].
      - now apply (Hinit i p).
      - intros Heq. assert (i = k) by (apply (Huniq i k p r); congruence).
        subst k. congruence. }
    split; [now apply Hw|].
    destruct Horigin as [Hinit|(k & r & Hk & Hkr & Hku & Hkt)].
    + left. intros j q Hq.
      apply lookup_update in Hq as [(-> & ->)|(Hne & Hq)].
      * rewrite Hcall. split; [exact Hdiff | exact Hr'].
      * now apply (Hinit j).
    + right. exists k, r. repeat split; auto.
      rewrite list_lookup_insert_ne; [exact Hk|]. intros ->. congruence.
Qed.

(** The same for the [old_canonical]s, none of which changes. *)
Lemma old_update_pending s i p p' fs' :
  old_inv basedir s -> procs s !! i = Some p ->
  p_call p' = p_call p -> p_old p' = p_old p ->
  pending (p_pc p) = true -> renamed (p_pc p') = false ->
  fs' !! current basedir = tree s !! current basedir ->
  old_inv basedir {| tree := fs'; procs := <[i := p']> (procs s) |}.
Proof.
  intros Hold Hp Hcall Hsame Hpend Hr' Hcur j q old Hq Ho. simpl in *.
  assert (Hprev : exists q0, procs s !! j = Some q0 /\ p_old q0 = Some old
                             /\ (renamed (p_pc q) = true -> renamed (p_pc q0) = true)).
  { apply lookup_update in Hq as [(-> & ->)|(Hne & Hq)].
    - exists p. repeat split; [exact Hp | congruence | congruence].
    - exists q. auto. }
  destruct Hprev as (q0 & Hq0 & Ho0 & Hren).
  destruct (Hold j q0 old Hq0 Ho0) as (y & -> & Hpy & Hcy).
  exists y. split; [reflexivity|]. split.
  - intros k r Hr Hrp. apply lookup_update in Hr as [(-> & ->)|(Hne & Hr)].
    + rewrite Hcall. now apply (Hpy i p).
    + now apply (Hpy k r).
  - intros Hrq. rewrite Hcur. auto.
Qed.

Lemma inv_assemble s i p p' fs' :
  inv basedir s -> procs s !! i = Some p -> p_call p' = p_call p ->
  proc_ok basedir fs' p' ->
  (forall j q, j <> i -> procs s !! j = Some q -> proc_ok basedir fs' q) ->
  current_inv basedir {| tree := fs'; procs := <[i := p']> (procs s) |} ->
  old_inv basedir {| tree := fs'; procs := <[i := p']> (procs s) |} ->
  inv basedir {| tree := fs'; procs := <[i := p']> (procs s) |}.
Proof.
  intros (Hbase & Hu & Hok & Hcur & Hold) Hp Hcall Hown Hothers Hcur' Hold'.
  split; [exact Hbase|]. split; [now apply (uuids_update s i p)|].
  split; [|split; assumption]. simpl. intros j q Hq.
  apply lookup_update in Hq as [(-> & ->)|(Hne & Hq)]; eauto.
Qed.

(** For another process, the names of this one are not its own. *)
Lemma other_names s i j p q :
  uuids_inv s -> procs s !! i = Some p -> procs s !! j = Some q -> j <> i ->
  let a := c_uuid (p_call p) in
  let b := c_uuid (p_call q) in
  b <> a /\ tmp_name b <> a /\ b <> tmp_name a /\ tmp_name b <> tmp_name a
  /\ b <> "current" /\ tmp_name b <> "current".
Proof.
  intros [Hlen Huniq] Hp Hq Hne a b.
  pose proof (Hlen i p Hp) as Ha. pose proof (Hlen j q Hq) as Hb.
  assert (b <> a) by (intros Heq; apply Hne; exact (Huniq j i q p Hq Hp Heq)).
  split; [assumption|]. split; [apply not_eq_sym; now apply uuid_not_tmp|].
  split; [now apply uuid_not_tmp|].
  split; [intros Heq; now apply tmp_name_inj in Heq|].
  split; [now apply uuid_not_current | apply tmp_name_not_current].
Qed.

End UpdateFacts.

Section StepComputes.

Context {B : Builtins} (basedir : path).

Implicit Types (fs : FS) (id : string) (p q : proc) (s : system).

Lemma snoc_not_nil (l r : list string) (a : string) : l ++ a :: r <> [].
Proof. now destruct l. Qed.

Lemma step_unfold i s :
  step basedir i s
  = match procs s !! i with
    | Some p => {| tree := snd (proc_step basedir p (tree s));
                   procs := <[i := fst (proc_step basedir p (tree s))]> (procs s) |}
    | None => s
    end.
Proof.
  unfold step. destruct (procs s !! i) as [p|]; [|reflexivity].
  now destruct (proc_step basedir p (tree s)).
Qed.

Lemma ps_makedirs p fs :
  p_pc p = PMakedirs -> basedir <> [] -> dirs_fine fs basedir ->
  exists fs',
    proc_step basedir p fs = (at_pc p PMkdir, fs')
    /\ fs' !! basedir = Some Dir
    /\ (forall x : path, fs' !! x = fs !! x
                  \/ (fs !! x = None /\ fs' !! x = Some Dir /\ x `prefix_of` basedir)).
Proof.
  intros Hpc Hne Hfine.
  destruct (makedirs_from_succeeds basedir [] fs Hne eq_refl) as (fs' & r & Hm & Hr & Hd).
  { intros q Hq Hlen. apply Hfine; [exact Hq|]. intros ->. simpl in Hlen. lia. }
  exists fs'. split; [|split; [exact Hd|]].
  - unfold proc_step, os_makedirs. rewrite Hpc, Hm. now destruct Hr as [-> | ->].
  - exact (makedirs_from_adds basedir [] fs fs' r Hm).
Qed.

Lemma ps_mkdir p fs :
  p_pc p = PMkdir -> fs !! basedir = Some Dir ->
  fs !! entry basedir (c_uuid (p_call p)) = None ->
  proc_step basedir p fs
  = (at_pc p (POpen Ft), <[entry basedir (c_uuid (p_call p)) := Dir]> fs).
Proof.
  intros Hpc Hb Hfree. unfold proc_step. rewrite Hpc.
  rewrite os_mkdir_free; [reflexivity | apply snoc_not_nil | exact Hfree |].
  unfold entry. rewrite parent_snoc. now apply is_dir_true.
Qed.

Lemma ps_open p fs f :
  p_pc p = POpen f -> fs !! entry basedir (c_uuid (p_call p)) = Some Dir ->
  fs !! entry_file basedir (c_uuid (p_call p)) f = None ->
  proc_step basedir p fs
  = (at_pc p (PWrite f), <[entry_file basedir (c_uuid (p_call p)) f := File ""]> fs).
Proof.
  intros Hpc Hd Hfree. unfold proc_step. rewrite Hpc.
  rewrite open_w_free; [reflexivity | apply snoc_not_nil | exact Hfree |].
  unfold entry_file. rewrite parent_snoc2. now apply is_dir_true.
Qed.

Lemma ps_write p fs f text :
  p_pc p = PWrite f ->
  fs !! entry_file basedir (c_uuid (p_call p)) f = Some (File text) ->
  proc_step basedir p fs
  = (at_pc p (match next_field f with Some g => POpen g | None => PSymlink end),
     <[entry_file basedir (c_uuid (p_call p)) f := File (field_text (p_call p) f)]> fs).
Proof.
  intros Hpc Hf. unfold proc_step. rewrite Hpc.
  now rewrite (write_handle_file fs _ text).
Qed.

Lemma ps_symlink p fs :
  p_pc p = PSymlink -> fs !! basedir = Some Dir ->
  fs !! tmp_link basedir (c_uuid (p_call p)) = None ->
  proc_step basedir p fs
  = (at_pc p PReadlink,
     <[tmp_link basedir (c_uuid (p_call p)) := Symlink (c_uuid (p_call p))]> fs).
Proof.
  intros Hpc Hb Hfree. unfold proc_step. rewrite Hpc.
  rewrite os_symlink_free; [reflexivity | apply snoc_not_nil | exact Hfree |].
  unfold tmp_link. rewrite parent_snoc. now apply is_dir_true.
Qed.

Lemma ps_readlink_some p fs target :
  p_pc p = PReadlink -> fs !! current basedir = Some (Symlink target) ->
  proc_step basedir p fs
  = ({| p_call := p_call p; p_pc := PRename; p_old := Some (basedir ++ [target]) |}, fs).
Proof.
  intros Hpc Hc. unfold proc_step. rewrite Hpc.
  now rewrite (proj2 (os_readlink_inr fs (current basedir) target) Hc).
Qed.

Lemma ps_readlink_none p fs :
  p_pc p = PReadlink -> fs !! basedir = Some Dir -> fs !! current basedir = None ->
  proc_step basedir p fs
  = ({| p_call := p_call p; p_pc := PRename; p_old := None |}, fs).
Proof.
  intros Hpc Hb Hc. unfold proc_step. rewrite Hpc.
  rewrite os_readlink_free; [reflexivity | exact Hc |].
  unfold current. rewrite parent_snoc. now apply is_dir_true.
Qed.

Lemma ps_rename p fs :
  p_pc p = PRename -> fs !! basedir = Some Dir ->
  fs !! tmp_link basedir (c_uuid (p_call p)) = Some (Symlink (c_uuid (p_call p))) ->
  fs !! current basedir <> Some Dir ->
  proc_step basedir p fs
  = (at_pc p PRmtree,
     <[current basedir := Symlink (c_uuid (p_call p))]>
       (delete (tmp_link basedir (c_uuid (p_call p))) fs)).
Proof.
  intros Hpc Hb Ht Hc. unfold proc_step. rewrite Hpc.
  rewrite (os_rename_link fs _ _ (c_uuid (p_call p))); auto.
  - apply snoc_not_nil.
  - unfold current. rewrite parent_snoc. now apply is_dir_true.
Qed.

End StepComputes.

Section StepKeeps.

Context {B : Builtins} (basedir : path).

Implicit Types (fs : FS) (id : string) (p q : proc) (s : system).

Ltac not_in :=
  repeat (apply not_elem_of_cons; split; [solve [auto] |]); apply not_elem_of_nil.

Ltac is_in :=
  solve [repeat first [apply list_elem_of_here | apply list_elem_of_further]].

(** The names of a process are not each other, nor [current]. *)
Lemma own_names s i p :
  uuids_inv s -> procs s !! i = Some p ->
  let a := c_uuid (p_call p) in
  a <> tmp_name a /\ tmp_name a <> a /\ a <> "current" /\ tmp_name a <> "current"
  /\ "current" <> a /\ "current" <> tmp_name a.
Proof.
  intros [Hlen _] Hp a. pose proof (Hlen i p Hp) as Ha.
  assert (a <> tmp_name a) by (now apply uuid_not_tmp).
  assert (a <> "current") by (now apply uuid_not_current).
  pose proof (tmp_name_not_current a). repeat split; auto.
Qed.

(** A change within the names of one process leaves the others alone. *)
Lemma others_within s i p names fs' :
  inv basedir s -> procs s !! i = Some p ->
  within basedir names (tree s) fs' ->
  (forall a, a ∈ names ->
     a = c_uuid (p_call p) \/ a = tmp_name (c_uuid (p_call p)) \/ a = "current") ->
  forall j q, j <> i -> procs s !! j = Some q -> proc_ok basedir fs' q.
Proof.
  intros (Hbase & Hu & Hok & Hcur & Hold) Hp Hw Hnames j q Hne Hq.
  destruct (other_names s i j p q Hu Hp Hq Hne) as (H1 & H2 & H3 & H4 & H5 & H6).
  apply (proc_ok_within basedir names (tree s)); eauto.
  - intros Hin. destruct (Hnames _ Hin) as [Ha|[Ha|Ha]]; congruence.
  - intros Hin. destruct (Hnames _ Hin) as [Ha|[Ha|Ha]]; congruence.
Qed.

Lemma keeps_makedirs s i p :
  inv basedir s -> procs s !! i = Some p -> p_pc p = PMakedirs ->
  inv basedir (step basedir i s).
Proof.
  intros Hinv Hp Hpc. pose proof Hinv as (Hbase & Hu & Hok & Hcur & Hold).
  pose proof (Hok i p Hp) as Hpok. unfold proc_ok in Hpok. rewrite Hpc in Hpok.
  destruct Hpok as (Hdirs & Hfree & Htmp).
  destruct (ps_makedirs basedir p (tree s) Hpc Hbase Hdirs) as (fs' & Hstep & Hd & Hgrow).
  destruct (grown_frame basedir _ _ Hgrow) as (Hunder & Hb' & Hdf).
  rewrite step_unfold, Hp, Hstep. simpl.
  apply (inv_assemble basedir s i p); auto.
  - unfold proc_ok. simpl. split; [exact Hd|]. split.
    + intros x Hx. rewrite (Hunder (c_uuid (p_call p)) x).
      * now apply Hfree.
      * now apply prefix_entry_under.
    + rewrite (Hunder _ _ (under_tmp basedir _)). exact Htmp.
  - intros j q Hne Hq. apply (proc_ok_frame basedir (tree s)); eauto.
    exact (Hunder _ _ (under_tmp basedir _)).
  - apply (current_update_pending basedir s i p); auto.
    + now rewrite Hpc.
    + exact (Hunder _ _ (under_current basedir)).
    + intros target text _ _. apply written_frame. intros x Hx. exact (Hunder _ _ Hx).
  - apply (old_update_pending basedir s i p); auto.
    + now rewrite Hpc.
    + exact (Hunder _ _ (under_current basedir)).
Qed.

Lemma keeps_mkdir s i p :
  inv basedir s -> procs s !! i = Some p -> p_pc p = PMkdir ->
  inv basedir (step basedir i s).
Proof.
  intros Hinv Hp Hpc. pose proof Hinv as (Hbase & Hu & Hok & Hcur & Hold).
  pose proof (Hok i p Hp) as Hpok. unfold proc_ok in Hpok. rewrite Hpc in Hpok.
  destruct Hpok as (Hb & Hfree & Htmp).
  destruct (own_names s i p Hu Hp) as (N1 & N2 & N3 & N4 & N5 & N6).
  assert (Hnone : tree s !! entry basedir (c_uuid (p_call p)) = None) by (now apply Hfree).
  rewrite step_unfold, Hp, (ps_mkdir basedir p (tree s) Hpc Hb Hnone). simpl.
  assert (Hw : within basedir [c_uuid (p_call p)] (tree s)
                 (<[entry basedir (c_uuid (p_call p)) := Dir]> (tree s))).
  { apply (within_insert basedir _ _ (c_uuid (p_call p))); [is_in | apply under_entry]. }
  apply (inv_assemble basedir s i p); auto.
  - unfold proc_ok. simpl.
    split; [now rewrite (within_base basedir _ _ _ Hw)|].
    split; [apply lookup_insert_eq|]. split.
    + intros g. split; [simpl; lia|]. intros _.
      rewrite lookup_insert_ne by apply entry_not_file.
      apply Hfree, prefix_entry_under, under_entry_file.
    + rewrite (within_under basedir _ _ _ (tmp_name (c_uuid (p_call p))) _ Hw
                 ltac:(not_in) (under_tmp basedir _)).
      exact Htmp.
  - apply (others_within s i p [c_uuid (p_call p)]); auto.
    intros a Ha. apply list_elem_of_singleton in Ha. auto.
  - apply (current_update_pending basedir s i p); auto.
    + now rewrite Hpc.
    + apply (current_within basedir _ _ _ Hw). not_in.
    + intros target text _ Hdiff. apply (written_within basedir _ _ _ _ _ Hw). not_in.
  - apply (old_update_pending basedir s i p); auto.
    + now rewrite Hpc.
    + apply (current_within basedir _ _ _ Hw). not_in.
Qed.

Ltac file_lookup :=
  first [ rewrite lookup_insert_eq
        | rewrite lookup_insert_ne
            by (let E := fresh "E" in intros E; apply entry_file_inj in E; discriminate E) ].

Lemma keeps_open s i p f :
  inv basedir s -> procs s !! i = Some p -> p_pc p = POpen f ->
  inv basedir (step basedir i s).
Proof.
  intros Hinv Hp Hpc. pose proof Hinv as (Hbase & Hu & Hok & Hcur & Hold).
  pose proof (Hok i p Hp) as Hpok. unfold proc_ok in Hpok. rewrite Hpc in Hpok.
  destruct Hpok as (Hb & Hd & Hupto & Htmp).
  destruct (own_names s i p Hu Hp) as (N1 & N2 & N3 & N4 & N5 & N6).
  assert (Hnone : tree s !! entry_file basedir (c_uuid (p_call p)) f = None).
  { now apply (Hupto f). }
  rewrite step_unfold, Hp, (ps_open basedir p (tree s) f Hpc Hd Hnone). simpl.
  assert (Hw : within basedir [c_uuid (p_call p)] (tree s)
                 (<[entry_file basedir (c_uuid (p_call p)) f := File ""]> (tree s))).
  { apply (within_insert basedir _ _ (c_uuid (p_call p))); [is_in | apply under_entry_file]. }
  apply (inv_assemble basedir s i p); auto.
  - unfold proc_ok. simpl.
    split; [now rewrite (within_base basedir _ _ _ Hw)|].
    split; [rewrite lookup_insert_ne by (apply not_eq_sym, entry_not_file); exact Hd|].
    split.
    + intros g. split; [|split].
      * intros Hlt. rewrite lookup_insert_ne; [now apply (Hupto g)|].
        intros E. apply entry_file_inj in E. subst g. lia.
      * intros ->. apply lookup_insert_eq.
      * intros Hlt. rewrite lookup_insert_ne; [apply (Hupto g); lia|].
        intros E. apply entry_file_inj in E. subst g. lia.
    + rewrite (within_under basedir _ _ _ (tmp_name (c_uuid (p_call p))) _ Hw
                 ltac:(not_in) (under_tmp basedir _)).
      exact Htmp.
  - apply (others_within s i p [c_uuid (p_call p)]); auto.
    intros a Ha. apply list_elem_of_singleton in Ha. auto.
  - apply (current_update_pending basedir s i p); auto.
    + now rewrite Hpc.
    + apply (current_within basedir _ _ _ Hw). not_in.
    + intros target text _ Hdiff. apply (written_within basedir _ _ _ _ _ Hw). not_in.
  - apply (old_update_pending basedir s i p); auto.
    + now rewrite Hpc.
    + apply (current_within basedir _ _ _ Hw). not_in.
Qed.

Lemma keeps_write s i p f :
  inv basedir s -> procs s !! i = Some p -> p_pc p = PWrite f ->
  inv basedir (step basedir i s).
Proof.
  intros Hinv Hp Hpc. pose proof Hinv as (Hbase & Hu & Hok & Hcur & Hold).
  pose proof (Hok i p Hp) as Hpok. unfold proc_ok in Hpok. rewrite Hpc in Hpok.
  destruct Hpok as (Hb & Hd & Hopen & Htmp).
  destruct (own_names s i p Hu Hp) as (N1 & N2 & N3 & N4 & N5 & N6).
  assert (Hthere : tree s !! entry_file basedir (c_uuid (p_call p)) f = Some (File "")).
  { now apply (Hopen f). }
  rewrite step_unfold, Hp, (ps_write basedir p (tree s) f "" Hpc Hthere). simpl.
  assert (Hw : within basedir [c_uuid (p_call p)] (tree s)
                 (<[entry_file basedir (c_uuid (p_call p)) f
                    := File (field_text (p_call p) f)]> (tree s))).
  { apply (within_insert basedir _ _ (c_uuid (p_call p))); [is_in | apply under_entry_file]. }
  assert (Hbefore : forall g, (field_index g < field_index f)%nat ->
            tree s !! entry_file basedir (c_uuid (p_call p)) g
            = Some (File (field_text (p_call p) g))) by (intros g; apply (Hopen g)).
  assert (Hafter : forall g, (field_index f < field_index g)%nat ->
            tree s !! entry_file basedir (c_uuid (p_call p)) g = None)
    by (intros g; apply (Hopen g)).
  apply (inv_assemble basedir s i p); auto.
  - assert (Hb' : <[entry_file basedir (c_uuid (p_call p)) f
                    := File (field_text (p_call p) f)]> (tree s) !! basedir = Some Dir).
    { now rewrite (within_base basedir _ _ _ Hw). }
    assert (Hd' : <[entry_file basedir (c_uuid (p_call p)) f
                    := File (field_text (p_call p) f)]> (tree s)
                  !! entry basedir (c_uuid (p_call p)) = Some Dir).
    { rewrite lookup_insert_ne by (apply not_eq_sym, entry_not_file). exact Hd. }
    assert (Ht' : <[entry_file basedir (c_uuid (p_call p)) f
                    := File (field_text (p_call p) f)]> (tree s)
                  !! tmp_link basedir (c_uuid (p_call p)) = None).
    { rewrite (within_under basedir _ _ _ (tmp_name (c_uuid (p_call p))) _ Hw
                 ltac:(not_in) (under_tmp basedir _)).
      exact Htmp. }
    unfold proc_ok.
    destruct f; simpl; (split; [exact Hb'|]);
      first [ split; [exact Hd'|]; split; [|exact Ht'];
              intros g; split; intros Hg; destruct g; simpl in Hg; try lia;
              file_lookup; first [reflexivity | apply Hbefore; simpl; lia
                                 | apply Hafter; simpl; lia]
            | split; [|exact Ht']; split; [exact Hd'|];
              intros g; destruct g; file_lookup;
              first [reflexivity | apply Hbefore; simpl; lia] ].
  - apply (others_within s i p [c_uuid (p_call p)]); auto.
    intros a Ha. apply list_elem_of_singleton in Ha. auto.
  - apply (current_update_pending basedir s i p); auto.
    + now rewrite Hpc.
    + now destruct f.
    + apply (current_within basedir _ _ _ Hw). not_in.
    + intros target text _ Hdiff. apply (written_within basedir _ _ _ _ _ Hw). not_in.
  - apply (old_update_pending basedir s i p); auto.
    + now rewrite Hpc.
    + now destruct f.
    + apply (current_within basedir _ _ _ Hw). not_in.
Qed.

Lemma keeps_symlink s i p :
  inv basedir s -> procs s !! i = Some p -> p_pc p = PSymlink ->
  inv basedir (step basedir i s).
Proof.
  intros Hinv Hp Hpc. pose proof Hinv as (Hbase & Hu & Hok & Hcur & Hold).
  pose proof (Hok i p Hp) as Hpok. unfold proc_ok in Hpok. rewrite Hpc in Hpok.
  destruct Hpok as (Hb & Hwr & Htmp).
  destruct (own_names s i p Hu Hp) as (N1 & N2 & N3 & N4 & N5 & N6).
  rewrite step_unfold, Hp, (ps_symlink basedir p (tree s) Hpc Hb Htmp). simpl.
  assert (Hw : within basedir [tmp_name (c_uuid (p_call p))] (tree s)
                 (<[tmp_link basedir (c_uuid (p_call p))
                    := Symlink (c_uuid (p_call p))]> (tree s))).
  { apply (within_insert basedir _ _ (tmp_name (c_uuid (p_call p))));
      [is_in | apply under_tmp]. }
  apply (inv_assemble basedir s i p); auto.
  - unfold proc_ok. simpl.
    split; [now rewrite (within_base basedir _ _ _ Hw)|].
    split; [|apply lookup_insert_eq].
    apply (written_within basedir _ _ _ _ _ Hw); [not_in | exact Hwr].
  - apply (others_within s i p [tmp_name (c_uuid (p_call p))]); auto.
    intros a Ha. apply list_elem_of_singleton in Ha. auto.
  - apply (current_update_pending basedir s i p); auto.
    + now rewrite Hpc.
    + apply (current_within basedir _ _ _ Hw). not_in.
    + intros target text _ _. now apply written_insert_fresh.
  - apply (old_update_pending basedir s i p); auto.
    + now rewrite Hpc.
    + apply (current_within basedir _ _ _ Hw). not_in.
Qed.

(** A target read from [current] is the entry of no pending process. *)
Lemma current_not_pending s target :
  uuids_inv s -> current_inv basedir s ->
  tree s !! current basedir = Some (Symlink target) ->
  forall j q, procs s !! j = Some q -> pending (p_pc q) = true ->
              c_uuid (p_call q) <> target.
Proof.
  intros [_ Huniq] Hcur Hlink j q Hq Hpend.
  destruct Hcur as [[Hnone _]|(t & text & Hl & _ & Horigin)]; [congruence|].
  assert (t = target) by congruence. subst t.
  destruct Horigin as [Hinit|(k & r & Hk & Hkr & Hku & _)].
  - now apply (Hinit j q).
  - intros Heq. assert (j = k) by (apply (Huniq j k q r); congruence).
    subst k. assert (q = r) by congruence. subst r.
    apply renamed_not_pending in Hkr. congruence.
Qed.

Lemma keeps_readlink s i p :
  inv basedir s -> procs s !! i = Some p -> p_pc p = PReadlink ->
  inv basedir (step basedir i s).
Proof.
  intros Hinv Hp Hpc. pose proof Hinv as (Hbase & Hu & Hok & Hcur & Hold).
  pose proof (Hok i p Hp) as Hpok. unfold proc_ok in Hpok. rewrite Hpc in Hpok.
  destruct Hpok as (Hb & Hwr & Htmp).
  assert (Hstep : exists o,
            proc_step basedir p (tree s)
            = ({| p_call := p_call p; p_pc := PRename; p_old := o |}, tree s)
            /\ forall old, o = Some old ->
                 exists target, old = basedir ++ [target]
                   /\ tree s !! current basedir = Some (Symlink target)).
  { destruct (tree s !! current basedir) as [[| |target]|] eqn:Hlink.
    - destruct Hcur as [[Hn _]|(t & text & Hl & _)]; congruence.
    - destruct Hcur as [[Hn _]|(t & text & Hl & _)]; congruence.
    - exists (Some (basedir ++ [target])).
      split; [now apply ps_readlink_some|]. intros old [= <-]. eauto.
    - exists None. split; [now apply ps_readlink_none|]. intros old Ho. discriminate Ho. }
  destruct Hstep as (o & Hstep & Ho).
  rewrite step_unfold, Hp, Hstep. simpl.
  apply (inv_assemble basedir s i p); auto.
  - unfold proc_ok. simpl. auto.
  - intros j q _ Hq. now apply (Hok j q).
  - apply (current_update_pending basedir s i p); auto. now rewrite Hpc.
  - intros j q old Hq Hqo. simpl in *.
    apply lookup_update in Hq as [(-> & ->)|(Hne & Hq)].
    + simpl in Hqo. destruct (Ho old Hqo) as (target & -> & Hlink).
      exists target. split; [reflexivity|]. split; [|simpl; discriminate].
      intros k r Hr Hrp. apply lookup_update in Hr as [(-> & ->)|(Hne & Hr)].
      * simpl. apply (current_not_pending s target Hu Hcur Hlink i p Hp). now rewrite Hpc.
      * now apply (current_not_pending s target Hu Hcur Hlink k r).
    + destruct (Hold j q old Hq Hqo) as (y & -> & Hpy & Hcy).
      exists y. split; [reflexivity|]. split; [|exact Hcy].
      intros k r Hr Hrp. apply lookup_update in Hr as [(-> & ->)|(Hne' & Hr)].
      * simpl. apply (Hpy i p Hp). now rewrite Hpc.
      * now apply (Hpy k r).
Qed.

Lemma keeps_rename s i p :
  inv basedir s -> procs s !! i = Some p -> p_pc p = PRename ->
  inv basedir (step basedir i s).
Proof.
  intros Hinv Hp Hpc. pose proof Hinv as (Hbase & Hu & Hok & Hcur & Hold).
  pose proof (Hok i p Hp) as Hpok. unfold proc_ok in Hpok. rewrite Hpc in Hpok.
  destruct Hpok as (Hb & Hwr & Htmp).
  destruct (own_names s i p Hu Hp) as (N1 & N2 & N3 & N4 & N5 & N6).
  assert (Hnd : tree s !! current basedir <> Some Dir).
  { destruct Hcur as [[Hn _]|(t & text & Hl & _)]; congruence. }
  rewrite step_unfold, Hp, (ps_rename basedir p (tree s) Hpc Hb Htmp Hnd). simpl.
  set (id := c_uuid (p_call p)) in *.
  set (fs' := <[current basedir := Symlink id]> (delete (tmp_link basedir id) (tree s))).
  assert (Hw : within basedir [tmp_name id; "current"] (tree s) fs').
  { apply (within_trans basedir _ _ (delete (tmp_link basedir id) (tree s))).
    - apply (within_delete basedir _ _ (tmp_name id)); [is_in | apply under_tmp].
    - apply (within_insert basedir _ _ "current"); [is_in | apply under_current]. }
  assert (Hlink : fs' !! current basedir = Some (Symlink id)) by apply lookup_insert_eq.
  assert (Hpend : pending (p_pc p) = true) by (now rewrite Hpc).
  apply (inv_assemble basedir s i p); auto.
  - unfold proc_ok. simpl. now rewrite (within_base basedir _ _ _ Hw).
  - apply (others_within s i p [tmp_name id; "current"]); auto.
    intros a Ha. apply elem_of_cons in Ha as [->|Ha]; [auto|].
    apply list_elem_of_singleton in Ha. auto.
  - right. exists id, (field_text (p_call p)). simpl. split; [exact Hlink|]. split.
    + apply (written_within basedir _ _ _ _ _ Hw); [not_in | exact Hwr].
    + right. exists i, (at_pc p PRmtree). repeat split; auto.
      apply list_lookup_insert_eq. now apply lookup_lt_Some with p.
  - intros j q old Hq Hqo. simpl in *.
    assert (Hprev : exists q0, procs s !! j = Some q0 /\ p_old q0 = Some old).
    { apply lookup_update in Hq as [(-> & ->)|(Hne & Hq)]; eauto. }
    destruct Hprev as (q0 & Hq0 & Ho0).
    destruct (Hold j q0 old Hq0 Ho0) as (y & -> & Hpy & Hcy).
    exists y. split; [reflexivity|]. split.
    + intros k r Hr Hrp. apply lookup_update in Hr as [(-> & ->)|(Hne & Hr)].
      * discriminate Hrp.
      * now apply (Hpy k r).
    + intros _. rewrite Hlink. intros [= Heq]. now apply (Hpy i p Hp Hpend).
Qed.

Lemma keeps_rmtree s i p :
  inv basedir s -> procs s !! i = Some p -> p_pc p = PRmtree ->
  inv basedir (step basedir i s).
Proof.
  intros Hinv Hp Hpc. pose proof Hinv as (Hbase & Hu & Hok & Hcur & Hold).
  pose proof (Hok i p Hp) as Hpok. unfold proc_ok in Hpok. rewrite Hpc in Hpok.
  assert (Hren : renamed (p_pc p) = true) by (now rewrite Hpc).
  rewrite step_unfold, Hp. unfold proc_step. rewrite Hpc. simpl.
  (* what has changed: nothing outside one entry that nobody relies on *)
  assert (Hchange : exists names,
            within basedir names (tree s)
              (match p_old p with Some old => shutil_rmtree (tree s) old | None => tree s end)
            /\ ("current" ∉ names)
            /\ (forall target, tree s !! current basedir = Some (Symlink target) ->
                  target ∉ names)
            /\ (forall j q, procs s !! j = Some q -> pending (p_pc q) = true ->
                  (c_uuid (p_call q) ∉ names) /\ (tmp_name (c_uuid (p_call q)) ∉ names))).
  { destruct (p_old p) as [old|] eqn:Ho.
    - destruct (Hold i p old Hp Ho) as (y & -> & Hpy & Hcy). specialize (Hcy Hren).
      assert (Hcase : tree s !! (basedir ++ [y]) = Some Dir
                      \/ tree s !! (basedir ++ [y]) <> Some Dir).
      { destruct (tree s !! (basedir ++ [y])) as [[| |]|]; auto; right; discriminate. }
      destruct Hcase as [Hdir|Hnd].
      + exists [y]. split; [apply within_rmtree; is_in|]. split; [|split].
        * intros Hin. apply list_elem_of_singleton in Hin. subst y.
          destruct Hcur as [[Hn _]|(t & text & Hl & _)];
            unfold current in *; congruence.
        * intros target Hl Hin. apply list_elem_of_singleton in Hin. congruence.
        * intros j q Hq Hqp. split; intros Hin; apply list_elem_of_singleton in Hin.
          -- now apply (Hpy j q).
          -- pose proof (Hok j q Hq) as Hqok. unfold proc_ok in Hqok.
             subst y. change (basedir ++ [tmp_name (c_uuid (p_call q))])
               with (tmp_link basedir (c_uuid (p_call q))) in Hdir.
             destruct (p_pc q); try discriminate Hqp;
               decompose [and] Hqok; congruence.
      + rewrite rmtree_noop by exact Hnd. exists []. split; [apply within_refl|].
        split; [apply not_elem_of_nil|].
        split; [intros; apply not_elem_of_nil|].
        intros; split; apply not_elem_of_nil.
    - exists []. split; [apply within_refl|].
      split; [apply not_elem_of_nil|].
      split; [intros; apply not_elem_of_nil|].
      intros; split; apply not_elem_of_nil. }
  destruct Hchange as (names & Hw & Hnc & Hnt & Hnp).
  set (fs' := match p_old p with
              | Some old => shutil_rmtree (tree s) old
              | None => tree s
              end) in *.
  assert (Hlink : fs' !! current basedir = tree s !! current basedir).
  { now apply (current_within basedir names). }
  apply (inv_assemble basedir s i p); auto.
  - unfold proc_ok. simpl. now rewrite (within_base basedir _ _ _ Hw).
  - intros j q Hne Hq. pose proof (Hok j q Hq) as Hqok.
    destruct (pending (p_pc q)) eqn:Hqp.
    + destruct (Hnp j q Hq Hqp). now apply (proc_ok_within basedir names (tree s)).
    + unfold proc_ok in *. destruct (p_pc q); try discriminate Hqp;
        try contradiction; now rewrite (within_base basedir _ _ _ Hw).
  - destruct Hcur as [[Hnone Hall]|(target & text & Hl & Hwr & Horigin)].
    + left. simpl. split; [congruence|]. intros j q Hq.
      apply lookup_update in Hq as [(-> & ->)|(Hne & Hq)]; [|eauto].
      specialize (Hall i p Hp). congruence.
    + right. exists target, text. simpl. split; [congruence|]. split.
      * apply (written_within basedir names (tree s)); auto.
      * destruct Horigin as [Hinit|(k & r & Hk & Hkr & Hku & Hkt)].
        -- destruct (Hinit i p Hp). congruence.
        -- right. destruct (decide (k = i)) as [->|Hne].
           ++ assert (r = p) by congruence. subst r.
              exists i, (at_pc p PDone). repeat split; auto.
              apply list_lookup_insert_eq. now apply lookup_lt_Some with p.
           ++ exists k, r. repeat split; auto.
              now rewrite list_lookup_insert_ne.
  - intros j q old Hq Hqo. simpl in *.
    assert (Hprev : exists q0, procs s !! j = Some q0 /\ p_old q0 = Some old
                               /\ renamed (p_pc q0) = renamed (p_pc q)).
    { apply lookup_update in Hq as [(-> & ->)|(Hne & Hq)]; [|eauto].
      exists p. repeat split; auto; try (now rewrite Hpc). }
    destruct Hprev as (q0 & Hq0 & Ho0 & Hsame).
    destruct (Hold j q0 old Hq0 Ho0) as (y & -> & Hpy & Hcy).
    exists y. split; [reflexivity|]. split.
    + intros k r Hr Hrp. apply lookup_update in Hr as [(-> & ->)|(Hne & Hr)].
      * discriminate Hrp.
      * now apply (Hpy k r).
    + intros Hrq. rewrite Hlink. apply Hcy. congruence.
Qed.

(** One call of one process keeps the invariant. *)
Theorem inv_step s i : inv basedir s -> inv basedir (step basedir i s).
Proof.
  intros Hinv. destruct (procs s !! i) as [p|] eqn:Hp.
  - destruct (p_pc p) eqn:Hpc.
    + now apply (keeps_makedirs s i p).
    + now apply (keeps_mkdir s i p).
    + now apply (keeps_open s i p f).
    + now apply (keeps_write s i p f).
    + now apply (keeps_symlink s i p).
    + now apply (keeps_readlink s i p).
    + now apply (keeps_rename s i p).
    + now apply (keeps_rmtree s i p).
    + rewrite step_unfold, Hp. unfold proc_step. rewrite Hpc. simpl.
      rewrite list_insert_id by exact Hp. now destruct s.
    + destruct Hinv as (_ & _ & Hok & _). specialize (Hok i p Hp).
      unfold proc_ok in Hok. now rewrite Hpc in Hok.
  - rewrite step_unfold, Hp. exact Hinv.
Qed.

Theorem inv_run (sched : list nat) :
  forall s, inv basedir s -> inv basedir (run_schedule basedir sched s).
Proof.
  induction sched as [|i sched IH]; intros s Hinv; [exact Hinv|].
  simpl. apply IH. now apply inv_step.
Qed.

End StepKeeps.

(* ===================================================================== *)
(** * Theorems: every process finishes *)
(* ===================================================================== *)

Section Progress.

Context {B : Builtins} (basedir : path).

Implicit Types (fs : FS) (id : string) (p q : proc) (s : system).

(** Under the invariant the next call of a process succeeds. *)
Lemma proc_step_advances s i p :
  inv basedir s -> procs s !! i = Some p ->
  p_pc (fst (proc_step basedir p (tree s))) = next_pc (p_pc p).
Proof.
  intros (Hbase & Hu & Hok & Hcur & Hold) Hp.
  pose proof (Hok i p Hp) as Hpok. unfold proc_ok in Hpok.
  destruct (p_pc p) eqn:Hpc.
  - destruct Hpok as (Hdirs & _).
    destruct (ps_makedirs basedir p (tree s) Hpc Hbase Hdirs) as (fs' & -> & _).
    reflexivity.
  - destruct Hpok as (Hb & Hfree & _).
    rewrite (ps_mkdir basedir p (tree s) Hpc Hb); [reflexivity | now apply Hfree].
  - destruct Hpok as (_ & Hd & Hupto & _).
    rewrite (ps_open basedir p (tree s) f Hpc Hd); [reflexivity | now apply (Hupto f)].
  - destruct Hpok as (_ & _ & Hopen & _).
    rewrite (ps_write basedir p (tree s) f "" Hpc); [reflexivity | now apply (Hopen f)].
  - destruct Hpok as (Hb & _ & Htmp).
    now rewrite (ps_symlink basedir p (tree s) Hpc Hb Htmp).
  - destruct Hpok as (Hb & _).
    destruct (tree s !! current basedir) as [[| |target]|] eqn:Hlink.
    + destruct Hcur as [[Hn _]|(t & text & Hl & _)]; congruence.
    + destruct Hcur as [[Hn _]|(t & text & Hl & _)]; congruence.
    + now rewrite (ps_readlink_some basedir p (tree s) target Hpc Hlink).
    + now rewrite (ps_readlink_none basedir p (tree s) Hpc Hb Hlink).
  - destruct Hpok as (Hb & _ & Htmp).
    rewrite (ps_rename basedir p (tree s) Hpc Hb Htmp); [reflexivity|].
    destruct Hcur as [[Hn _]|(t & text & Hl & _)]; congruence.
  - unfold proc_step. now rewrite Hpc.
  - unfold proc_step. now rewrite Hpc.
  - contradiction.
Qed.

Lemma proc_step_call p fs : p_call (fst (proc_step basedir p fs)) = p_call p.
Proof.
  unfold proc_step.
  repeat (case_match; simpl; try reflexivity).
Qed.

Lemma rank_next l : rank (next_pc l) = Nat.min 16 (rank l + 1).
Proof.
  destruct l as [| |f|f| | | | | |e]; try reflexivity; destruct f; reflexivity.
Qed.

Lemma rank_step s i j :
  inv basedir s -> (i < length (procs s))%nat ->
  rank_of (step basedir j s) i
  = if decide (i = j) then Nat.min 16 (rank_of s i + 1) else rank_of s i.
Proof.
  intros Hinv Hi. unfold rank_of. rewrite step_unfold.
  destruct (procs s !! j) as [p|] eqn:Hp.
  - simpl. destruct (decide (i = j)) as [->|Hne].
    + rewrite list_lookup_insert_eq by exact Hi. rewrite Hp.
      rewrite (proc_step_advances s j p Hinv Hp). apply rank_next.
    + now rewrite list_lookup_insert_ne by congruence.
  - destruct (decide (i = j)) as [->|Hne]; [|reflexivity].
    apply lookup_ge_None in Hp. lia.
Qed.

Lemma step_length s j : length (procs (step basedir j s)) = length (procs s).
Proof.
  rewrite step_unfold. destruct (procs s !! j); [|reflexivity].
  simpl. apply length_insert.
Qed.

Lemma run_length (sched : list nat) :
  forall s, length (procs (run_schedule basedir sched s)) = length (procs s).
Proof.
  induction sched as [|j sched IH]; intros s; [reflexivity|].
  simpl. now rewrite IH, step_length.
Qed.

Lemma rank_run (sched : list nat) :
  forall s i, inv basedir s -> (i < length (procs s))%nat ->
    rank_of (run_schedule basedir sched s) i
    = Nat.min 16 (rank_of s i + count_occ Nat.eq_dec sched i).
Proof.
  induction sched as [|j sched IH]; intros s i Hinv Hi.
  - change (rank_of s i = Nat.min 16 (rank_of s i + 0)). unfold rank_of.
    destruct (procs s !! i) as [p|]; [|reflexivity].
    assert (rank (p_pc p) <= 16)%nat; [|lia].
    destruct (p_pc p) as [| |f|f| | | | | |e]; simpl; try lia; destruct f; simpl; lia.
  - change (run_schedule basedir (j :: sched) s)
      with (run_schedule basedir sched (step basedir j s)).
    rewrite IH; [|now apply inv_step|now rewrite step_length].
    rewrite (rank_step s i j Hinv Hi). cbn [count_occ].
    destruct (Nat.eq_dec j i) as [->|Hne].
    + destruct (decide (i = i)); [lia|congruence].
    + destruct (decide (i = j)); [congruence|lia].
Qed.

(** The calls the processes were started with never change. *)
Lemma calls_step s j :
  map p_call (procs (step basedir j s)) = map p_call (procs s).
Proof.
  rewrite step_unfold. destruct (procs s !! j) as [p|] eqn:Hp; [|reflexivity].
  simpl. change (map p_call) with (fmap (M := list) p_call).
  rewrite list_fmap_insert, proc_step_call.
  apply list_insert_id. now rewrite list_lookup_fmap, Hp.
Qed.

Lemma calls_run (sched : list nat) :
  forall s, map p_call (procs (run_schedule basedir sched s)) = map p_call (procs s).
Proof.
  induction sched as [|j sched IH]; intros s; [reflexivity|].
  simpl. now rewrite IH, calls_step.
Qed.

End Progress.

(* ===================================================================== *)
(** * Theorems: what a call of [_cache] can touch *)
(* ===================================================================== *)

Section Touch.

Context {B : Builtins} (basedir : path).

Implicit Types (fs : FS) (p : proc) (q : path).

Lemma node_same_or_not (a b : option node) : a = b \/ a <> b.
Proof.
  destruct a as [[|c|t]|], b as [[|c'|t']|];
    try (right; discriminate); try (left; reflexivity).
  - destruct (decide (c = c')) as [->|Hne]; [now left | right; congruence].
  - destruct (decide (t = t')) as [->|Hne]; [now left | right; congruence].
Qed.

(** The names that one call of a process can change, by the place the
    process is at. *)
Lemma proc_step_touches p fs q :
  snd (proc_step basedir p fs) !! q <> fs !! q ->
  match p_pc p with
  | PMakedirs => q `prefix_of` basedir /\ fs !! q = None
  | PMkdir => q = entry basedir (c_uuid (p_call p)) /\ fs !! q = None
  | POpen f => q = entry_file basedir (c_uuid (p_call p)) f
  | PWrite f => q = entry_file basedir (c_uuid (p_call p)) f
  | PSymlink => q = tmp_link basedir (c_uuid (p_call p)) /\ fs !! q = None
  | PRename => q = current basedir \/ q = tmp_link basedir (c_uuid (p_call p))
  | PRmtree => exists old, p_old p = Some old /\ old `prefix_of` q
  | PReadlink | PDone | PRaised _ => False
  end.
Proof.
  unfold proc_step. destruct (p_pc p) as [| |f|f| | | | | |e]; simpl.
  - destruct (os_makedirs fs basedir) as [fs' r] eqn:Hm. unfold os_makedirs in Hm.
    intros Hne.
    assert (Hq : fs' !! q <> fs !! q -> q `prefix_of` basedir /\ fs !! q = None).
    { intros Hd. destruct (makedirs_from_adds basedir [] fs fs' r Hm q)
        as [Heq|(Hn & _ & Hp)]; [congruence | auto]. }
    destruct r as [[]|]; apply Hq; exact Hne.
  - destruct (os_mkdir fs _) as [e|fs'] eqn:Hm; simpl; [congruence|].
    apply os_mkdir_inr in Hm as [Hfree ->]. intros Hne.
    destruct (decide (q = entry basedir (c_uuid (p_call p)))) as [->|Hq]; [auto|].
    now rewrite lookup_insert_ne in Hne.
  - destruct (open_w fs _) as [e|fs'] eqn:Hm; simpl; [congruence|].
    apply open_w_inr in Hm as [_ ->]. intros Hne.
    destruct (decide (q = entry_file basedir (c_uuid (p_call p)) f)) as [->|Hq]; [auto|].
    now rewrite lookup_insert_ne in Hne.
  - unfold write_handle. intros Hne.
    destruct (decide (q = entry_file basedir (c_uuid (p_call p)) f)) as [->|Hq]; [auto|].
    destruct (fs !! entry_file basedir (c_uuid (p_call p)) f) as [[| |]|]; try congruence.
    now rewrite lookup_insert_ne in Hne.
  - destruct (os_symlink fs _ _) as [e|fs'] eqn:Hm; simpl; [congruence|].
    apply os_symlink_inr in Hm as [Hfree ->]. intros Hne.
    destruct (decide (q = tmp_link basedir (c_uuid (p_call p)))) as [->|Hq]; [auto|].
    now rewrite lookup_insert_ne in Hne.
  - destruct (os_readlink fs _) as [[]|target]; simpl; congruence.
  - destruct (os_rename fs _ _) as [e|fs'] eqn:Hm; simpl; [congruence|].
    apply os_rename_inr in Hm as (n & _ & _ & ->). intros Hne.
    destruct (decide (q = current basedir)) as [->|Hq]; [auto|].
    destruct (decide (q = tmp_link basedir (c_uuid (p_call p)))) as [->|Hq']; [auto|].
    rewrite lookup_insert_ne, lookup_delete_ne in Hne; congruence.
  - destruct (p_old p) as [old|]; [|congruence]. intros Hne.
    exists old. split; [reflexivity|].
    rewrite rmtree_lookup in Hne.
    destruct (fs !! old) as [[| |]|]; try congruence.
    destruct (decide (old `prefix_of` q)); [assumption|congruence].
  - congruence.
  - congruence.
Qed.

(** An [old_canonical] is a name in [basedir]. *)
Lemma proc_step_old p fs :
  (forall old, p_old p = Some old -> basedir `prefix_of` old) ->
  forall old, p_old (fst (proc_step basedir p fs)) = Some old -> basedir `prefix_of` old.
Proof.
  intros Hold old. unfold proc_step.
  repeat (case_match; simpl; try apply Hold); try discriminate.
  intros [= <-]. now exists [s].
Qed.

(** Names that are neither on the way to [basedir] nor below it. *)
Lemma proc_step_outside p fs q :
  (forall old, p_old p = Some old -> basedir `prefix_of` old) ->
  ~ q `prefix_of` basedir -> ~ basedir `prefix_of` q ->
  snd (proc_step basedir p fs) !! q = fs !! q.
Proof.
  intros Hold Hup Hdown.
  destruct (node_same_or_not (snd (proc_step basedir p fs) !! q) (fs !! q)) as [Heq|Hne];
    [exact Heq | exfalso].
  apply proc_step_touches in Hne.
  assert (Hin : forall rest, q = basedir ++ rest -> False).
  { intros rest ->. apply Hdown. now exists rest. }
  destruct (p_pc p) as [| |f|f| | | | | |e]; try contradiction.
  - now destruct Hne.
  - destruct Hne as [-> _]. now apply (Hin [c_uuid (p_call p)]).
  - now apply (Hin [c_uuid (p_call p); field_name f]).
  - now apply (Hin [c_uuid (p_call p); field_name f]).
  - destruct Hne as [-> _]. now apply (Hin ["current." +:+ c_uuid (p_call p)]).
  - destruct Hne as [-> | ->]; [now apply (Hin ["current"])|].
    now apply (Hin ["current." +:+ c_uuid (p_call p)]).
  - destruct Hne as (old & Ho & Hp). apply Hdown.
    etransitivity; [exact (Hold old Ho) | exact Hp].
Qed.

Lemma run_alone_outside (n : nat) :
  forall p fs q,
    (forall old, p_old p = Some old -> basedir `prefix_of` old) ->
    ~ q `prefix_of` basedir -> ~ basedir `prefix_of` q ->
    snd (run_alone basedir n p fs) !! q = fs !! q.
Proof.
  induction n as [|n IH]; intros p fs q Hold Hup Hdown; [reflexivity|].
  cbn [run_alone].
  pose proof (proc_step_outside p fs q Hold Hup Hdown) as Hs.
  pose proof (proc_step_old p fs Hold) as Ho.
  destruct (proc_step basedir p fs) as [p' fs']. simpl in Hs, Ho.
  rewrite IH; auto.
Qed.

(** An [old_canonical] is a name in [basedir], one level down. *)
Lemma proc_step_old_name p fs :
  (forall old, p_old p = Some old -> exists y, old = basedir ++ [y]) ->
  forall old, p_old (fst (proc_step basedir p fs)) = Some old ->
    exists y, old = basedir ++ [y].
Proof.
  intros Hold old. unfold proc_step.
  repeat (case_match; simpl; try apply Hold); try discriminate.
  intros [= <-]. eauto.
Qed.

(** On the way to [basedir] a call only makes directories. *)
Lemma proc_step_above p fs q :
  (forall old, p_old p = Some old -> exists y, old = basedir ++ [y]) ->
  q `prefix_of` basedir ->
  snd (proc_step basedir p fs) !! q = fs !! q
  \/ (fs !! q = None /\ snd (proc_step basedir p fs) !! q = Some Dir).
Proof.
  intros Hold Hup.
  destruct (node_same_or_not (snd (proc_step basedir p fs) !! q) (fs !! q)) as [Heq|Hne];
    [now left|].
  assert (Hin : forall x rest, q = basedir ++ x :: rest -> False).
  { intros x rest ->. destruct Hup as [k Hk]. apply (f_equal length) in Hk.
    rewrite !length_app in Hk. simpl in Hk. lia. }
  pose proof (proc_step_touches p fs q Hne) as Ht.
  destruct (p_pc p) as [| |f|f| | | | | |e] eqn:Hpc; try contradiction.
  - right. unfold proc_step in *. rewrite Hpc in *.
    destruct (os_makedirs fs basedir) as [fs' r] eqn:Hm. unfold os_makedirs in Hm.
    assert (Hq : fs !! q = None /\ fs' !! q = Some Dir).
    { destruct (makedirs_from_adds basedir [] fs fs' r Hm q) as [Heq|(Hn & Hd & _)]; [|auto].
      exfalso. apply Hne. now destruct r as [[]|]. }
    now destruct r as [[]|].
  - destruct Ht as [-> _]. now destruct (Hin (c_uuid (p_call p)) []).
  - now destruct (Hin (c_uuid (p_call p)) [field_name f]).
  - now destruct (Hin (c_uuid (p_call p)) [field_name f]).
  - destruct Ht as [-> _]. now destruct (Hin ("current." +:+ c_uuid (p_call p)) []).
  - destruct Ht as [-> | ->]; [now destruct (Hin "current" [])|].
    now destruct (Hin ("current." +:+ c_uuid (p_call p)) []).
  - destruct Ht as (old & Ho & [k ->]). destruct (Hold old Ho) as [y ->].
    rewrite <- app_assoc in Hin. now destruct (Hin y k).
Qed.

Lemma run_alone_above (n : nat) :
  forall p fs q,
    (forall old, p_old p = Some old -> exists y, old = basedir ++ [y]) ->
    q `prefix_of` basedir ->
    snd (run_alone basedir n p fs) !! q = fs !! q
    \/ (fs !! q = None /\ snd (run_alone basedir n p fs) !! q = Some Dir).
Proof.
  induction n as [|n IH]; intros p fs q Hold Hup; [now left|].
  cbn [run_alone].
  pose proof (proc_step_above p fs q Hold Hup) as Hs.
  pose proof (proc_step_old_name p fs Hold) as Ho.
  destruct (proc_step basedir p fs) as [p' fs']. simpl in Hs, Ho.
  destruct (IH p' fs' q Ho Hup) as [Heq|[Hn Hd]].
  - rewrite Heq. exact Hs.
  - destruct Hs as [Hs|[_ Hs]]; [|congruence]. right. rewrite <- Hs. auto.
Qed.

End Touch.

(* ===================================================================== *)
(** * Theorems: racing writers *)
(* ===================================================================== *)

Section Racing.

Context {B : Builtins} (basedir : path).

Implicit Types (fs : FS) (id : string) (p q : proc) (s : system).

Lemma dirs_ok_fine fs (rest : list string) :
  forall pre : path,
    dirs_ok fs pre rest = true ->
    forall x : path, x `prefix_of` pre ++ rest -> (length pre < length x)%nat ->
      fs !! x = None \/ fs !! x = Some Dir.
Proof.
  induction rest as [|name more IH]; intros pre Hok x Hx Hlen.
  - rewrite app_nil_r in Hx. apply prefix_length in Hx. lia.
  - simpl in Hok.
    assert (Hhere : (fs !! (pre ++ [name]) = None \/ fs !! (pre ++ [name]) = Some Dir)
                    /\ dirs_ok fs (pre ++ [name]) more = true).
    { destruct (fs !! (pre ++ [name])) as [[| |]|]; try discriminate Hok; auto. }
    destruct Hhere as [Hhere Hmore].
    assert (Hx' : x `prefix_of` (pre ++ [name]) ++ more) by (now rewrite <- app_assoc).
    assert (Hsnoc : pre ++ [name] `prefix_of` (pre ++ [name]) ++ more)
      by (now apply prefix_app_r).
    destruct (prefix_weak_total _ _ _ Hx' Hsnoc) as [Hle|Hge].
    + assert (x = pre ++ [name]); [|now subst x].
      apply prefix_length_eq; [exact Hle|]. rewrite length_app. simpl. lia.
    + destruct (decide (length x = length (pre ++ [name]))) as [Heq|Hne].
      * assert (pre ++ [name] = x) by (apply prefix_length_eq; [exact Hge|lia]).
        now subst x.
      * apply (IH (pre ++ [name]) Hmore x Hx'). apply prefix_length in Hge. lia.
Qed.

Lemma free_below_spec fs (x : path) :
  free_below fs x = true -> forall y : path, x `prefix_of` y -> fs !! y = None.
Proof.
  unfold free_below. rewrite forallb_forall. intros H y Hy.
  destruct (fs !! y) as [n|] eqn:E; [|reflexivity].
  apply elem_of_map_to_list, list_elem_of_In, H in E. simpl in E.
  apply negb_true_iff, bool_decide_eq_false in E. contradiction.
Qed.

Lemma distinct_NoDup (l : list string) : distinct l = true -> NoDup l.
Proof.
  induction l as [|a l IH]; simpl; [constructor|].
  intros H. apply andb_true_iff in H as [Ha Hl]. constructor; [|auto].
  intros Hin. apply negb_true_iff in Ha.
  assert (existsb (String.eqb a) l = true); [|congruence].
  apply existsb_exists. exists a. split; [now apply list_elem_of_In|apply String.eqb_refl].
Qed.

Lemma node_eqb_eq (a b : node) : node_eqb a b = true -> a = b.
Proof.
  destruct a, b; simpl; try discriminate; try reflexivity;
    intros H; apply String.eqb_eq in H; now subst.
Qed.

(** A good start satisfies the invariant. *)
Lemma inv_start fs0 (calls : list call) :
  good_start basedir fs0 calls = true -> inv basedir (start_system fs0 calls).
Proof.
  unfold good_start. rewrite !andb_true_iff.
  intros ((((Hdirs & Hbase) & Hcur) & Hdist) & Hcalls).
  apply negb_true_iff, bool_decide_eq_false in Hbase.
  rewrite forallb_forall in Hcalls.
  assert (Hcall : forall i p, procs (start_system fs0 calls) !! i = Some p ->
            p_pc p = PMakedirs /\ p_old p = None
            /\ calls !! i = Some (p_call p)
            /\ String.length (c_uuid (p_call p)) = 36%nat
            /\ entry_free basedir fs0 (c_uuid (p_call p))
            /\ fs0 !! tmp_link basedir (c_uuid (p_call p)) = None).
  { intros i p Hp. simpl in Hp. change (map start calls) with (start <$> calls) in Hp.
    rewrite list_lookup_fmap in Hp.
    destruct (calls !! i) as [c|] eqn:Hc; [|discriminate Hp].
    injection Hp as <-. simpl. split; [reflexivity|]. split; [reflexivity|].
    split; [reflexivity|].
    assert (Hin : In c calls) by (apply list_elem_of_In; eapply list_elem_of_lookup_2; eauto).
    specialize (Hcalls c Hin). rewrite !andb_true_iff in Hcalls.
    destruct Hcalls as ((Hlen & Hfree) & Htmp).
    split; [now apply Nat.eqb_eq|]. split; [intros x Hx; now apply (free_below_spec fs0 _ Hfree)|].
    unfold free in Htmp. now destruct (fs0 !! tmp_link basedir (c_uuid c)). }
  split; [exact Hbase|]. split; [|split; [|split]].
  - split.
    + intros i p Hp. now apply (Hcall i p).
    + intros i j p q Hp Hq Heq.
      destruct (Hcall i p Hp) as (_ & _ & Hi & _).
      destruct (Hcall j q Hq) as (_ & _ & Hj & _).
      apply distinct_NoDup in Hdist.
      apply (NoDup_lookup _ i j (c_uuid (p_call p)) Hdist).
      * change (map c_uuid calls) with (c_uuid <$> calls).
        now rewrite list_lookup_fmap, Hi.
      * change (map c_uuid calls) with (c_uuid <$> calls).
        now rewrite list_lookup_fmap, Hj, Heq.
  - intros i p Hp. destruct (Hcall i p Hp) as (Hpc & _ & _ & _ & Hfree & Htmp).
    unfold proc_ok. rewrite Hpc. split; [|split; assumption].
    intros x Hx Hne. apply (dirs_ok_fine fs0 basedir [] Hdirs x Hx).
    destruct x; [congruence | simpl; lia].
  - unfold current_inv, current_ok in *. simpl.
    destruct (fs0 !! current basedir) as [[| |target]|] eqn:Hlink; try discriminate Hcur.
    + right. apply andb_true_iff in Hcur as [Hd Hf].
      exists target,
        (fun f => match fs0 !! entry_file basedir target f with
                  | Some (File text) => text
                  | _ => ""
                  end).
      split; [reflexivity|]. split; [split|].
      * unfold has_node in Hd.
        destruct (fs0 !! entry basedir target) as [n|]; [|discriminate Hd].
        apply node_eqb_eq in Hd. now subst n.
      * intros f. rewrite forallb_forall in Hf.
        assert (Hin : In f all_fields) by (destruct f; simpl; auto 10).
        specialize (Hf f Hin). unfold is_file in Hf.
        now destruct (fs0 !! entry_file basedir target f) as [[| |]|].
      * left. intros i p Hp. destruct (Hcall i p Hp) as (Hpc & _ & _ & _ & Hfree & _).
        split; [|now rewrite Hpc]. intros Heq.
        unfold has_node in Hd. rewrite <- Heq in Hd.
        now rewrite (Hfree (entry basedir (c_uuid (p_call p)))) in Hd.
    + left. split; [reflexivity|]. intros i p Hp.
      destruct (Hcall i p Hp) as (Hpc & _). now rewrite Hpc.
  - intros i p old Hp Ho. destruct (Hcall i p Hp) as (_ & Hnone & _). congruence.
Qed.

Lemma all_done_spec s :
  all_done s = true <-> forall i p, procs s !! i = Some p -> p_pc p = PDone.
Proof.
  unfold all_done. rewrite forallb_forall. split.
  - intros H i p Hp.
    assert (Hin : In p (procs s)) by (apply list_elem_of_In; eapply list_elem_of_lookup_2; eauto).
    specialize (H p Hin). unfold is_done in H. now destruct (p_pc p).
  - intros H p Hin. apply list_elem_of_In, list_elem_of_lookup_1 in Hin as [i Hi].
    unfold is_done. now rewrite (H i p Hi).
Qed.

Lemma rank_full l : rank l = 16%nat -> l = PDone \/ exists e, l = PRaised e.
Proof.
  destruct l as [| |f|f| | | | | |e]; simpl; try discriminate; eauto;
    destruct f; discriminate.
Qed.

(** Where a race stands after any schedule: the invariant, no exception,
    and the calls the processes were started with. *)
Lemma race_state (fs0 : FS) (calls : list call) (sched : list nat) :
  good_start basedir fs0 calls = true ->
  let s := run_schedule basedir sched (start_system fs0 calls) in
  inv basedir s
  /\ (forall i p e, procs s !! i = Some p -> p_pc p <> PRaised e)
  /\ map p_call (procs s) = calls.
Proof.
  intros Hstart s.
  pose proof (inv_run basedir sched _ (inv_start fs0 calls Hstart)) as Hinv.
  fold s in Hinv. split; [exact Hinv|]. split.
  - destruct Hinv as (_ & _ & Hok & _). intros i p e Hp He.
    specialize (Hok i p Hp). unfold proc_ok in Hok. now rewrite He in Hok.
  - unfold s. rewrite calls_run. simpl. rewrite map_map. simpl. apply map_id.
Qed.

(** When all are done, [current] leads to the entry of one of them. *)
Lemma race_winner (fs0 : FS) (calls : list call) (sched : list nat) :
  good_start basedir fs0 calls = true ->
  let s := run_schedule basedir sched (start_system fs0 calls) in
  all_done s = true -> calls <> [] ->
  exists c, c ∈ calls
    /\ tree s !! current basedir = Some (Symlink (c_uuid c))
    /\ written basedir (tree s) (c_uuid c) (field_text c).
Proof.
  intros Hstart s Hdone Hne.
  destruct (race_state fs0 calls sched Hstart) as ((_ & _ & _ & Hcur & _) & _ & Hcalls).
  fold s in Hcur, Hcalls. rewrite all_done_spec in Hdone.
  assert (Hsome : exists p, procs s !! 0%nat = Some p).
  { destruct (procs s) as [|p l] eqn:E; [|eauto].
    simpl in Hcalls. congruence. }
  destruct Hsome as (p0 & Hp0). pose proof (Hdone _ _ Hp0) as Hpc0.
  destruct Hcur as [[_ Hall]|(target & text & Hl & Hw & Horigin)].
  - specialize (Hall _ _ Hp0). rewrite Hpc0 in Hall. discriminate Hall.
  - destruct Horigin as [Hinit|(k & r & Hk & _ & Hku & Hkt)].
    + destruct (Hinit _ _ Hp0) as [_ Hr]. rewrite Hpc0 in Hr. discriminate Hr.
    + exists (p_call r). subst target text. split; [|split; assumption].
      rewrite <- Hcalls. apply list_elem_of_In, in_map, list_elem_of_In.
      eapply list_elem_of_lookup_2; eauto.
Qed.

(** Sixteen turns each are enough for all to be done. *)
Lemma race_all_done (fs0 : FS) (calls : list call) (sched : list nat) :
  good_start basedir fs0 calls = true ->
  (forall i, (i < length calls)%nat -> (16 <= count_occ Nat.eq_dec sched i)%nat) ->
  all_done (run_schedule basedir sched (start_system fs0 calls)) = true.
Proof.
  intros Hstart Hturns.
  destruct (race_state fs0 calls sched Hstart) as (_ & Hraise & Hcalls).
  apply all_done_spec. intros i p Hp.
  assert (Hi : (i < length calls)%nat).
  { rewrite <- Hcalls, length_map. now apply lookup_lt_Some with p. }
  assert (Hrank : rank_of (run_schedule basedir sched (start_system fs0 calls)) i = 16%nat).
  { rewrite rank_run.
    - specialize (Hturns i Hi). lia.
    - now apply inv_start.
    - simpl. now rewrite length_map. }
  unfold rank_of in Hrank. rewrite Hp in Hrank.
  destruct (rank_full _ Hrank) as [Hd|(e & He)]; [exact Hd|].
  now destruct (Hraise i p e Hp).
Qed.

(** ** The entry that was there at the start *)

Lemma start_entry fs0 (calls : list call) (target : string) :
  good_start basedir fs0 calls = true ->
  fs0 !! current basedir = Some (Symlink target) ->
  exists text, written basedir fs0 target text.
Proof.
  unfold good_start. rewrite !andb_true_iff.
  intros ((((_ & _) & Hcur) & _) & _) Hlink.
  unfold current_ok in Hcur. rewrite Hlink in Hcur.
  apply andb_true_iff in Hcur as [Hd Hf].
  exists (fun f => match fs0 !! entry_file basedir target f with
                   | Some (File text) => text
                   | _ => ""
                   end).
  split.
  - unfold has_node in Hd.
    destruct (fs0 !! entry basedir target) as [n|]; [|discriminate Hd].
    apply node_eqb_eq in Hd. now subst n.
  - intros f. rewrite forallb_forall in Hf.
    assert (Hin : In f all_fields) by (destruct f; simpl; auto 10).
    specialize (Hf f Hin). unfold is_file in Hf.
    now destruct (fs0 !! entry_file basedir target f) as [[| |]|].
Qed.

Lemma renamed_step p fs :
  renamed (p_pc p) = true -> renamed (p_pc (fst (proc_step basedir p fs))) = true.
Proof.
  unfold proc_step. destruct (p_pc p) eqn:Hpc; try discriminate; intros _; simpl; auto.
  now rewrite Hpc.
Qed.

(** If no process has renamed after a call, none had before it. *)
Lemma not_renamed_before s j :
  (forall i p, procs (step basedir j s) !! i = Some p -> renamed (p_pc p) = false) ->
  forall i p, procs s !! i = Some p -> renamed (p_pc p) = false.
Proof.
  rewrite step_unfold. destruct (procs s !! j) as [pj|] eqn:Hj; [|auto].
  cbn [procs]. intros Hafter i p Hp.
  destruct (decide (i = j)) as [->|Hne].
  - assert (p = pj) by congruence. subst p.
    specialize (Hafter j (fst (proc_step basedir pj (tree s)))).
    rewrite list_lookup_insert_eq in Hafter by (now apply lookup_lt_Some with pj).
    specialize (Hafter eq_refl).
    destruct (renamed (p_pc pj)) eqn:Hr; [|reflexivity].
    now rewrite (renamed_step pj (tree s) Hr) in Hafter.
  - apply (Hafter i). now rewrite list_lookup_insert_ne by congruence.
Qed.

(** A call after which no process has renamed leaves [current] alone,
    and the entry it leads to. *)
Lemma untouched_step s j :
  inv basedir s ->
  (forall i p, procs (step basedir j s) !! i = Some p -> renamed (p_pc p) = false) ->
  tree (step basedir j s) !! current basedir = tree s !! current basedir
  /\ forall (target : string) (q : path),
       tree s !! current basedir = Some (Symlink target) ->
       entry basedir target `prefix_of` q ->
       tree (step basedir j s) !! q = tree s !! q.
Proof.
  intros (Hbase & Hu & Hok & Hcur & Hold) Hafter.
  pose proof (not_renamed_before s j Hafter) as Hbefore.
  revert Hafter. rewrite step_unfold.
  destruct (procs s !! j) as [pj|] eqn:Hj; [|now split].
  cbn [procs tree]. intros Hafter.
  specialize (Hafter j (fst (proc_step basedir pj (tree s)))).
  rewrite list_lookup_insert_eq in Hafter by (now apply lookup_lt_Some with pj).
  specialize (Hafter eq_refl).
  pose proof (proj1 Hu j pj Hj) as Hlen.
  assert (Hrename : p_pc pj = PRename ->
                    snd (proc_step basedir pj (tree s)) = tree s).
  { intros Hpc. revert Hafter. unfold proc_step. rewrite Hpc.
    destruct (os_rename (tree s) _ _); [reflexivity | discriminate]. }
  assert (Hcases : forall q : path,
            snd (proc_step basedir pj (tree s)) !! q <> tree s !! q ->
            (q `prefix_of` basedir /\ tree s !! q = None)
            \/ (tree s !! q = None
                /\ (q = entry basedir (c_uuid (p_call pj))
                    \/ q = tmp_link basedir (c_uuid (p_call pj))))
            \/ exists f, q = entry_file basedir (c_uuid (p_call pj)) f).
  { intros q Hne. pose proof (proc_step_touches basedir pj (tree s) q Hne) as Ht.
    pose proof (Hbefore j pj Hj) as Hr.
    destruct (p_pc pj) as [| |f|f| | | | | |e] eqn:Hpc; try contradiction;
      try discriminate Hr.
    - now left.
    - right. left. destruct Ht as [-> Hn]. auto.
    - right. right. eauto.
    - right. right. eauto.
    - right. left. destruct Ht as [-> Hn]. auto.
    - now rewrite Hrename in Hne. }
  split.
  - destruct (node_same_or_not (snd (proc_step basedir pj (tree s)) !! current basedir)
                (tree s !! current basedir)) as [Heq|Hne]; [exact Heq | exfalso].
    destruct (Hcases _ Hne) as [[[k Hk] _]|[[_ [Hq|Hq]]|[f Hq]]].
    + apply (f_equal length) in Hk. unfold current in Hk.
      rewrite !length_app in Hk. simpl in Hk. lia.
    + unfold current, entry in Hq. apply app_inv_head in Hq. injection Hq as Hq.
      rewrite <- Hq in Hlen. discriminate Hlen.
    + unfold current, tmp_link in Hq. apply app_inv_head in Hq. discriminate Hq.
    + unfold current, entry_file in Hq. apply app_inv_head in Hq. discriminate Hq.
  - intros target q Hlink [k ->].
    destruct Hcur as [[Hnone _]|(target' & text & Hl & [Hdir _] & Horigin)]; [congruence|].
    assert (target' = target) by congruence. subst target'.
    assert (Hother : c_uuid (p_call pj) <> target).
    { destruct Horigin as [Hinit|(i & p & Hp & Hr & _)].
      - now destruct (Hinit j pj Hj).
      - rewrite (Hbefore i p Hp) in Hr. discriminate Hr. }
    destruct (node_same_or_not (snd (proc_step basedir pj (tree s)) !! (entry basedir target ++ k))
                (tree s !! (entry basedir target ++ k))) as [Heq|Hne]; [exact Heq | exfalso].
    unfold entry, tmp_link, entry_file in *.
    destruct (Hcases _ Hne) as [[[k' Hk] _]|[[Hn [Hq|Hq]]|[f Hq]]].
    + apply (f_equal length) in Hk. rewrite !length_app in Hk. simpl in Hk. lia.
    + rewrite <- app_assoc in Hq. apply app_inv_head in Hq. simpl in Hq. congruence.
    + rewrite <- app_assoc in Hq, Hn. apply app_inv_head in Hq. simpl in Hq.
      injection Hq as Hq Hk. subst k. simpl in Hn. congruence.
    + rewrite <- app_assoc in Hq. apply app_inv_head in Hq. simpl in Hq. congruence.
Qed.

Lemma run_snoc (sched : list nat) (j : nat) s :
  run_schedule basedir (sched ++ [j]) s = step basedir j (run_schedule basedir sched s).
Proof. unfold run_schedule. now rewrite fold_left_app. Qed.

(** While no process has renamed, [current] and the entry it leads to
    are as they were at the start. *)
Lemma untouched_run (sched : list nat) :
  forall s0,
    inv basedir s0 ->
    let s := run_schedule basedir sched s0 in
    (forall i p, procs s !! i = Some p -> renamed (p_pc p) = false) ->
    tree s !! current basedir = tree s0 !! current basedir
    /\ forall (target : string) (q : path),
         tree s0 !! current basedir = Some (Symlink target) ->
         entry basedir target `prefix_of` q ->
         tree s !! q = tree s0 !! q.
Proof.
  induction sched as [|j sched IH] using rev_ind; intros s0 Hinv s Hnone.
  - now split.
  - subst s. rewrite run_snoc in *.
    pose proof (inv_run basedir sched s0 Hinv) as Hinv'.
    destruct (untouched_step _ j Hinv' Hnone) as [Hc Hq].
    destruct (IH s0 Hinv (not_renamed_before _ j Hnone)) as [Hc0 Hq0].
    split; [now rewrite Hc|].
    intros target q Hlink Hpre.
    rewrite (Hq target q); [now apply (Hq0 target) | now rewrite Hc0 | exact Hpre].
Qed.

(** What [current] leads to, at any moment of a race. *)
Lemma race_current (fs0 : FS) (calls : list call) (sched : list nat) :
  good_start basedir fs0 calls = true ->
  let s := run_schedule basedir sched (start_system fs0 calls) in
  (tree s !! current basedir = None /\ fs0 !! current basedir = None)
  \/ (exists target text,
        fs0 !! current basedir = Some (Symlink target)
        /\ written basedir fs0 target text
        /\ tree s !! current basedir = Some (Symlink target)
        /\ written basedir (tree s) target text
        /\ forall q : path, entry basedir target `prefix_of` q -> tree s !! q = fs0 !! q)
  \/ (exists c, c ∈ calls
        /\ tree s !! current basedir = Some (Symlink (c_uuid c))
        /\ written basedir (tree s) (c_uuid c) (field_text c)).
Proof.
  intros Hstart s.
  destruct (race_state fs0 calls sched Hstart) as ((_ & _ & _ & Hcur & _) & _ & Hcalls).
  fold s in Hcur, Hcalls.
  pose proof (untouched_run sched _ (inv_start fs0 calls Hstart)) as Hrun.
  cbn zeta in Hrun. fold s in Hrun. cbn [tree start_system] in Hrun.
  destruct Hcur as [[Hnone Hall]|(target & text & Hl & Hw & [Hinit|(i & p & Hp & _ & Hid & Ht)])].
  - left. destruct (Hrun Hall) as [Hc _]. split; [exact Hnone | congruence].
  - right. left.
    assert (Hall : forall i p, procs s !! i = Some p -> renamed (p_pc p) = false)
      by (intros i p Hp; now destruct (Hinit i p Hp)).
    destruct (Hrun Hall) as [Hc Hq].
    assert (Hl0 : fs0 !! current basedir = Some (Symlink target)) by congruence.
    destruct (start_entry fs0 calls target Hstart Hl0) as [text0 Hw0].
    exists target, text0. split; [exact Hl0|]. split; [exact Hw0|]. split; [exact Hl|].
    split; [|intros q Hpre; now apply (Hq target)].
    destruct Hw0 as [Hd Hf]. split.
    + rewrite (Hq target) by (auto; reflexivity). exact Hd.
    + intros f. rewrite (Hq target); [apply Hf | exact Hl0 |].
      exists [field_name f]. unfold entry, entry_file. now rewrite <- app_assoc.
  - right. right. exists (p_call p). subst target text.
    split; [|split; assumption].
    rewrite <- Hcalls. apply list_elem_of_In, in_map, list_elem_of_In.
    eapply list_elem_of_lookup_2; eauto.
Qed.

(** C3: processes that run [_cache] for one key at the same time, their
    system calls interleaved in any order, from a tree in which [current]
    is absent or leads to a whole entry, with identifiers as
    [uuid.uuid1()] gives them.  At every moment [current] is one link at
    most, and it is never the link to an entry that is partly written or
    not there: it is absent (only if it was absent at the start), or it
    leads to the entry it led to at the start, of which nothing has
    changed, or it leads to the entry of one of the processes, which
    holds in its five files exactly the texts of that process's call.
    No process raises; when all the processes are done, [current] is the
    link to the entry of one of them, which holds what that process
    wrote; and all of them are done once each has been given its sixteen
    turns. *)
Theorem racing_writers_leave_a_whole_entry (fs0 : FS) (calls : list call)
    (sched : list nat) :
  good_start basedir fs0 calls = true ->
  let s := run_schedule basedir sched (start_system fs0 calls) in
  ((tree s !! current basedir = None /\ fs0 !! current basedir = None)
   \/ (exists target text,
         fs0 !! current basedir = Some (Symlink target)
         /\ written basedir fs0 target text
         /\ tree s !! current basedir = Some (Symlink target)
         /\ written basedir (tree s) target text
         /\ forall q : path, entry basedir target `prefix_of` q -> tree s !! q = fs0 !! q)
   \/ (exists c, c ∈ calls
         /\ tree s !! current basedir = Some (Symlink (c_uuid c))
         /\ written basedir (tree s) (c_uuid c) (field_text c)))
  /\ (forall i p e, procs s !! i = Some p -> p_pc p <> PRaised e)
  /\ (all_done s = true -> calls <> [] ->
      exists c, c ∈ calls
        /\ tree s !! current basedir = Some (Symlink (c_uuid c))
        /\ written basedir (tree s) (c_uuid c) (field_text c))
  /\ ((forall i, (i < length calls)%nat -> (16 <= count_occ Nat.eq_dec sched i)%nat) ->
      all_done s = true).
Proof.
  intros Hstart s.
  destruct (race_state fs0 calls sched Hstart) as (_ & Hraise & _).
  fold s in Hraise. split; [|split; [exact Hraise|split]].
  - now apply race_current.
  - now apply race_winner.
  - now apply race_all_done.
Qed.

End Racing.

(* ===================================================================== *)
(** * Theorems: [_cache] is the sixteen calls of one process *)
(* ===================================================================== *)

Section Refines.

Context {B : Builtins} (env : Env).

Ltac next_call :=
  match goal with
  | |- context [os_makedirs ?a ?b] => destruct (os_makedirs a b) as [? [[]|]] eqn:?
  | |- context [os_mkdir ?a ?b] => destruct (os_mkdir a b) as [[]|?] eqn:?
  | |- context [open_w ?a ?b] => destruct (open_w a b) as [[]|?] eqn:?
  | |- context [os_symlink ?a ?b ?c] => destruct (os_symlink a b c) as [[]|?] eqn:?
  | |- context [os_readlink ?a ?b] => destruct (os_readlink a b) as [[]|?] eqn:?
  | |- context [os_rename ?a ?b ?c] => destruct (os_rename a b c) as [[]|?] eqn:?
  end.

(** [_cache] leaves the tree that the sixteen calls of its process leave,
    and ends as that process ends. *)
Theorem cache_is_sixteen_calls (h r : string) (t : float) (stdout stderr : string)
    (returncode : Z) (w : World) :
  let result := _cache env h r t stdout stderr returncode w in
  let alone := run_alone (_hash2dir env h) 16
                 (start (call_of env r t stdout stderr returncode w)) (fs w) in
  fs (snd result) = snd alone
  /\ outcome_at (p_pc (fst alone)) = Some (fst result).
Proof.
  intros result alone. subst result alone.
  unfold call_of, _cache, open_write, bind, try_except, os_call, io_call, modify_fs,
    read_old_canonical, uuid_uuid1, time_time, ret, tick, set_fs.
  cbn [run_alone]. unfold proc_step, entry, entry_file, tmp_link, current, at_pc, start.
  cbn.
  repeat (next_call; cbn; rewrite <- ?app_assoc; cbn; try (split; reflexivity)).
Qed.

(** A system of one process is that process on its own. *)
Lemma run_single (basedir : path) (n : nat) :
  forall p fs,
    run_schedule basedir (repeat 0%nat n) {| tree := fs; procs := [p] |}
    = {| tree := snd (run_alone basedir n p fs);
         procs := [fst (run_alone basedir n p fs)] |}.
Proof.
  induction n as [|n IH]; intros p fs; [reflexivity|].
  change (repeat 0%nat (S n)) with (0%nat :: repeat 0%nat n).
  change (run_schedule basedir (0%nat :: repeat 0%nat n) {| tree := fs; procs := [p] |})
    with (run_schedule basedir (repeat 0%nat n)
            (step basedir 0 {| tree := fs; procs := [p] |})).
  rewrite step_unfold. cbn [procs tree lookup list_lookup].
  cbn [run_alone]. destruct (proc_step basedir p fs) as [p' fs'] eqn:E.
  cbn. apply IH.
Qed.

(** The writer on its own: in a tree in which [current] is absent or
    leads to a whole entry, and with a new identifier, [_cache] returns
    and leaves [current] leading to a new entry whose five files hold the
    canonical text, the two streams, the return code in decimal, and, as
    timestamp, the clock as [_cache] itself reads it (the argument [t]
    appears nowhere). *)
Theorem cache_persists_entry (h r : string) (t : float) (stdout stderr : string)
    (returncode : Z) (w : World) :
  let c := call_of env r t stdout stderr returncode w in
  let result := _cache env h r t stdout stderr returncode w in
  good_start (_hash2dir env h) (fs w) [c] = true ->
  fst result = Ok tt
  /\ fs (snd result) !! current (_hash2dir env h) = Some (Symlink (uuid1 env (uuid_calls w)))
  /\ written (_hash2dir env h) (fs (snd result)) (uuid1 env (uuid_calls w))
       (fun f => match f with
                 | Ft => fmt_6f (clock env (time_calls w))
                 | Fr => r
                 | Fstdout => stdout
                 | Fstderr => stderr
                 | Freturncode => fmt_d returncode
                 end).
Proof.
  intros c result Hstart.
  destruct (cache_is_sixteen_calls h r t stdout stderr returncode w) as [Hfs Hout].
  fold c in Hfs, Hout. fold result in Hfs, Hout.
  pose proof (race_winner (_hash2dir env h) (fs w) [c] (repeat 0%nat 16) Hstart) as Hdone.
  pose proof (race_all_done (_hash2dir env h) (fs w) [c] (repeat 0%nat 16) Hstart) as Hall.
  unfold start_system in Hdone, Hall. cbn [map] in Hdone, Hall.
  rewrite run_single in Hdone, Hall. rewrite <- Hfs in Hdone.
  assert (Hfin : all_done {| tree := snd (run_alone (_hash2dir env h) 16 (start c) (fs w));
                             procs := [fst (run_alone (_hash2dir env h) 16 (start c) (fs w))] |}
                 = true).
  { apply Hall. intros i Hi. simpl in Hi. assert (i = 0%nat) by lia. subst i.
    vm_compute. lia. }
  destruct (Hdone Hfin ltac:(discriminate)) as (c' & Hin & Hlink & Hwr).
  apply list_elem_of_singleton in Hin. subst c'.
  split; [|split].
  - rewrite all_done_spec in Hfin. rewrite (Hfin 0%nat _ eq_refl) in Hout.
    simpl in Hout. congruence.
  - exact Hlink.
  - destruct Hwr as [Hd Hf]. split; [exact Hd|]. intros f. rewrite Hf. now destruct f.
Qed.

End Refines.

Section RaceRuns.

#[local] Existing Instance RefBuiltins.

(** C3 (witness): two processes taking turns in a cache that holds an
    older entry. *)
Lemma racing_writers_witness :
  let basedir := Examples.dir_echo in
  let fs0 := Examples.race_tree in
  let calls := [Examples.call_a; Examples.call_b] in
  let s := run_schedule basedir Examples.alternating (start_system fs0 calls) in
  good_start basedir fs0 calls = true
  /\ ((tree s !! current basedir = None /\ fs0 !! current basedir = None)
      \/ (exists target text,
            fs0 !! current basedir = Some (Symlink target)
            /\ written basedir fs0 target text
            /\ tree s !! current basedir = Some (Symlink target)
            /\ written basedir (tree s) target text
            /\ forall q, entry basedir target `prefix_of` q -> tree s !! q = fs0 !! q)
      \/ (exists c, c ∈ calls
            /\ tree s !! current basedir = Some (Symlink (c_uuid c))
            /\ written basedir (tree s) (c_uuid c) (field_text c)))
  /\ (forall i p e, procs s !! i = Some p -> p_pc p <> PRaised e)
  /\ (all_done s = true -> calls <> [] ->
      exists c, c ∈ calls
        /\ tree s !! current basedir = Some (Symlink (c_uuid c))
        /\ written basedir (tree s) (c_uuid c) (field_text c))
  /\ ((forall i, (i < length calls)%nat ->
         (16 <= count_occ Nat.eq_dec Examples.alternating i)%nat) ->
      all_done s = true).
Proof.
  intros basedir fs0 calls s.
  assert (H : good_start basedir fs0 calls = true) by (vm_compute; reflexivity).
  split; [exact H|].
  exact (racing_writers_leave_a_whole_entry Examples.dir_echo Examples.race_tree
           [Examples.call_a; Examples.call_b] Examples.alternating H).
Defined.

(** The same run, computed: both are done, [current] leads to the entry
    of the process that renamed last, and the entry of the other is
    still there, reachable no more. *)
Example racing_writers_run :
  let s := run_schedule Examples.dir_echo Examples.alternating
             (start_system Examples.race_tree [Examples.call_a; Examples.call_b]) in
  all_done s = true
  /\ tree s !! current Examples.dir_echo = Some (Symlink Examples.uuid_b)
  /\ tree s !! entry_file Examples.dir_echo Examples.uuid_b Fstdout = Some (File "bar")
  /\ tree s !! entry Examples.dir_echo Examples.uuid_a = Some Dir
  /\ tree s !! entry Examples.dir_echo Examples.uuid_c = None.
Proof. vm_compute. repeat split; reflexivity. Qed.

End RaceRuns.

(* ===================================================================== *)
(** * Theorems: an argument list and the words the shell reads *)
(* ===================================================================== *)

Section WordFacts.

Lemma class_not_special (c : ascii) :
  unquote_class c = true ->
  Ascii.eqb c " " = false /\ Ascii.eqb c squote = false
  /\ Ascii.eqb c backslash = false /\ Ascii.eqb c newline = false.
Proof.
  destruct c as [[] [] [] [] [] [] [] []]; vm_compute; intros H;
    try discriminate H; repeat split.
Qed.

Lemma class_or_not (c : ascii) : unquote_class c = true \/ unquote_class c = false.
Proof. destruct (unquote_class c); auto. Qed.

Lemma push_not_nil (c : ascii) (o : option (list string)) (ws : list string) :
  push c <$> o = Some ws -> ws <> [].
Proof. destruct o as [[|w l]|]; simpl; intros H; try discriminate H; now simplify_eq. Qed.

(** A word that has begun is part of the result. *)
Lemma sh_split_in_word (s : string) :
  forall m b ws,
    (m <> InSingle -> b = true) ->
    sh_split m b s = Some ws -> ws <> [].
Proof.
  induction s as [|c s IH]; intros m b ws Hb; simpl.
  - destruct m; try discriminate. rewrite Hb by discriminate. intros [= <-]. discriminate.
  - destruct m.
    + rewrite Hb by discriminate.
      destruct (Ascii.eqb c " ").
      { destruct (sh_split Unquoted false s); simpl; [|discriminate].
        intros [= <-]. discriminate. }
      destruct (Ascii.eqb c squote); [apply IH; reflexivity|].
      destruct (Ascii.eqb c backslash); [apply IH; reflexivity|].
      destruct (unquote_class c); [apply push_not_nil | discriminate].
    + destruct (Ascii.eqb c squote); [apply IH; reflexivity | apply push_not_nil].
    + rewrite Hb by discriminate.
      destruct (Ascii.eqb c newline); [apply IH; reflexivity | apply push_not_nil].
Qed.

(** On one word the two readings agree. *)
Lemma sh_split_one_word (s : string) :
  forall m w, sh_scan m s = Some w -> sh_split m true s = Some [w].
Proof.
  induction s as [|c s IH]; intros m w; simpl.
  - destruct m; try discriminate. now intros [= <-].
  - destruct m.
    + destruct (class_or_not c) as [Hc|Hc].
      * destruct (class_not_special c Hc) as (E1 & E2 & E3 & _).
        rewrite E1, E2, E3, Hc.
        destruct (sh_scan Unquoted s) as [w'|] eqn:Hw; [|discriminate].
        intros [= <-]. now rewrite (IH Unquoted w' Hw).
      * rewrite Hc. destruct (Ascii.eqb c squote) eqn:E2.
        { apply Ascii.eqb_eq in E2. subst c. simpl. apply IH. }
        destruct (Ascii.eqb c backslash) eqn:E3; [|discriminate].
        apply Ascii.eqb_eq in E3. subst c. simpl. apply IH.
    + destruct (Ascii.eqb c squote); [apply IH|].
      destruct (sh_scan InSingle s) as [w'|] eqn:Hw; [|discriminate].
      intros [= <-]. now rewrite (IH InSingle w' Hw).
    + destruct (Ascii.eqb c newline); [apply IH|].
      destruct (sh_scan Unquoted s) as [w'|] eqn:Hw; [|discriminate].
      intros [= <-]. now rewrite (IH Unquoted w' Hw).
Qed.

Lemma prepend_empty (o : option (list string)) :
  (forall ws, o = Some ws -> ws <> []) -> prepend "" <$> o = o.
Proof.
  destruct o as [[|w l]|]; simpl; intros H; [now destruct (H [] eq_refl) | | ]; reflexivity.
Qed.

Lemma push_prepend (c : ascii) (s : string) (o : option (list string)) :
  push c <$> (prepend s <$> o) = prepend (String c s) <$> o.
Proof. destruct o as [[|w l]|]; reflexivity. Qed.

(** Plain characters are read as they are. *)
Lemma sh_split_plain (s rest : string) :
  plain s = true ->
  sh_split Unquoted true (s +:+ rest) = prepend s <$> sh_split Unquoted true rest.
Proof.
  induction s as [|c s IH]; intros Hp; sapp.
  - symmetry. apply prepend_empty. intros ws. apply sh_split_in_word. reflexivity.
  - simpl in Hp. apply andb_prop in Hp as [Hc Hs].
    destruct (class_not_special c Hc) as (E1 & E2 & E3 & _).
    simpl. rewrite E1, E2, E3, Hc, (IH Hs). apply push_prepend.
Qed.

Lemma sh_split_plain_start (s rest : string) (b : bool) :
  plain s = true -> s <> "" ->
  sh_split Unquoted b (s +:+ rest) = prepend s <$> sh_split Unquoted true rest.
Proof.
  destruct s as [|c s]; [congruence|]. intros Hp _. sapp.
  simpl in Hp. apply andb_prop in Hp as [Hc Hs].
  destruct (class_not_special c Hc) as (E1 & E2 & E3 & _).
  simpl. rewrite E1, E2, E3, Hc, (sh_split_plain s rest Hs). apply push_prepend.
Qed.

(** Inside a quotation the escaped text reads back as the text. *)
Lemma sh_split_escaped (text rest : string) :
  sh_split InSingle true (replace_char squote squote_escape text +:+ String squote rest)
  = prepend text <$> sh_split Unquoted true rest.
Proof.
  induction text as [|a t IH]; simpl.
  - symmetry. apply prepend_empty. intros ws. apply sh_split_in_word. reflexivity.
  - destruct (Ascii.eqb a squote) eqn:Ea.
    + apply Ascii.eqb_eq in Ea. subst a. simpl. sapp. simpl.
      rewrite IH. apply push_prepend.
    + simpl. rewrite Ea, IH. apply push_prepend.
Qed.

Lemma sh_split_quoted (text rest : string) (b : bool) :
  sh_split Unquoted b (shquote text +:+ rest)
  = prepend text <$> sh_split Unquoted true rest.
Proof.
  unfold shquote. sapp. rewrite append_assoc. sapp. simpl.
  apply sh_split_escaped.
Qed.

(** What [re_unquote] lets through: plain text, or plain text and one
    newline at the very end. *)
Lemma re_unquote_rest_plain (s : string) :
  re_unquote_rest s = true -> ends_with_newline s = false -> plain s = true.
Proof.
  induction s as [|c s IH]; [reflexivity|]. simpl.
  destruct (unquote_class c) eqn:Hc.
  - intros Hr He. simpl. apply IH; [exact Hr|].
    destruct s; [reflexivity | exact He].
  - intros Hr. apply andb_prop in Hr as [Hn Hs].
    apply String.eqb_eq in Hs. subst s. now rewrite Hn.
Qed.

Lemma re_unquote_match_plain (s : string) :
  re_unquote_match s = true -> ends_with_newline s = false ->
  plain s = true /\ s <> "".
Proof.
  destruct s as [|c s]; [discriminate|]. simpl.
  intros H He. apply andb_prop in H as [Hc Hr]. split; [|discriminate].
  rewrite Hc. simpl. apply re_unquote_rest_plain; [exact Hr|].
  destruct s; [|exact He]. reflexivity.
Qed.

(** The loop of [argv2sh] appends to what it has. *)
Lemma argv2sh_loop_spaced (argv : list string) :
  forall acc, fold_left argv2sh_body argv acc = acc +:+ spaced argv.
Proof.
  induction argv as [|a l IH]; intros acc; simpl.
  - now rewrite append_empty_r.
  - rewrite IH. unfold argv2sh_body, quoted_arg.
    destruct (re_unquote_match a); now rewrite !append_assoc.
Qed.

Lemma sh_split_arg (a rest : string) (b : bool) :
  (re_unquote_match a = true -> ends_with_newline a = false) ->
  sh_split Unquoted b (quoted_arg a +:+ rest)
  = prepend a <$> sh_split Unquoted true rest.
Proof.
  intros Ha. unfold quoted_arg. destruct (re_unquote_match a) eqn:Hm.
  - destruct (re_unquote_match_plain a Hm (Ha eq_refl)) as [Hp Hne].
    now apply sh_split_plain_start.
  - apply sh_split_quoted.
Qed.

Lemma sh_split_spaced (argv : list string) :
  Forall (fun a => re_unquote_match a = true -> ends_with_newline a = false) argv ->
  sh_split Unquoted true (spaced argv) = Some ("" :: argv)
  /\ sh_split Unquoted false (spaced argv) = Some argv.
Proof.
  induction 1 as [|a l Ha Hl [IH1 IH2]]; [split; reflexivity|].
  simpl. sapp. simpl.
  rewrite (sh_split_arg a (spaced l) false Ha), IH1. simpl.
  now rewrite append_empty_r.
Qed.

End WordFacts.

(** X1: the shell code that [argv2sh] makes is read by the shell as the
    arguments it was made from, word for word, provided no argument is
    text of the unquoted class that ends in a newline (such an argument
    matches [re_unquote] and is left unquoted, see below).  An argument
    that is empty, or holds blanks, quotes or newlines elsewhere, comes
    back as it was. *)
Theorem argv2sh_words_roundtrip (argv : list string) :
  Forall (fun a => re_unquote_match a = true -> ends_with_newline a = false) argv ->
  exists sh, argv2sh argv = Ok sh /\ sh_words sh = Some argv.
Proof.
  intros Hargs. exists (slice_from 1 (argv2sh_loop argv)). split; [reflexivity|].
  unfold argv2sh_loop. rewrite argv2sh_loop_spaced. sapp.
  destruct Hargs as [|a l Ha Hl]; [reflexivity|].
  simpl. sapp. simpl. unfold sh_words.
  rewrite (sh_split_arg a (spaced l) false Ha).
  destruct (sh_split_spaced l Hl) as [-> _]. simpl. now rewrite append_empty_r.
Qed.

(** X1 (witness): a command with a quote, a blank and an empty argument. *)
Lemma argv2sh_words_roundtrip_witness :
  Forall (fun a => re_unquote_match a = true -> ends_with_newline a = false)
    ["/bin/echo"; "don't fail"; ""; "-n"]
  /\ exists sh, argv2sh ["/bin/echo"; "don't fail"; ""; "-n"] = Ok sh
                /\ sh_words sh = Some ["/bin/echo"; "don't fail"; ""; "-n"].
Proof.
  assert (H : Forall (fun a => re_unquote_match a = true -> ends_with_newline a = false)
                ["/bin/echo"; "don't fail"; ""; "-n"]).
  { repeat constructor. }
  split; [exact H|]. exact (argv2sh_words_roundtrip _ H).
Defined. 

Section NewlineFacts.

Lemma re_unquote_rest_newline (s : string) :
  plain s = true -> re_unquote_rest (s +:+ String newline "") = true.
Proof.
  induction s as [|c s IH]; [reflexivity|]. simpl. sapp. simpl.
  intros H. apply andb_prop in H as [-> Hs]. now apply IH.
Qed.

Lemma string_app_inv_tail (a b c : string) : a +:+ c = b +:+ c -> a = b.
Proof.
  revert b. induction a as [|x a IH]; intros [|y b]; sapp; intros H.
  - reflexivity.
  - apply (f_equal String.length) in H. simpl in H. rewrite length_append in H. lia.
  - apply (f_equal String.length) in H. simpl in H. rewrite length_append in H. lia.
  - injection H as -> H. f_equal. now apply IH.
Qed.

Lemma string_app_inv_head (a b c : string) : a +:+ b = a +:+ c -> b = c.
Proof.
  induction a as [|x a IH]; sapp; intros H; [exact H|].
  injection H as H. now apply IH.
Qed.

Lemma shquote_inj (a b : string) : shquote a = shquote b -> a = b.
Proof.
  intros H. apply (f_equal sh_word_value) in H.
  rewrite !shquote_roundtrip in H. congruence.
Qed.

End NewlineFacts.

(** X2: an argument made of characters of the unquoted class followed by
    one newline matches [re_unquote] (its [$] also matches just before a
    final newline), so [argv2sh] leaves the argument unquoted: the
    newline stands bare in the shell code, and the shell does not read
    the code back as that argument. *)
Theorem argv2sh_bare_newline (s : string) :
  plain s = true -> s <> "" ->
  re_unquote_match (s +:+ String newline "") = true
  /\ argv2sh [s +:+ String newline ""] = Ok (s +:+ String newline "")
  /\ sh_words (s +:+ String newline "") = None.
Proof.
  intros Hp Hne.
  assert (Hm : re_unquote_match (s +:+ String newline "") = true).
  { destruct s as [|c s]; [congruence|]. sapp. simpl in *.
    apply andb_prop in Hp as [-> Hs]. now apply re_unquote_rest_newline. }
  split; [exact Hm|]. split.
  - unfold argv2sh, argv2sh_loop. simpl. unfold argv2sh_body. rewrite Hm. reflexivity.
  - unfold sh_words. now rewrite (sh_split_plain_start s _ false Hp Hne).
Qed.

(** X2 (witness): [ls] followed by a newline. *)
Lemma argv2sh_bare_newline_witness :
  let s := "ls" in
  plain s = true /\ s <> ""
  /\ re_unquote_match (s +:+ String newline "") = true
  /\ argv2sh [s +:+ String newline ""] = Ok (s +:+ String newline "")
  /\ sh_words (s +:+ String newline "") = None.
Proof.
  split; [reflexivity|]. split; [discriminate|].
  exact (argv2sh_bare_newline "ls" eq_refl ltac:(discriminate)).
Defined. 

(** X3: the text that is hashed tells the inputs apart: for one command,
    two calls of [_hash] that return the same text were given the same
    input string, or both none (the quoted input can be read back from
    the text, and a text with an input is longer than the command). *)
Theorem hash_text_tells_inputs_apart (sh : command) (in1 in2 : option string)
    (h1 h2 r : string) :
  _hash sh in1 = Ok (h1, r) -> _hash sh in2 = Ok (h2, r) -> in1 = in2.
Proof.
  unfold _hash.
  destruct (match sh with ArgList argv => argv2sh argv | ShCode s => Ok s end)
    as [r0|e]; [|discriminate].
  destruct in1 as [i1|], in2 as [i2|]; intros [= _ H1] [= _ H2].
  - rewrite <- H2 in H1. apply string_app_inv_head in H1.
    apply string_app_inv_tail in H1. f_equal. now apply shquote_inj.
  - subst r0. exfalso. apply (f_equal String.length) in H1.
    rewrite !length_append in H1. simpl in H1. lia.
  - subst r0. exfalso. apply (f_equal String.length) in H2.
    rewrite !length_append in H2. simpl in H2. lia.
  - reflexivity.
Qed.

(** X3 (witness): [cat] with the input [foo bar]. *)
Lemma hash_text_tells_inputs_apart_witness :
  let r := "echo 'foo bar' | cat" in
  _hash (ArgList ["cat"]) (Some "foo bar") = Ok (Sha1.hexdigest r, r)
  /\ Some "foo bar" = Some "foo bar".
Proof.
  split; [reflexivity|].
  exact (hash_text_tells_inputs_apart (ArgList ["cat"]) (Some "foo bar") (Some "foo bar")
           (Sha1.hexdigest "echo 'foo bar' | cat") (Sha1.hexdigest "echo 'foo bar' | cat")
           "echo 'foo bar' | cat" eq_refl eq_refl).
Defined.

(* ===================================================================== *)
(** * Theorems: more on the reader and the orchestrator *)
(* ===================================================================== *)

Section ReaderMore.

Context {B : Builtins} (env : Env).

Local Open Scope py_scope.

(** A result of the reader, in full: a turn of the loop was allowed, the
    entry was opened, both of its numbers were read, and the clock was
    read once. *)
Lemma reader_ok_details (h : string) (maxage : pynum) (w w' : World)
    (res : string * string * Z) :
  _cached_runsh env h maxage w = (Ok res, w') ->
  0 < CLICACHE_MAX_RETRIES (settings env)
  /\ w' = tick w
  /\ exists hs t returncode,
       current_entry env (fs w) h = Some hs
       /\ py_float (f_t hs) = Some t
       /\ py_gt (PrimFloat.sub (clock env (time_calls w)) t) maxage = false
       /\ py_int (f_returncode hs) = Some returncode
       /\ res = (f_stdout hs, f_stderr hs, returncode).
Proof.
  rewrite reader_cases. unfold current_entry.
  destruct (resolve_current env (fs w) h) as [c|e]; [|discriminate].
  rewrite get_handles_cases.
  destruct (Z.ltb_spec 0 (CLICACHE_MAX_RETRIES (settings env))) as [Hpos|]; [|discriminate].
  destruct c as [c|]; [|discriminate].
  destruct (open_fields (fs w) (Some c)) as [hs|e]; [|discriminate].
  rewrite examine_cases. destruct (py_float (f_t hs)) as [t|] eqn:Ht; [|discriminate].
  destruct (py_gt _ maxage) eqn:Hgt; [discriminate|].
  destruct (py_int (f_returncode hs)) as [rc|] eqn:Hrc; [|discriminate].
  intros [= <- <-]. split; [exact Hpos|]. split; [reflexivity|].
  exists hs, t, rc. auto.
Qed.

(** Reading an entry that is young enough. *)
Lemma reader_hit (h : string) (maxage : pynum) (w : World) (hs : handles)
    (t : float) (returncode : Z) :
  0 < CLICACHE_MAX_RETRIES (settings env) ->
  current_entry env (fs w) h = Some hs ->
  py_float (f_t hs) = Some t ->
  py_gt (PrimFloat.sub (clock env (time_calls w)) t) maxage = false ->
  py_int (f_returncode hs) = Some returncode ->
  _cached_runsh env h maxage w = (Ok (f_stdout hs, f_stderr hs, returncode), tick w).
Proof.
  intros Hpos Hcur Ht Hgt Hrc.
  now rewrite (reader_on_entry env h maxage w hs Hpos Hcur), examine_cases, Ht, Hgt, Hrc.
Qed.

(** What [runsh] returns, it has from a read of the cache made in a
    world whose tree is the final one. *)
Lemma runsh_ok_read (sh : command) (inputstr : option string) (maxage : pynum)
    (w w' : World) (res : string * string * Z) (h r : string) :
  _hash sh inputstr = Ok (h, r) ->
  runsh env sh inputstr maxage w = (Ok res, w') ->
  exists m w0, _cached_runsh env h m w0 = (Ok res, w').
Proof.
  intros Hh. rewrite (runsh_cases env sh inputstr maxage w h r Hh).
  destruct (_cached_runsh env h maxage w) as [[res0|e] w0] eqn:Hfirst.
  - intros [= <- <-]. eauto.
  - destruct e; try discriminate. rewrite refill_cases.
    destruct (popen env (length (runs w0)) sh inputstr) as [[[so se] rc]|e];
      [|discriminate].
    destruct (_cache env h r _ so se rc _) as [[[]|e] w1]; [|discriminate].
    eauto.
Qed.

(** The tree shows the entry that [written] describes. *)
Lemma written_current_entry (tree : FS) (h id : string) (text : field -> string) :
  tree !! current (_hash2dir env h) = Some (Symlink id) ->
  written (_hash2dir env h) tree id text ->
  current_entry env tree h
  = Some {| f_t := text Ft; f_r := text Fr; f_stdout := text Fstdout;
            f_stderr := text Fstderr; f_returncode := text Freturncode |}.
Proof.
  intros Hlink [_ Hfiles]. unfold current_entry, resolve_current.
  unfold current in Hlink. rewrite (proj2 (os_readlink_inr _ _ _) Hlink).
  unfold open_fields, open_field, open_r.
  pose proof (Hfiles Ft) as H1. pose proof (Hfiles Fr) as H2.
  pose proof (Hfiles Fstdout) as H3. pose proof (Hfiles Fstderr) as H4.
  pose proof (Hfiles Freturncode) as H5.
  unfold entry_file in *. simpl in *.
  rewrite <- !app_assoc. simpl. now rewrite H1, H2, H3, H4, H5.
Qed.

Ltac each_call :=
  match goal with
  | |- context [os_makedirs ?a ?b] => destruct (os_makedirs a b) as [? [[]|]] eqn:?
  | |- context [os_mkdir ?a ?b] => destruct (os_mkdir a b) as [[]|?] eqn:?
  | |- context [open_w ?a ?b] => destruct (open_w a b) as [[]|?] eqn:?
  | |- context [os_symlink ?a ?b ?c] => destruct (os_symlink a b c) as [[]|?] eqn:?
  | |- context [os_readlink ?a ?b] => destruct (os_readlink a b) as [[]|?] eqn:?
  | |- context [os_rename ?a ?b ?c] => destruct (os_rename a b c) as [[]|?] eqn:?
  end.

(** A call of [_cache] that returns has read the clock once and drawn
    one identifier. *)
Lemma cache_ok_counts (h r : string) (t : float) (stdout stderr : string)
    (returncode : Z) (w : World) :
  fst (_cache env h r t stdout stderr returncode w) = Ok tt ->
  time_calls (snd (_cache env h r t stdout stderr returncode w)) = S (time_calls w)
  /\ uuid_calls (snd (_cache env h r t stdout stderr returncode w)) = S (uuid_calls w).
Proof.
  unfold _cache, open_write, bind, try_except, os_call, io_call, modify_fs,
    read_old_canonical, uuid_uuid1, time_time, ret, tick, set_fs.
  cbn.
  repeat (each_call; cbn; try discriminate; try (intros _; split; reflexivity)).
Qed.

End ReaderMore.

Section OrchestratorMore.

Context {B : Builtins} (env : Env).

(** X4: a read of the cache changes nothing: the tree is as it was, no
    subprocess is started, no identifier is drawn, and the clock is read
    once at most. *)
Theorem reader_changes_nothing (h : string) (maxage : pynum) (w : World) :
  let w' := snd (_cached_runsh env h maxage w) in
  fs w' = fs w /\ runs w' = runs w /\ uuid_calls w' = uuid_calls w
  /\ (w' = w \/ w' = tick w).
Proof.
  intros w'. subst w'. rewrite reader_cases.
  destruct (resolve_current env (fs w) h) as [c|e]; [|simpl; auto].
  destruct (get_handles env (fun _ => fs w) c) as [hs|e]; [|simpl; auto].
  rewrite examine_cases. destruct (py_float (f_t hs)); [|simpl; auto].
  destruct (py_gt _ maxage); [simpl; auto|].
  destruct (py_int (f_returncode hs)); simpl; auto.
Qed.

(** X5: a result that [runsh] has returned is served again: in the
    world that the call leaves, [current] leads to an entry whose
    timestamp parses, and a second call for the same command, with a
    [maxage] that this entry's age does not exceed, returns the same
    result from the cache, reading the clock once and starting no
    subprocess. *)
Theorem runsh_serves_again (sh : command) (inputstr : option string)
    (maxage maxage' : pynum) (w : World) (res : string * string * Z) (h r : string) :
  _hash sh inputstr = Ok (h, r) ->
  fst (runsh env sh inputstr maxage w) = Ok res ->
  let w' := snd (runsh env sh inputstr maxage w) in
  exists hs t,
    current_entry env (fs w') h = Some hs
    /\ py_float (f_t hs) = Some t
    /\ (py_gt (PrimFloat.sub (clock env (time_calls w')) t) maxage' = false ->
        runsh env sh inputstr maxage' w' = (Ok res, tick w')).
Proof.
  intros Hh Hfst w'.
  assert (Hrun : runsh env sh inputstr maxage w = (Ok res, w')).
  { subst w'. rewrite <- Hfst. apply surjective_pairing. }
  clearbody w'. clear Hfst.
  destruct (runsh_ok_read env sh inputstr maxage w w' res h r Hh Hrun) as (m & w0 & Hread).
  destruct (reader_ok_details env h m w0 w' res Hread)
    as (Hpos & -> & hs & t & rc & Hcur & Ht & _ & Hrc & ->).
  exists hs, t. split; [exact Hcur|]. split; [exact Ht|].
  intros Hgt. rewrite (runsh_cases env sh inputstr maxage' (tick w0) h r Hh).
  now rewrite (reader_hit env h maxage' (tick w0) hs t rc Hpos Hcur Ht Hgt Hrc).
Qed.

(** X6: with [CLICACHE_MAX_RETRIES] at zero or below, the loop that
    opens the files takes no turn: wherever [current] can be read the
    reader raises its internal error, and [runsh] never returns a
    result, whatever the cache holds and whatever the command prints. *)
Theorem no_turn_no_result (sh : command) (inputstr : option string)
    (maxage : pynum) (w : World) :
  CLICACHE_MAX_RETRIES (settings env) <= 0 ->
  (forall h c, resolve_current env (fs w) h = Ok c ->
     _cached_runsh env h maxage w = (Raise err_no_handle, w))
  /\ forall res, fst (runsh env sh inputstr maxage w) <> Ok res.
Proof.
  intros Hle. split.
  - intros h c Hres. rewrite reader_cases, Hres, get_handles_cases.
    now destruct (Z.ltb_spec 0 (CLICACHE_MAX_RETRIES (settings env))); [lia|].
  - intros res Hrun.
    destruct (_hash sh inputstr) as [[h r]|e] eqn:Hh.
    + destruct (runsh env sh inputstr maxage w) as [o w'] eqn:Hr. simpl in Hrun. subst o.
      destruct (runsh_ok_read env sh inputstr maxage w w' res h r Hh Hr) as (m & w0 & Hread).
      destruct (reader_ok_details env h m w0 w' res Hread) as (Hpos & _). lia.
    + unfold runsh, bind, lift in Hrun. rewrite Hh in Hrun. discriminate Hrun.
Qed.

(** X7: when [current] is there but cannot be read as a link (it is a
    file or a directory, or [basedir] is not a directory), the handler
    of the reader lets the error pass without raising, [canonical] stays
    unbound, and the first [open] raises [UnboundLocalError]; that is no
    [CacheMiss], so [runsh] raises it too, without running the command
    and without touching the cache. *)
Theorem current_that_is_no_link (h : string) (maxage : pynum) (w : World) (e : errno) :
  0 < CLICACHE_MAX_RETRIES (settings env) ->
  os_readlink (fs w) (_hash2dir env h ++ ["current"]) = inl e ->
  e <> ENOENT ->
  _cached_runsh env h maxage w = (Raise (UnboundLocalError "canonical"), w)
  /\ forall sh inputstr r, _hash sh inputstr = Ok (h, r) ->
       runsh env sh inputstr maxage w = (Raise (UnboundLocalError "canonical"), w).
Proof.
  intros Hpos Hlink He.
  assert (Hread : _cached_runsh env h maxage w = (Raise (UnboundLocalError "canonical"), w)).
  { rewrite reader_cases. unfold resolve_current. rewrite Hlink.
    destruct e; try congruence; rewrite get_handles_cases;
      (destruct (Z.ltb_spec 0 (CLICACHE_MAX_RETRIES (settings env))); [reflexivity|lia]). }
  split; [exact Hread|].
  intros sh inputstr r Hh. now rewrite (runsh_cases env sh inputstr maxage w h r Hh), Hread.
Qed.

(** X8: what [_cache] writes, the reader returns.  In a tree in which
    [current] is absent or leads to a whole entry, and with a new
    identifier, [_cache] returns; and any later read of the tree it
    leaves returns the stdout, the stderr and the return code that were
    given to [_cache], provided the two texts it formatted read back
    (['%d'] through [int], ['%.6f'] through [float]) and the age, counted
    from the time [_cache] itself stamped, does not exceed [maxage]. *)
Theorem cache_then_read (h r : string) (t : float) (stdout stderr : string)
    (returncode : Z) (w : World) (maxage : pynum) (w1 : World) (stamp : float) :
  let result := _cache env h r t stdout stderr returncode w in
  good_start (_hash2dir env h) (fs w)
    [call_of env r t stdout stderr returncode w] = true ->
  0 < CLICACHE_MAX_RETRIES (settings env) ->
  py_float (fmt_6f (clock env (time_calls w))) = Some stamp ->
  py_int (fmt_d returncode) = Some returncode ->
  fs w1 = fs (snd result) ->
  py_gt (PrimFloat.sub (clock env (time_calls w1)) stamp) maxage = false ->
  fst result = Ok tt
  /\ _cached_runsh env h maxage w1 = (Ok (stdout, stderr, returncode), tick w1).
Proof.
  intros result Hstart Hpos Hstamp Hrc Hfs Hage.
  destruct (cache_persists_entry env h r t stdout stderr returncode w Hstart)
    as (Hok & Hlink & Hwr).
  split; [exact Hok|].
  fold result in Hlink, Hwr. rewrite <- Hfs in Hlink, Hwr.
  pose proof (written_current_entry env (fs w1) h _ _ Hlink Hwr) as Hcur.
  now rewrite (reader_hit env h maxage w1 _ stamp returncode Hpos Hcur Hstamp Hage Hrc).
Qed.

(** X9: [runsh] on a miss returns what the command printed.  When the
    first read misses, the command runs and ends, and the writer finds
    the tree as above, [runsh] returns the stdout, the stderr and the
    return code of that run (read back from the cache), provided the
    formatted return code and timestamp read back and the time between
    the stamp and the second read does not exceed [sys.maxint]. *)
Theorem runsh_miss_returns_the_run (sh : command) (inputstr : option string)
    (maxage : pynum) (w w1 : World) (h r msg : string)
    (stdout stderr : string) (returncode : Z) (stamp : float) :
  _hash sh inputstr = Ok (h, r) ->
  _cached_runsh env h maxage w = (Raise (CacheMiss msg), w1) ->
  popen env (length (runs w1)) sh inputstr = Ok (stdout, stderr, returncode) ->
  good_start (_hash2dir env h) (fs w1)
    [call_of env r (clock env (time_calls w1)) stdout stderr returncode
       (tick (record_run w1 sh inputstr))] = true ->
  0 < CLICACHE_MAX_RETRIES (settings env) ->
  py_float (fmt_6f (clock env (S (time_calls w1)))) = Some stamp ->
  py_int (fmt_d returncode) = Some returncode ->
  py_gt (PrimFloat.sub (clock env (S (S (time_calls w1)))) stamp) (PyInt sys_maxint) = false ->
  fst (runsh env sh inputstr maxage w) = Ok (stdout, stderr, returncode)
  /\ runs (snd (runsh env sh inputstr maxage w)) = runs w ++ [(sh, inputstr)].
Proof.
  intros Hh Hmiss Hrun Hstart Hpos Hstamp Hrc Hage.
  rewrite (runsh_cases env sh inputstr maxage w h r Hh), Hmiss.
  pose proof (keeps_runs_reader env h maxage w) as Hk. rewrite Hmiss in Hk. simpl in Hk.
  split; [|now rewrite refill_runs, Hk].
  rewrite refill_cases, Hrun.
  set (w2 := tick (record_run w1 sh inputstr)) in *.
  destruct (cache_persists_entry env h r (clock env (time_calls w1)) stdout stderr
              returncode w2 Hstart) as (Hok & Hlink & Hwr).
  destruct (_cache env h r (clock env (time_calls w1)) stdout stderr returncode w2)
    as [o w3] eqn:Hc.
  simpl in Hok, Hlink, Hwr. subst o.
  pose proof (written_current_entry env (fs w3) h _ _ Hlink Hwr) as Hcur.
  assert (Htime : time_calls w3 = S (S (time_calls w1))).
  { pose proof (cache_ok_counts env h r (clock env (time_calls w1)) stdout stderr
                  returncode w2) as Hn.
    rewrite Hc in Hn. simpl in Hn. destruct (Hn eq_refl) as [Hn1 _].
    rewrite Hn1. reflexivity. }
  rewrite (reader_hit env h (PyInt sys_maxint) w3 _ stamp returncode Hpos Hcur); auto.
  now rewrite Htime.
Qed.

End OrchestratorMore.

Section OrchestratorMoreRuns.

#[local] Existing Instance RefBuiltins.

(** X5 (witness): [echo foo] twice in a cache that starts empty. *)
Lemma runsh_serves_again_witness :
  let env := Examples.ex_env [100%float; 101%float; 102%float; 103%float] 104%float
               Examples.uuid_a in
  let w := Examples.world_of (∅ : FS) in
  let sh := ShCode "echo foo" in
  let w' := snd (runsh env sh None (PyInt 10) w) in
  fst (runsh env sh None (PyInt 10) w) = Ok ("foo", "", 0)
  /\ exists hs t,
       current_entry env (fs w') Examples.h_echo = Some hs
       /\ ref_float (f_t hs) = Some t
       /\ (py_gt (PrimFloat.sub (clock env (time_calls w')) t) (PyInt 10) = false ->
           runsh env sh None (PyInt 10) w' = (Ok ("foo", "", 0), tick w')).
Proof.
  intros env w sh w'.
  assert (H : fst (runsh env sh None (PyInt 10) w) = Ok ("foo", "", 0))
    by (vm_compute; reflexivity).
  split; [exact H|].
  exact (runsh_serves_again (B := RefBuiltins) env sh None (PyInt 10) (PyInt 10) w
           ("foo", "", 0) Examples.h_echo "echo foo" eq_refl H).
Defined.

(** X6 (witness): the settings with no turn allowed, in an empty cache. *)
Lemma no_turn_no_result_witness :
  let env := {| settings := {| CLICACHE_DIR := [".clicache"]; CLICACHE_MAX_RETRIES := 0 |};
                clock := fun _ => 100%float;
                uuid1 := fun _ => Examples.uuid_a;
                popen := fun _ _ _ => Ok ("foo", "", 0) |} in
  let w := Examples.world_of (∅ : FS) in
  CLICACHE_MAX_RETRIES (settings env) <= 0
  /\ (forall h c, resolve_current env (fs w) h = Ok c ->
        _cached_runsh env h (PyInt 10) w = (Raise err_no_handle, w))
  /\ forall res, fst (runsh env (ShCode "echo foo") None (PyInt 10) w) <> Ok res.
Proof.
  intros env w. split; [simpl; lia|].
  exact (no_turn_no_result (B := RefBuiltins) env (ShCode "echo foo") None (PyInt 10) w
           ltac:(simpl; lia)).
Defined.

(** X7 (witness): [current] is a directory. *)
Lemma current_that_is_no_link_witness :
  let env := Examples.ex_env [] 100%float Examples.uuid_a in
  let w := Examples.world_of
             (list_to_map [(Examples.dir_echo, Dir);
                           (Examples.dir_echo ++ ["current"], Dir)] : FS) in
  os_readlink (fs w) (_hash2dir env Examples.h_echo ++ ["current"]) = inl EINVAL
  /\ _cached_runsh env Examples.h_echo (PyInt 10) w
     = (Raise (UnboundLocalError "canonical"), w)
  /\ forall sh inputstr r, _hash sh inputstr = Ok (Examples.h_echo, r) ->
       runsh env sh inputstr (PyInt 10) w = (Raise (UnboundLocalError "canonical"), w).
Proof.
  intros env w.
  assert (H : os_readlink (fs w) (_hash2dir env Examples.h_echo ++ ["current"]) = inl EINVAL)
    by (vm_compute; reflexivity).
  split; [exact H|].
  exact (current_that_is_no_link (B := RefBuiltins) env Examples.h_echo (PyInt 10) w EINVAL
           eq_refl H ltac:(discriminate)).
Defined.

(** X8 (witness): [foo] cached at 200 in an empty cache and read at 205. *)
Lemma cache_then_read_witness :
  let env := Examples.ex_env [200%float] 205%float Examples.uuid_a in
  let w := Examples.world_of (∅ : FS) in
  let result := _cache env Examples.h_echo "echo foo" 100%float "foo" "" 0 w in
  let w1 := snd result in
  good_start (_hash2dir env Examples.h_echo) (fs w)
    [call_of env "echo foo" 100%float "foo" "" 0 w] = true
  /\ ref_float (ref_fmt_6f 200%float) = Some 200%float
  /\ fst result = Ok tt
  /\ _cached_runsh env Examples.h_echo (PyInt 10) w1 = (Ok ("foo", "", 0), tick w1).
Proof.
  intros env w result w1.
  assert (H : good_start (_hash2dir env Examples.h_echo) (fs w)
                [call_of env "echo foo" 100%float "foo" "" 0 w] = true)
    by (vm_compute; reflexivity).
  assert (Hs : ref_float (ref_fmt_6f 200%float) = Some 200%float)
    by (vm_compute; reflexivity).
  split; [exact H|]. split; [exact Hs|].
  exact (cache_then_read (B := RefBuiltins) env Examples.h_echo "echo foo" 100%float
           "foo" "" 0 w (PyInt 10) w1 200%float H eq_refl Hs eq_refl eq_refl
           ltac:(vm_compute; reflexivity)).
Defined.

(** X9 (witness): [echo foo] in an empty cache; the command ends at 100,
    the entry is stamped 101 and read back at 102. *)
Lemma runsh_miss_returns_the_run_witness :
  let env := Examples.ex_env [100%float; 101%float; 102%float] 103%float Examples.uuid_a in
  let w := Examples.world_of (∅ : FS) in
  let sh := ShCode "echo foo" in
  _cached_runsh env Examples.h_echo (PyInt 10) w
  = (Raise (miss_no_entry Examples.h_echo), w)
  /\ fst (runsh env sh None (PyInt 10) w) = Ok ("foo", "", 0)
  /\ runs (snd (runsh env sh None (PyInt 10) w)) = runs w ++ [(sh, None)].
Proof.
  intros env w sh.
  assert (H : _cached_runsh env Examples.h_echo (PyInt 10) w
              = (Raise (miss_no_entry Examples.h_echo), w))
    by (vm_compute; reflexivity).
  split; [exact H|].
  exact (runsh_miss_returns_the_run (B := RefBuiltins) env sh None (PyInt 10) w w
           Examples.h_echo "echo foo" _ "foo" "" 0 101%float
           eq_refl H eq_refl ltac:(vm_compute; reflexivity) eq_refl
           ltac:(vm_compute; reflexivity) eq_refl ltac:(vm_compute; reflexivity)).
Defined.

(** The root of the cache is a regular file: [os.readlink] fails with
    [ENOTDIR], no miss is signalled, and [runsh] raises
    [UnboundLocalError] without running the command. *)
Example cache_root_is_a_file :
  let env := Examples.ex_env [] 100%float Examples.uuid_a in
  let w := Examples.world_of (list_to_map [([".clicache"], File "")] : FS) in
  os_readlink (fs w) (_hash2dir env Examples.h_echo ++ ["current"]) = inl ENOTDIR
  /\ fst (runsh env (ShCode "echo foo") None (PyInt 10) w)
     = Raise (UnboundLocalError "canonical")
  /\ runs (snd (runsh env (ShCode "echo foo") None (PyInt 10) w)) = [].
Proof. split; [|split]; vm_compute; reflexivity. Qed.

End OrchestratorMoreRuns.

(* ===================================================================== *)
(** * Theorems: the orchestrator, hit or refill *)
(* ===================================================================== *)

Section OrchestratorRefill.

Context {B : Builtins} (env : Env).

(** The handler of a miss, when the command ends and the writer finds
    the tree in order: the entry is written, and the read that follows
    returns it. *)
Lemma refill_writes_and_reads (h r : string) (sh : command) (inputstr : option string)
    (w1 : World) (stdout stderr : string) (returncode : Z) (stamp : float) :
  let written := snd (_cache env h r (clock env (time_calls w1)) stdout stderr
                        returncode (tick (record_run w1 sh inputstr))) in
  popen env (length (runs w1)) sh inputstr = Ok (stdout, stderr, returncode) ->
  good_start (_hash2dir env h) (fs w1)
    [call_of env r (clock env (time_calls w1)) stdout stderr returncode
       (tick (record_run w1 sh inputstr))] = true ->
  0 < CLICACHE_MAX_RETRIES (settings env) ->
  py_float (fmt_6f (clock env (S (time_calls w1)))) = Some stamp ->
  py_int (fmt_d returncode) = Some returncode ->
  py_gt (PrimFloat.sub (clock env (S (S (time_calls w1)))) stamp) (PyInt sys_maxint) = false ->
  current_entry env (fs written) h
  = Some {| f_t := fmt_6f (clock env (S (time_calls w1))); f_r := r;
            f_stdout := stdout; f_stderr := stderr;
            f_returncode := fmt_d returncode |}
  /\ refill env h r sh inputstr w1 = _cached_runsh env h (PyInt sys_maxint) written
  /\ refill env h r sh inputstr w1 = (Ok (stdout, stderr, returncode), tick written)
  /\ runs written = runs w1 ++ [(sh, inputstr)].
Proof.
  intros written Hrun Hstart Hpos Hstamp Hrc Hage.
  set (w2 := tick (record_run w1 sh inputstr)) in *.
  destruct (cache_persists_entry env h r (clock env (time_calls w1)) stdout stderr
              returncode w2 Hstart) as (Hok & Hlink & Hwr).
  fold written in Hlink, Hwr.
  pose proof (written_current_entry env (fs written) h _ _ Hlink Hwr) as Hcur.
  pose proof (cache_ok_counts env h r (clock env (time_calls w1)) stdout stderr
                returncode w2 Hok) as [Htime _].
  fold written in Htime.
  pose proof (keeps_runs_cache env h r (clock env (time_calls w1)) stdout stderr
                returncode w2) as Hruns.
  fold written in Hruns.
  assert (Hsecond : refill env h r sh inputstr w1
                    = _cached_runsh env h (PyInt sys_maxint) written).
  { rewrite refill_cases, Hrun. fold w2. subst written.
    destruct (_cache env h r (clock env (time_calls w1)) stdout stderr returncode w2)
      as [o w3]. simpl in Hok. now subst o. }
  split; [exact Hcur|]. split; [exact Hsecond|]. split; [|exact Hruns].
  rewrite Hsecond.
  apply (reader_hit env h (PyInt sys_maxint) written _ stamp returncode Hpos Hcur Hstamp);
    [|exact Hrc].
  now rewrite Htime.
Qed.

(** C5: when the first read hits, [runsh] returns that result at once
    and no subprocess is started.  When it misses, the command ends and
    the writer finds the tree in order, [runsh] runs the command (one
    subprocess), writes its result to the cache (the entry that
    [current] then leads to holds the stdout, the stderr and the return
    code of the run), and returns what a second read gives, made with
    [maxage = sys.maxint] whatever the caller's [maxage] is: that is the
    result of the run, read back from the files, provided the two
    numbers written read back and the time from the stamp to the second
    read does not exceed [sys.maxint].  In either case a result that
    [runsh] returns is the content of the files of the entry that
    [current] leads to when it returns. *)
Theorem runsh_hit_or_refill (sh : command) (inputstr : option string)
    (maxage : pynum) (w : World) (h r : string) :
  _hash sh inputstr = Ok (h, r) ->
  (forall res w', _cached_runsh env h maxage w = (Ok res, w') ->
     runsh env sh inputstr maxage w = (Ok res, w') /\ runs w' = runs w)
  /\ (forall msg w1 stdout stderr returncode stamp,
      _cached_runsh env h maxage w = (Raise (CacheMiss msg), w1) ->
      popen env (length (runs w1)) sh inputstr = Ok (stdout, stderr, returncode) ->
      good_start (_hash2dir env h) (fs w1)
        [call_of env r (clock env (time_calls w1)) stdout stderr returncode
           (tick (record_run w1 sh inputstr))] = true ->
      0 < CLICACHE_MAX_RETRIES (settings env) ->
      py_float (fmt_6f (clock env (S (time_calls w1)))) = Some stamp ->
      py_int (fmt_d returncode) = Some returncode ->
      py_gt (PrimFloat.sub (clock env (S (S (time_calls w1)))) stamp) (PyInt sys_maxint)
      = false ->
      let written := snd (_cache env h r (clock env (time_calls w1)) stdout stderr
                            returncode (tick (record_run w1 sh inputstr))) in
      current_entry env (fs written) h
      = Some {| f_t := fmt_6f (clock env (S (time_calls w1))); f_r := r;
                f_stdout := stdout; f_stderr := stderr;
                f_returncode := fmt_d returncode |}
      /\ runsh env sh inputstr maxage w = _cached_runsh env h (PyInt sys_maxint) written
      /\ runsh env sh inputstr maxage w = (Ok (stdout, stderr, returncode), tick written)
      /\ runs (tick written) = runs w ++ [(sh, inputstr)])
  /\ (forall res w', runsh env sh inputstr maxage w = (Ok res, w') ->
      exists hs returncode,
        current_entry env (fs w') h = Some hs
        /\ py_int (f_returncode hs) = Some returncode
        /\ res = (f_stdout hs, f_stderr hs, returncode)).
Proof.
  intros Hh. rewrite (runsh_cases env sh inputstr maxage w h r Hh).
  split; [|split].
  - intros res w' Hr. rewrite Hr. split; [reflexivity|].
    pose proof (keeps_runs_reader env h maxage w) as Hk. now rewrite Hr in Hk.
  - intros msg w1 stdout stderr returncode stamp Hr Hrun Hstart Hpos Hstamp Hrc Hage written.
    rewrite Hr.
    pose proof (keeps_runs_reader env h maxage w) as Hk. rewrite Hr in Hk. simpl in Hk.
    destruct (refill_writes_and_reads h r sh inputstr w1 stdout stderr returncode stamp
                Hrun Hstart Hpos Hstamp Hrc Hage) as (Hcur & Hsecond & Hres & Hruns).
    fold written in Hcur, Hsecond, Hres, Hruns.
    split; [exact Hcur|]. split; [exact Hsecond|]. split; [exact Hres|].
    simpl. now rewrite Hruns, Hk.
  - intros res w' Hr.
    destruct (_cached_runsh env h maxage w) as [[res0|e] w0] eqn:Hfirst.
    + injection Hr as <- <-.
      pose proof (proj1 (reader_world env h maxage w)) as Hfs. rewrite Hfirst in Hfs.
      simpl in Hfs. rewrite Hfs. exact (reader_ok_from_disk env h maxage w w0 res0 Hfirst).
    + destruct e; try discriminate. rewrite refill_cases in Hr.
      destruct (popen env (length (runs w0)) sh inputstr) as [[[so se] rc]|e];
        [|discriminate].
      destruct (_cache env h r _ so se rc _) as [[[]|e] w1]; [|discriminate].
      pose proof (proj1 (reader_world env h (PyInt sys_maxint) w1)) as Hfs.
      rewrite Hr in Hfs. simpl in Hfs. rewrite Hfs.
      exact (reader_ok_from_disk env h (PyInt sys_maxint) w1 w' res Hr).
Qed.

End OrchestratorRefill.

Section OrchestratorRefillRuns.

#[local] Existing Instance RefBuiltins.

(** C5 (witness): [echo foo] in an empty cache, with the default
    [maxage] of [-1]: the command ends at 100, the entry is stamped 101
    and read back at 102; by the caller's [maxage] the entry would be
    too old already, and it is returned all the same. *)
Lemma runsh_hit_or_refill_witness :
  let env := Examples.ex_env [100%float; 101%float; 102%float] 103%float Examples.uuid_a in
  let w := Examples.world_of (∅ : FS) in
  let sh := ShCode "echo foo" in
  let h := Examples.h_echo in
  let maxage := PyInt (-1) in
  let written := snd (_cache env h "echo foo" (clock env (time_calls w)) "foo" "" 0
                        (tick (record_run w sh None))) in
  _cached_runsh env h maxage w = (Raise (miss_no_entry h), w)
  /\ py_gt (PrimFloat.sub 102%float 101%float) maxage = true
  /\ current_entry env (fs written) h
     = Some {| f_t := fmt_6f (clock env (S (time_calls w))); f_r := "echo foo";
               f_stdout := "foo"; f_stderr := ""; f_returncode := fmt_d 0 |}
  /\ runsh env sh None maxage w = _cached_runsh env h (PyInt sys_maxint) written
  /\ runsh env sh None maxage w = (Ok ("foo", "", 0), tick written)
  /\ runs (tick written) = runs w ++ [(sh, None)].
Proof.
  intros env w sh h maxage written.
  assert (Hmiss : _cached_runsh env h maxage w = (Raise (miss_no_entry h), w))
    by (vm_compute; reflexivity).
  split; [exact Hmiss|]. split; [vm_compute; reflexivity|].
  exact (proj1 (proj2 (runsh_hit_or_refill (B := RefBuiltins) env sh None maxage w
                         Examples.h_echo "echo foo" eq_refl))
           _ w "foo" "" 0 101%float
           Hmiss eq_refl ltac:(vm_compute; reflexivity) eq_refl
           ltac:(vm_compute; reflexivity) eq_refl ltac:(vm_compute; reflexivity)).
Defined.

End OrchestratorRefillRuns.


Section Isolation.

Context {B : Builtins} (env : Env).

Implicit Types (fs : FS) (p q : path).

Lemma prefix_snoc_cases (q l : path) (a : string) :
  q `prefix_of` l ++ [a] -> q `prefix_of` l \/ q = l ++ [a].
Proof.
  intros [k Hk]. destruct k as [|b k _] using rev_ind.
  - right. now rewrite app_nil_r in Hk.
  - left. rewrite app_assoc in Hk. apply app_inj_tail in Hk as [-> _]. now exists k.
Qed.

(** A tree that has, on the way to a name, the directories of another
    and some more is blocked where the other is. *)
Lemma blocked_same fs1 fs2 (rest : list string) :
  forall pre : path,
    (forall q, q `prefix_of` pre ++ rest ->
       fs1 !! q = fs2 !! q \/ (fs2 !! q = None /\ fs1 !! q = Some Dir)) ->
    blocked fs1 pre rest = blocked fs2 pre rest.
Proof.
  induction rest as [|name more IH]; intros pre H; [reflexivity|]. simpl.
  assert (Hnext : blocked fs1 (pre ++ [name]) more = blocked fs2 (pre ++ [name]) more).
  { apply IH. intros q Hq. apply H. now rewrite <- app_assoc in Hq. }
  assert (Hq : pre ++ [name] `prefix_of` pre ++ name :: more).
  { exists more. now rewrite <- app_assoc. }
  destruct (H _ Hq) as [->|[-> ->]]; [|exact Hnext].
  destruct (fs2 !! (pre ++ [name])) as [[| |]|]; try reflexivity; exact Hnext.
Qed.

Lemma parent_error_same fs1 fs2 p :
  fs1 !! parent p = fs2 !! parent p ->
  (forall q, q `prefix_of` parent p ->
     fs1 !! q = fs2 !! q \/ (fs2 !! q = None /\ fs1 !! q = Some Dir)) ->
  parent_error fs1 p = parent_error fs2 p.
Proof.
  intros Hpar Hway. unfold parent_error, is_dir.
  rewrite (blocked_same fs1 fs2 (parent p) [] Hway).
  destruct (parent p) as [|a l] eqn:E; [reflexivity|]. now rewrite Hpar.
Qed.

Lemma os_readlink_same fs1 fs2 p :
  fs1 !! p = fs2 !! p -> fs1 !! parent p = fs2 !! parent p ->
  (forall q, q `prefix_of` parent p ->
     fs1 !! q = fs2 !! q \/ (fs2 !! q = None /\ fs1 !! q = Some Dir)) ->
  os_readlink fs1 p = os_readlink fs2 p.
Proof.
  intros Hp Hpar Hway. unfold os_readlink.
  now rewrite Hp, (parent_error_same fs1 fs2 p Hpar Hway).
Qed.

Lemma open_r_same fs1 fs2 p :
  fs1 !! p = fs2 !! p -> fs1 !! parent p = fs2 !! parent p ->
  (forall q, q `prefix_of` parent p ->
     fs1 !! q = fs2 !! q \/ (fs2 !! q = None /\ fs1 !! q = Some Dir)) ->
  open_r fs1 p = open_r fs2 p.
Proof.
  intros Hp Hpar Hway. unfold open_r.
  now rewrite Hp, (parent_error_same fs1 fs2 p Hpar Hway).
Qed.

Lemma resolve_current_same fs1 fs2 (h : string) :
  (forall q, _hash2dir env h `prefix_of` q -> fs1 !! q = fs2 !! q) ->
  (forall q, q `prefix_of` _hash2dir env h ->
     fs1 !! q = fs2 !! q \/ (fs2 !! q = None /\ fs1 !! q = Some Dir)) ->
  resolve_current env fs1 h = resolve_current env fs2 h.
Proof.
  intros Hsame Hway. unfold resolve_current.
  rewrite (os_readlink_same fs1 fs2); [reflexivity | | |].
  - apply Hsame. now exists ["current"].
  - rewrite parent_snoc. now apply Hsame.
  - now rewrite parent_snoc.
Qed.

Lemma open_fields_same fs1 fs2 (h target : string) :
  (forall q, _hash2dir env h `prefix_of` q -> fs1 !! q = fs2 !! q) ->
  (forall q, q `prefix_of` _hash2dir env h ->
     fs1 !! q = fs2 !! q \/ (fs2 !! q = None /\ fs1 !! q = Some Dir)) ->
  open_fields fs1 (Some (_hash2dir env h ++ [target]))
  = open_fields fs2 (Some (_hash2dir env h ++ [target])).
Proof.
  intros Hsame Hway. unfold open_fields, open_field.
  assert (Hf : forall name,
             open_r fs1 ((_hash2dir env h ++ [target]) ++ [name])
             = open_r fs2 ((_hash2dir env h ++ [target]) ++ [name])).
  { intros name. apply (open_r_same fs1 fs2).
    - apply Hsame. exists [target; name]. now rewrite <- app_assoc.
    - rewrite parent_snoc. apply Hsame. now exists [target].
    - rewrite parent_snoc. intros q Hq.
      destruct (prefix_snoc_cases q _ _ Hq) as [Hup| ->]; [now apply Hway|].
      left. apply Hsame. now exists [target]. }
  now rewrite !Hf.
Qed.

(** The reader looks at the directory of its key, and on the way to it
    only at what is a directory and what is not. *)
Lemma reader_same fs1 fs2 (h : string) (maxage : pynum) (w0 : World) :
  (forall q, _hash2dir env h `prefix_of` q -> fs1 !! q = fs2 !! q) ->
  (forall q, q `prefix_of` _hash2dir env h ->
     fs1 !! q = fs2 !! q \/ (fs2 !! q = None /\ fs1 !! q = Some Dir)) ->
  fst (_cached_runsh env h maxage (set_fs w0 fs1))
  = fst (_cached_runsh env h maxage (set_fs w0 fs2)).
Proof.
  intros Hsame Hway. rewrite !reader_cases. simpl.
  rewrite (resolve_current_same fs1 fs2 h Hsame Hway).
  unfold resolve_current.
  destruct (os_readlink fs2 (_hash2dir env h ++ ["current"])) as [e|target].
  - destruct e; try reflexivity; rewrite !get_handles_cases;
      (destruct (0 <? CLICACHE_MAX_RETRIES (settings env)); reflexivity).
  - rewrite !get_handles_cases, (open_fields_same fs1 fs2 h target Hsame Hway).
    destruct (0 <? CLICACHE_MAX_RETRIES (settings env)); [|reflexivity].
    destruct (open_fields fs2 _) as [hs|e]; [|reflexivity].
    rewrite !examine_cases. simpl.
    destruct (py_float (f_t hs)); [|reflexivity].
    destruct (py_gt _ maxage); [reflexivity|].
    destruct (py_int (f_returncode hs)); reflexivity.
Qed.

(** The directories of two keys have nothing in common. *)
Lemma hash2dir_apart (h h' : string) q :
  h <> h' -> _hash2dir env h `prefix_of` q ->
  ~ q `prefix_of` _hash2dir env h' /\ ~ _hash2dir env h' `prefix_of` q.
Proof.
  unfold _hash2dir. intros Hne [rest ->]. split; intros [k Hk].
  - rewrite <- !app_assoc in Hk. apply app_inv_head in Hk. simpl in Hk. congruence.
  - rewrite <- !app_assoc in Hk. apply app_inv_head in Hk. simpl in Hk. congruence.
Qed.

(** What [_cache] for one key leaves of the names of another. *)
Lemma cache_outside (h r : string) (t : float) (stdout stderr : string)
    (returncode : Z) (w : World) q :
  ~ q `prefix_of` _hash2dir env h -> ~ _hash2dir env h `prefix_of` q ->
  fs (snd (_cache env h r t stdout stderr returncode w)) !! q = fs w !! q.
Proof.
  intros Hup Hdown.
  destruct (cache_is_sixteen_calls env h r t stdout stderr returncode w) as [-> _].
  apply run_alone_outside; [discriminate | exact Hup | exact Hdown].
Qed.

(** On the way to its own directory [_cache] only makes directories. *)
Lemma cache_above (h r : string) (t : float) (stdout stderr : string)
    (returncode : Z) (w : World) q :
  q `prefix_of` _hash2dir env h ->
  fs (snd (_cache env h r t stdout stderr returncode w)) !! q = fs w !! q
  \/ (fs w !! q = None
      /\ fs (snd (_cache env h r t stdout stderr returncode w)) !! q = Some Dir).
Proof.
  intros Hup.
  destruct (cache_is_sixteen_calls env h r t stdout stderr returncode w) as [-> _].
  apply run_alone_above; [discriminate | exact Hup].
Qed.

(** X10: [_cache] for one key leaves the other keys alone: nothing at
    or below the directory of another key changes, and a read of another
    key gives after the call what it would have given before, whether
    the call returns or raises. *)
Theorem cache_leaves_other_keys (h h' r : string) (t : float) (stdout stderr : string)
    (returncode : Z) (w : World) :
  h <> h' ->
  let tree' := fs (snd (_cache env h' r t stdout stderr returncode w)) in
  (forall q, _hash2dir env h `prefix_of` q -> tree' !! q = fs w !! q)
  /\ forall maxage w0,
       fst (_cached_runsh env h maxage (set_fs w0 tree'))
       = fst (_cached_runsh env h maxage (set_fs w0 (fs w))).
Proof.
  intros Hne tree'.
  assert (Hsame : forall q, _hash2dir env h `prefix_of` q -> tree' !! q = fs w !! q).
  { intros q Hq. destruct (hash2dir_apart h h' q Hne Hq) as [Hup Hdown].
    now apply cache_outside. }
  assert (Hway : forall q, q `prefix_of` _hash2dir env h ->
            tree' !! q = fs w !! q \/ (fs w !! q = None /\ tree' !! q = Some Dir)).
  { intros q Hq.
    destruct (decide (q `prefix_of` _hash2dir env h')) as [Hq'|Hq'];
      [now apply cache_above|].
    left. apply cache_outside; [exact Hq'|].
    intros Hdown.
    destruct (hash2dir_apart h h' (_hash2dir env h) Hne ltac:(reflexivity)) as [_ Hn].
    apply Hn. now transitivity q. }
  split; [exact Hsame|]. intros maxage w0. now apply reader_same.
Qed.

End Isolation.

(** X10 (witness): the keys of [echo foo] and of [foo]. *)
Lemma cache_leaves_other_keys_witness :
  let env := Examples.ex_env [200%float] 200%float Examples.uuid_a in
  let h' := "0beec7b5ea3f0fdbc95d0dd47f3c5bc275da8a33" in
  let w := Examples.world_of (Examples.tree_with Examples.uuid_b "100.000000" "0") in
  let tree' := fs (snd (_cache (B := RefBuiltins) env h' "foo" 100%float "" "" 127 w)) in
  Examples.h_echo <> h'
  /\ (forall q, _hash2dir env Examples.h_echo `prefix_of` q -> tree' !! q = fs w !! q)
  /\ forall maxage w0,
       fst (_cached_runsh (B := RefBuiltins) env Examples.h_echo maxage (set_fs w0 tree'))
       = fst (_cached_runsh (B := RefBuiltins) env Examples.h_echo maxage (set_fs w0 (fs w))).
Proof.
  intros env h' w tree'. split; [discriminate|].
  exact (cache_leaves_other_keys (B := RefBuiltins) env Examples.h_echo h' "foo" 100%float
           "" "" 127 w ltac:(discriminate)).
Defined.

(* ===================================================================== *)
(** * Theorems: the entry that is served while a writer works *)
(* ===================================================================== *)

Section ServedFacts.

Context {B : Builtins} (basedir : path).

Implicit Types (fs : FS) (p : proc) (q : path) (s : system).

Lemma serves_kept fs fs' id text :
  fs' !! current basedir = fs !! current basedir ->
  fs' !! entry basedir id = fs !! entry basedir id ->
  (forall f, fs' !! entry_file basedir id f = fs !! entry_file basedir id f) ->
  serves basedir fs id text -> serves basedir fs' id text.
Proof.
  intros Hc He Hf (Hlink & Hdir & Hfiles). unfold serves, written.
  rewrite Hc, He. repeat split; auto. intros f. now rewrite Hf.
Qed.

(** A name of the served entry is not touched by a call made before the
    rename. *)
Lemma served_name_untouched p fs id q :
  builds_beside id p -> p_pc p <> PRename ->
  fs !! q <> None ->
  (q = current basedir \/ q = entry basedir id
   \/ exists f, q = entry_file basedir id f) ->
  snd (proc_step basedir p fs) !! q = fs !! q.
Proof.
  intros Hb Hnr Hsome Hq.
  destruct (node_same_or_not (snd (proc_step basedir p fs) !! q) (fs !! q)) as [Heq|Hne];
    [exact Heq | exfalso].
  apply proc_step_touches in Hne. unfold builds_beside in Hb.
  assert (Hfile : forall f, q = entry_file basedir (c_uuid (p_call p)) f ->
                            c_uuid (p_call p) <> id -> False).
  { intros f -> Hid. unfold entry_file, current, entry in Hq.
    destruct Hq as [Hq|[Hq|[g Hq]]]; apply app_inv_head in Hq; congruence. }
  destruct (p_pc p) as [| |f|f| | | | | |e]; try contradiction; try congruence.
  - now destruct Hne.
  - now destruct Hne.
  - now apply (Hfile f).
  - now apply (Hfile f).
  - now destruct Hne.
Qed.

(** One call of a writer that has not renamed: it renames, or the entry
    is served as before. *)
Lemma step_beside p fs id text :
  serves basedir fs id text -> builds_beside id p ->
  renamed (p_pc (fst (proc_step basedir p fs))) = true
  \/ (serves basedir (snd (proc_step basedir p fs)) id text
      /\ builds_beside id (fst (proc_step basedir p fs))).
Proof.
  intros Hs Hb.
  assert (Hdec : p_pc p = PRename \/ p_pc p <> PRename)
    by (destruct (p_pc p); auto; right; discriminate).
  destruct Hdec as [Hpc|Hpc].
  - unfold proc_step. rewrite Hpc.
    destruct (os_rename fs _ _) as [e|fs'].
    + right. simpl. split; [exact Hs | exact I].
    + left. reflexivity.
  - right. split.
    + destruct Hs as (Hlink & Hdir & Hfiles).
      apply (serves_kept fs); [| | |repeat split; assumption].
      * apply (served_name_untouched p fs id); auto. congruence.
      * apply (served_name_untouched p fs id); auto. congruence.
      * intros f. apply (served_name_untouched p fs id); eauto.
        rewrite Hfiles. discriminate.
    + unfold builds_beside in *. unfold proc_step.
      destruct Hs as (_ & Hdir & _).
      destruct (p_pc p) as [| |f|f| | | | | |e] eqn:E; try contradiction; try congruence.
      * destruct (os_makedirs fs basedir) as [fs' [[]|]]; exact I.
      * destruct (os_mkdir fs _) as [e|fs'] eqn:Hm; simpl; [exact I|].
        apply os_mkdir_inr in Hm as [Hfree _]. intros Hid. rewrite Hid in Hfree.
        congruence.
      * destruct (open_w fs _) as [e|fs']; simpl; [exact I | exact Hb].
      * simpl. destruct (next_field f); exact Hb.
      * destruct (os_symlink fs _ _) as [e|fs']; simpl; [exact I | exact Hb].
      * destruct (os_readlink fs _) as [[]|target]; simpl; try exact I; exact Hb.
      * simpl. now rewrite E.
Qed.

(** Once a process has renamed it ends by returning. *)
Lemma run_alone_renamed (n : nat) :
  forall p fs, renamed (p_pc p) = true ->
    renamed (p_pc (fst (run_alone basedir n p fs))) = true.
Proof.
  induction n as [|n IH]; intros p fs Hr; [exact Hr|].
  cbn [run_alone]. destruct (proc_step basedir p fs) as [p' fs'] eqn:E.
  apply IH. unfold proc_step in E.
  destruct (p_pc p) eqn:Hpc; try discriminate; injection E as <- _; simpl; auto.
  now rewrite Hpc.
Qed.

(** A writer that ends by raising has left the served entry as it was. *)
Lemma run_alone_raised (n : nat) :
  forall p fs id text e,
    serves basedir fs id text -> builds_beside id p ->
    p_pc (fst (run_alone basedir n p fs)) = PRaised e ->
    serves basedir (snd (run_alone basedir n p fs)) id text.
Proof.
  induction n as [|n IH]; intros p fs id text e Hs Hb Hend; [exact Hs|].
  cbn [run_alone] in *.
  destruct (step_beside p fs id text Hs Hb) as [Hr|[Hs' Hb']];
    destruct (proc_step basedir p fs) as [p' fs']; simpl in *.
  - pose proof (run_alone_renamed n p' fs' Hr) as Hrr. rewrite Hend in Hrr. discriminate.
  - now apply (IH p' fs' id text e).
Qed.

End ServedFacts.

Section ServedClaims.

Context {B : Builtins} (env : Env).

(** X11: a call of [_cache] that raises has not harmed the entry being
    served: if [current] led to a whole entry before the call, it leads
    to the same entry, with the same five files, after it. *)
Theorem failed_cache_keeps_entry (h r : string) (t : float) (stdout stderr : string)
    (returncode : Z) (w : World) (id : string) (text : field -> string) (e : exn) :
  let result := _cache env h r t stdout stderr returncode w in
  serves (_hash2dir env h) (fs w) id text ->
  fst result = Raise e ->
  serves (_hash2dir env h) (fs (snd result)) id text.
Proof.
  intros result Hs Hraise.
  destruct (cache_is_sixteen_calls env h r t stdout stderr returncode w) as [Hfs Hout].
  fold result in Hfs, Hout. rewrite Hfs. rewrite Hraise in Hout.
  apply (run_alone_raised (_hash2dir env h) 16 _ (fs w) id text e Hs); [exact I|].
  destruct (p_pc (fst (run_alone (_hash2dir env h) 16 _ (fs w)))); try discriminate.
  simpl in Hout. congruence.
Qed.

End ServedClaims.

Section Retires.

Context {B : Builtins} (basedir : path).

Implicit Types (fs : FS) (p : proc) (q : path) (s : system).

Lemma rank_15 (l : pc) : rank l = 15%nat -> l = PRmtree.
Proof.
  destruct l as [| |f|f| | | | | |e]; try discriminate; try reflexivity;
    destruct f; discriminate.
Qed.

(** One call of the only process, before its [rmtree]. *)
Lemma replacing_step s id :
  inv basedir s -> replacing basedir id s ->
  (rank_of s 0 < 15)%nat ->
  replacing basedir id (step basedir 0 s).
Proof.
  intros (Hbase & Hu & Hok & Hcur & Hold) (p & Hp & Hdir & Hat) Hrank.
  assert (Hp0 : procs s !! 0%nat = Some p) by now rewrite Hp.
  pose proof (Hok 0%nat p Hp0) as Hpok. unfold proc_ok in Hpok.
  unfold rank_of in Hrank. rewrite Hp0 in Hrank.
  rewrite step_unfold, Hp0. unfold replacing. cbn [procs tree]. rewrite Hp.
  cbn [insert list_insert].
  assert (Hentry : forall x, x <> entry basedir id ->
            (<[x := Dir]> (tree s) : FS) !! entry basedir id = Some Dir)
    by (intros x Hx; now rewrite lookup_insert_ne).
  destruct (p_pc p) as [| |f|f| | | | | |e] eqn:Hpc; try contradiction;
    try (simpl in Hrank; lia).
  - destruct Hpok as (Hdirs & _).
    destruct (ps_makedirs basedir p (tree s) Hpc Hbase Hdirs) as (fs' & Hstep & _ & Hadds).
    rewrite Hstep. eexists. split; [reflexivity|]. simpl.
    split.
    + destruct (Hadds (entry basedir id)) as [->|(Hn & _)]; congruence.
    + destruct (Hadds (current basedir)) as [->|(Hn & _)]; congruence.
  - destruct Hpok as (Hb & Hfree & _).
    assert (Hn : tree s !! entry basedir (c_uuid (p_call p)) = None) by now apply Hfree.
    rewrite (ps_mkdir basedir p (tree s) Hpc Hb Hn).
    eexists. split; [reflexivity|]. simpl.
    rewrite !lookup_insert_ne by congruence. auto.
  - destruct Hpok as (_ & Hd & Hupto & _).
    rewrite (ps_open basedir p (tree s) f Hpc Hd) by (now apply (Hupto f)).
    eexists. split; [reflexivity|]. simpl.
    assert (Hn : tree s !! entry_file basedir (c_uuid (p_call p)) f = None)
      by now apply (Hupto f).
    rewrite !lookup_insert_ne by congruence. auto.
  - destruct Hpok as (_ & _ & Hopen & _).
    assert (Hf : tree s !! entry_file basedir (c_uuid (p_call p)) f = Some (File ""))
      by now apply (Hopen f).
    rewrite (ps_write basedir p (tree s) f "" Hpc Hf).
    eexists. split; [reflexivity|]. simpl.
    rewrite !lookup_insert_ne by congruence.
    split; [exact Hdir|]. now destruct (next_field f).
  - destruct Hpok as (Hb & _ & Htmp).
    rewrite (ps_symlink basedir p (tree s) Hpc Hb Htmp).
    eexists. split; [reflexivity|]. simpl.
    rewrite !lookup_insert_ne by congruence. auto.
  - rewrite (ps_readlink_some basedir p (tree s) id Hpc Hat).
    eexists. split; [reflexivity|]. simpl. auto.
  - destruct Hat as [Ho Hlink]. destruct Hpok as (Hb & _ & Htmp).
    rewrite (ps_rename basedir p (tree s) Hpc Hb Htmp) by congruence.
    eexists. split; [reflexivity|]. simpl.
    rewrite lookup_insert_ne, lookup_delete_ne by congruence. auto.
Qed.

Lemma replacing_run (n : nat) :
  forall s id,
    inv basedir s -> replacing basedir id s ->
    length (procs s) = 1%nat ->
    (rank_of s 0 + n <= 15)%nat ->
    replacing basedir id (run_schedule basedir (repeat 0%nat n) s).
Proof.
  induction n as [|n IH]; intros s id Hinv Hrep Hlen Hrank; [exact Hrep|].
  change (run_schedule basedir (repeat 0%nat (S n)) s)
    with (run_schedule basedir (repeat 0%nat n) (step basedir 0 s)).
  apply IH.
  - now apply inv_step.
  - apply replacing_step; [exact Hinv | exact Hrep | lia].
  - now rewrite step_length.
  - rewrite (rank_step basedir s 0 0 Hinv) by lia.
    destruct (decide (0%nat = 0%nat)); [lia|congruence].
Qed.

(** A writer alone, in a tree in which [current] leads to an entry:
    when it is done, nothing is left of that entry. *)
Lemma run_alone_retires fs0 (c : call) (id : string) :
  good_start basedir fs0 [c] = true ->
  fs0 !! current basedir = Some (Symlink id) ->
  forall q, entry basedir id `prefix_of` q ->
    snd (run_alone basedir 16 (start c) fs0) !! q = None.
Proof.
  intros Hstart Hlink q Hq.
  pose proof (inv_start basedir fs0 [c] Hstart) as Hinv0.
  assert (Hdir : fs0 !! entry basedir id = Some Dir).
  { unfold good_start in Hstart. repeat (apply andb_prop in Hstart as [Hstart ?]).
    match goal with H : current_ok _ _ = true |- _ => rename H into Hc end.
    unfold current_ok in Hc. rewrite Hlink in Hc. apply andb_prop in Hc as [Hc _].
    unfold has_node in Hc. destruct (fs0 !! entry basedir id) as [n|]; [|discriminate].
    now rewrite (node_eqb_eq _ _ Hc). }
  assert (Hrep0 : replacing basedir id (start_system fs0 [c])).
  { exists (start c). split; [reflexivity|]. split; [exact Hdir | exact Hlink]. }
  pose proof (replacing_run 15 (start_system fs0 [c]) id Hinv0 Hrep0 eq_refl
                ltac:(vm_compute; lia)) as Hrep.
  pose proof (inv_run basedir (repeat 0%nat 15) _ Hinv0) as Hinv.
  pose proof (rank_run basedir (repeat 0%nat 15) _ 0 Hinv0 ltac:(simpl; lia)) as Hrank.
  unfold start_system in Hrep, Hinv, Hrank. cbn [map] in Hrep, Hinv, Hrank.
  rewrite run_single in Hrep, Hinv, Hrank.
  change 16%nat with (15 + 1)%nat.
  assert (Hsplit : forall n m p fs,
             run_alone basedir (n + m) p fs
             = run_alone basedir m (fst (run_alone basedir n p fs))
                 (snd (run_alone basedir n p fs))).
  { induction n as [|n IHn]; intros m p fs; [reflexivity|].
    cbn [Nat.add run_alone]. destruct (proc_step basedir p fs) as [p' fs']. apply IHn. }
  rewrite Hsplit.
  destruct (run_alone basedir 15 (start c) fs0) as [p15 fs15]. simpl in *.
  destruct Hrep as (p & [= <-] & Hd & Hat).
  unfold rank_of in Hrank. simpl in Hrank.
  change (rank (p_pc p15) = 15%nat) in Hrank. apply rank_15 in Hrank.
  rewrite Hrank in Hat. unfold proc_step. rewrite Hrank, Hat. simpl.
  cbn [tree] in Hd. rewrite rmtree_lookup, Hd. now destruct (decide (entry basedir id `prefix_of` q)).
Qed.

End Retires.

Section ReplacesClaims.

Context {B : Builtins} (env : Env).

(** X12: the writer alone replaces the entry.  In a tree in which
    [current] is absent or leads to a whole entry, and with a new
    identifier, [_cache] returns; the entry that a reader then finds
    holds the five texts of this call (the timestamp being the clock as
    [_cache] reads it); and if [current] led to an entry before, nothing
    is left of that entry, neither its directory nor any of its files. *)
Theorem cache_replaces_entry (h r : string) (t : float) (stdout stderr : string)
    (returncode : Z) (w : World) :
  let result := _cache env h r t stdout stderr returncode w in
  good_start (_hash2dir env h) (fs w)
    [call_of env r t stdout stderr returncode w] = true ->
  fst result = Ok tt
  /\ current_entry env (fs (snd result)) h
     = Some {| f_t := fmt_6f (clock env (time_calls w)); f_r := r; f_stdout := stdout;
               f_stderr := stderr; f_returncode := fmt_d returncode |}
  /\ forall id, fs w !! current (_hash2dir env h) = Some (Symlink id) ->
       forall q, entry (_hash2dir env h) id `prefix_of` q -> fs (snd result) !! q = None.
Proof.
  intros result Hstart.
  destruct (cache_persists_entry env h r t stdout stderr returncode w Hstart)
    as (Hok & Hlink & Hwr).
  split; [exact Hok|]. split.
  - exact (written_current_entry env _ h _ _ Hlink Hwr).
  - intros id Hcur q Hq.
    destruct (cache_is_sixteen_calls env h r t stdout stderr returncode w) as [Hfs _].
    fold result in Hfs. rewrite Hfs.
    exact (run_alone_retires (_hash2dir env h) (fs w) _ id Hstart Hcur q Hq).
Qed.

End ReplacesClaims.

(** X11 (witness): the identifier drawn is that of the entry in place,
    [os.mkdir] fails, and the entry is served as before. *)
Lemma failed_cache_keeps_entry_witness :
  let env := Examples.ex_env [200%float] 200%float Examples.uuid_a in
  let w := Examples.world_of (Examples.tree_with Examples.uuid_a "100.000000" "0") in
  let text := fun f => match f with
                       | Ft => "100.000000" | Fr => "echo foo" | Fstdout => "foo"
                       | Fstderr => "" | Freturncode => "0"
                       end in
  let result := _cache (B := RefBuiltins) env Examples.h_echo "echo foo" 150%float
                  "bar" "" 0 w in
  serves (_hash2dir env Examples.h_echo) (fs w) Examples.uuid_a text
  /\ fst result = Raise (OSError EEXIST)
  /\ serves (_hash2dir env Examples.h_echo) (fs (snd result)) Examples.uuid_a text.
Proof.
  intros env w text result.
  assert (Hs : serves (_hash2dir env Examples.h_echo) (fs w) Examples.uuid_a text).
  { split; [vm_compute; reflexivity|]. split; [vm_compute; reflexivity|].
    intros f. destruct f; vm_compute; reflexivity. }
  assert (Hr : fst result = Raise (OSError EEXIST)) by (vm_compute; reflexivity).
  split; [exact Hs|]. split; [exact Hr|].
  exact (failed_cache_keeps_entry (B := RefBuiltins) env Examples.h_echo "echo foo"
           150%float "bar" "" 0 w Examples.uuid_a text (OSError EEXIST) Hs Hr).
Defined.

(** X12 (witness): a second result for [echo foo], over the first. *)
Lemma cache_replaces_entry_witness :
  let env := Examples.ex_env [300%float] 300%float Examples.uuid_b in
  let w := Examples.world_of (Examples.tree_with Examples.uuid_a "100.000000" "0") in
  let result := _cache (B := RefBuiltins) env Examples.h_echo "echo foo" 250%float
                  "bar" "" 0 w in
  good_start (_hash2dir env Examples.h_echo) (fs w)
    [call_of env "echo foo" 250%float "bar" "" 0 w] = true
  /\ fst result = Ok tt
  /\ current_entry env (fs (snd result)) Examples.h_echo
     = Some {| f_t := ref_fmt_6f 300%float; f_r := "echo foo"; f_stdout := "bar";
               f_stderr := ""; f_returncode := ref_fmt_d 0 |}
  /\ forall id, fs w !! current (_hash2dir env Examples.h_echo) = Some (Symlink id) ->
       forall q, entry (_hash2dir env Examples.h_echo) id `prefix_of` q ->
                 fs (snd result) !! q = None.
Proof.
  intros env w result.
  assert (H : good_start (_hash2dir env Examples.h_echo) (fs w)
                [call_of env "echo foo" 250%float "bar" "" 0 w] = true)
    by (vm_compute; reflexivity).
  split; [exact H|].
  exact (cache_replaces_entry (B := RefBuiltins) env Examples.h_echo "echo foo" 250%float
           "bar" "" 0 w H).
Defined.

(* ===================================================================== *)
(** * Theorems: running a command without the cache *)
(* ===================================================================== *)

Section SplitFacts.

Lemma slice_from_add (a b : nat) (s : string) :
  slice_from (a + b) s = slice_from b (slice_from a s).
Proof.
  revert s. induction a as [|a IH]; intros s; [reflexivity|].
  destruct s as [|c s]; simpl; [now destruct b | apply IH].
Qed.

Lemma find_newline_0_shorter (t : string) (k : nat) :
  find_newline_0 t = Some k ->
  (String.length (slice_from (k + 1) t) < String.length t)%nat.
Proof.
  revert k. induction t as [|c t IH]; intros k; simpl; [discriminate|].
  destruct (Ascii.eqb c newline).
  - intros [= <-]. simpl. lia.
  - destruct (find_newline_0 t) as [k'|]; simpl; [|discriminate].
    intros [= <-]. simpl. specialize (IH k' eq_refl). lia.
Qed.

(** The recursion on the block, told with [find]. *)
Lemma split_chars_find (t : string) :
  forall pending,
    split_chars pending t
    = match find_newline_0 t with
      | None => ([], pending +:+ t)
      | Some k =>
          let '(lines, carry) := split_chars "" (slice_from (k + 1) t) in
          ((pending +:+ slice_to (k + 1) t) :: lines, carry)
      end.
Proof.
  induction t as [|c t IH]; intros pending; simpl.
  - now rewrite append_empty_r.
  - destruct (Ascii.eqb c newline); [reflexivity|].
    rewrite IH. destruct (find_newline_0 t) as [k|]; simpl.
    + destruct (split_chars "" (slice_from (k + 1) t)) as [lines carry].
      now rewrite append_assoc.
    + now rewrite append_assoc.
Qed.

(** The loop of the code does what the recursion does, given turns
    enough for what is left of the block. *)
Lemma split_loop_chars (fuel : nat) :
  forall s stdout i,
    (String.length (slice_from i s) < fuel)%nat ->
    (let '(lines, stdout', i') := split_loop fuel s stdout i (find_newline s i) in
     (lines, stdout' +:+ slice_from i' s))
    = split_chars stdout (slice_from i s).
Proof.
  induction fuel as [|fuel IH]; intros s stdout i Hfuel; [lia|].
  rewrite split_chars_find. unfold find_newline.
  destruct (find_newline_0 (slice_from i s)) as [k|] eqn:Hk; simpl; [|reflexivity].
  pose proof (find_newline_0_shorter _ _ Hk) as Hshort.
  assert (Hfrom : slice_from (i + k + 1) s = slice_from (k + 1) (slice_from i s)).
  { rewrite <- Nat.add_assoc. apply slice_from_add. }
  specialize (IH s "" (i + k + 1)%nat ltac:(rewrite Hfrom; lia)).
  rewrite <- Hfrom.
  destruct (split_loop fuel s "" (i + k + 1) (find_newline s (i + k + 1)))
    as [[lines out] i'].
  destruct (split_chars "" (slice_from (i + k + 1) s)) as [lines' carry].
  injection IH as -> ->.
  unfold slice. now replace (i + k + 1 - i)%nat with (k + 1)%nat by lia.
Qed.

Lemma split_block_chars (stdout s : string) :
  split_block stdout s = split_chars stdout s.
Proof.
  unfold split_block.
  pose proof (split_loop_chars (S (String.length s)) s stdout 0 ltac:(simpl; lia)) as H.
  simpl slice_from in H.
  now destruct (split_loop (S (String.length s)) s stdout 0 (find_newline s 0))
    as [[lines out] i'].
Qed.

(** The lines of a text that arrives in two parts. *)
Lemma lines_from_app (s rest : string) :
  forall pending,
    lines_from pending (s +:+ rest)
    = fst (split_chars pending s) ++ lines_from (snd (split_chars pending s)) rest.
Proof.
  induction s as [|c s IH]; intros pending; sapp; simpl; [reflexivity|].
  destruct (Ascii.eqb c newline).
  - rewrite IH. now destruct (split_chars "" s).
  - apply IH.
Qed.

End SplitFacts.

Section LoopFacts.

Lemma count_char_app (c : ascii) (a b : string) :
  count_char c (a +:+ b) = (count_char c a + count_char c b)%nat.
Proof. induction a as [|x a IH]; sapp; simpl; [reflexivity | rewrite IH; lia]. Qed.

Lemma ends_with_newline_snoc (a : string) :
  ends_with_newline (a +:+ String newline "") = true.
Proof.
  induction a as [|x a IH]; sapp; [reflexivity|].
  simpl. destruct (a +:+ String newline "") eqn:E; [|exact IH].
  destruct a; discriminate.
Qed.

(** The lines of a text: none is lost, and each is a line. *)
Lemma lines_from_joined (s : string) :
  forall pending, joined (lines_from pending s) = pending +:+ s.
Proof.
  induction s as [|c s IH]; intros pending; simpl.
  - destruct (String.eqb_spec pending "") as [->|_]; [reflexivity|].
    simpl. reflexivity.
  - destruct (Ascii.eqb_spec c newline) as [->|_].
    + simpl. rewrite IH. sapp. now rewrite append_assoc.
    + rewrite IH. now rewrite append_assoc.
Qed.

Lemma lines_from_shape (s : string) :
  forall pending (i : nat) l,
    count_char newline pending = 0%nat ->
    lines_from pending s !! i = Some l ->
    whole_line l = true
    \/ (partial_line l = true /\ S i = length (lines_from pending s)).
Proof.
  induction s as [|c s IH]; intros pending i l Hp; simpl.
  - destruct (String.eqb_spec pending "") as [->|Hne]; [discriminate|].
    destruct i as [|i]; [|discriminate]. intros [= <-]. right. split; [|reflexivity].
    unfold partial_line. rewrite Hp. simpl.
    now destruct (String.eqb_spec pending "").
  - destruct (Ascii.eqb_spec c newline) as [->|Hc].
    + destruct i as [|i].
      * intros [= <-]. left. unfold whole_line.
        rewrite count_char_app, Hp, ends_with_newline_snoc. reflexivity.
      * intros Hl. destruct (IH "" i l eq_refl Hl) as [Hw|[Hpl Hlen]]; [now left|].
        right. split; [exact Hpl|]. simpl. now rewrite Hlen.
    + apply IH. rewrite count_char_app, Hp. simpl.
      destruct (Ascii.eqb_spec c newline); [congruence|reflexivity].
Qed.

Lemma turn_step_spec (st : istate) (t : turn) :
  (forall rest,
     lines_from (stdout_buf st) (default "" (rd_stdout t) +:+ rest)
     = fst (turn_step st t) ++ lines_from (stdout_buf (snd (turn_step st t))) rest)
  /\ stderr_buf (snd (turn_step st t)) = stderr_buf st +:+ default "" (rd_stderr t).
Proof.
  unfold turn_step.
  destruct (rd_stdout t) as [s|]; [destruct (String.eqb_spec s "") as [->|Hs]|];
    destruct (rd_stderr t) as [s'|]; try destruct (String.eqb_spec s' "") as [->|Hs'];
    rewrite ?split_block_chars; simpl; split; try intros rest;
    rewrite ?lines_from_app; try destruct (split_chars (stdout_buf st) s) as [lines out];
    simpl; rewrite ?append_empty_r; reflexivity.
Qed.

Lemma read_loop_spec (ts : list turn) :
  forall st,
    exists used,
      ts = used ++ snd (read_loop ts st)
      /\ (forall rest,
            lines_from (stdout_buf st) (stdout_of used +:+ rest)
            = fst (fst (read_loop ts st))
              ++ lines_from (stdout_buf (snd (fst (read_loop ts st)))) rest)
      /\ stderr_buf (snd (fst (read_loop ts st))) = stderr_buf st +:+ stderr_of used.
Proof.
  induction ts as [|t ts IH]; intros st.
  - exists []. simpl. destruct (stdoutDone st && stderrDone st); simpl;
      (split; [reflexivity|]; split; [reflexivity | now rewrite append_empty_r]).
  - simpl. destruct (stdoutDone st && stderrDone st).
    + exists []. simpl. split; [reflexivity|]. split; [reflexivity|].
      now rewrite append_empty_r.
    + destruct (turn_step_spec st t) as [Hout Herr].
      destruct (turn_step st t) as [lines st']. simpl in Hout, Herr.
      destruct (IH st') as (used & Hts & Hlines & Hse).
      destruct (read_loop ts st') as [[more st''] unused]. simpl in *.
      exists (t :: used). split; [now rewrite Hts at 1|]. split.
      * intros rest. simpl. rewrite append_assoc, Hout, Hlines. now rewrite app_assoc.
      * simpl. rewrite Hse, Herr. now rewrite append_assoc.
Qed.

Lemma turns_used_spec (p : process) :
  turns p = turns_used p ++ snd (read_loop (turns p) istart)
  /\ (forall rest,
        lines_from "" (stdout_of (turns_used p) +:+ rest)
        = fst (fst (read_loop (turns p) istart))
          ++ lines_from (stdout_buf (snd (fst (read_loop (turns p) istart)))) rest)
  /\ stderr_buf (snd (fst (read_loop (turns p) istart))) = stderr_of (turns_used p).
Proof.
  destruct (read_loop_spec (turns p) istart) as (used & Hts & Hlines & Hse).
  assert (Hu : turns_used p = used).
  { unfold turns_used. destruct (read_loop (turns p) istart) as [[lines st] unused].
    simpl in Hts. rewrite Hts at 2. rewrite Hts at 1.
    rewrite length_app, Nat.add_sub. apply take_app_length. }
  rewrite Hu. auto.
Qed.

End LoopFacts.

Section CliRunClaims.

Context {B : Builtins} {R : Repr}.

(** X13: [runsh_i], iterated to its end, yields the lines of what the
    command wrote to stdout, however the reads cut it into blocks: each
    line with its newline, a last line without newline as it is, nothing
    lost and no empty line made up; then it ends as [sherrcheck] decides
    on all that was read from stderr and on the exit status. *)
Theorem runsh_i_yields_the_lines (sh : command) (p : process) :
  snd (runsh_i sh (Ok p)) <> Blocked ->
  let lines := fst (runsh_i sh (Ok p)) in
  lines = lines_of (stdout_of (turns_used p))
  /\ joined lines = stdout_of (turns_used p)
  /\ (forall (i : nat) l, lines !! i = Some l ->
        whole_line l = true \/ (partial_line l = true /\ S i = length lines))
  /\ snd (runsh_i sh (Ok p))
     = match sherrcheck (Some sh) (Some (stderr_of (turns_used p)))
               (Some (exit_status p)) true with
       | Some e => RaisesSh e
       | None => Stops
       end.
Proof.
  intros Hend lines.
  destruct (turns_used_spec p) as (_ & Hlines & Herr).
  assert (Hl : lines = lines_of (stdout_of (turns_used p))
               /\ snd (runsh_i sh (Ok p))
                  = match sherrcheck (Some sh) (Some (stderr_of (turns_used p)))
                            (Some (exit_status p)) true with
                    | Some e => RaisesSh e
                    | None => Stops
                    end).
  { subst lines. unfold runsh_i in *. specialize (Hlines "").
    rewrite append_empty_r in Hlines. unfold lines_of. rewrite Hlines.
    destruct (read_loop (turns p) istart) as [[ls st] unused]. simpl in *.
    destruct (stdoutDone st && stderrDone st); [|now destruct Hend].
    rewrite Herr in *.
    destruct (sherrcheck (Some sh) (Some (stderr_of (turns_used p)))
                (Some (exit_status p)) true);
      destruct (String.eqb_spec (stdout_buf st) "") as [->|Hne]; simpl;
      rewrite ?app_nil_r; auto. }
  destruct Hl as [Hl He]. split; [exact Hl|]. split; [|split; [|exact He]].
  - rewrite Hl. unfold lines_of. now rewrite lines_from_joined.
  - intros i l. rewrite Hl. unfold lines_of. now apply lines_from_shape.
Qed.

(** X14: [runsh] of [cli.py] starts one subprocess; it returns stdout
    when the exit status is zero and stderr is empty, and otherwise, also
    when only stderr is not empty, it raises [ShError] with the command,
    the exit status and stderr as attributes; what [Popen] raises is
    passed on. *)
Theorem cli_runsh_checks (env : Env) (sh : command) (inputstr : option string) (w : World) :
  runs (snd (cli_runsh env sh inputstr w)) = runs w ++ [(sh, inputstr)]
  /\ match popen env (length (runs w)) sh inputstr with
     | Raise e => fst (cli_runsh env sh inputstr w) = RaisesOther e
     | Ok (stdout, stderr, returncode) =>
         (returncode = 0 /\ stderr = "" ->
            fst (cli_runsh env sh inputstr w) = Returns stdout)
         /\ (returncode <> 0 \/ stderr <> "" ->
             exists e, fst (cli_runsh env sh inputstr w) = RaisesShError e
                       /\ e_sh e = Some sh /\ e_returncode e = Some returncode
                       /\ e_stderr e = Some stderr)
     end.
Proof.
  unfold cli_runsh, runsh_t.
  destruct (popen env (length (runs w)) sh inputstr) as [[[so se] rc]|e];
    [|split; reflexivity].
  unfold sherrcheck, indicates_error.
  destruct (Z.eqb_spec rc 0) as [->|Hrc]; simpl.
  - destruct (String.eqb_spec se "") as [->|Hse]; simpl.
    + split; [reflexivity|]. split; [reflexivity|]. intros [H|H]; congruence.
    + split; [reflexivity|]. split; [intros [_ H]; congruence|]. intros _. eauto.
  - split; [reflexivity|]. split; [intros [H _]; congruence|]. intros _. eauto.
Qed.

(** X15: with [verbose] off, the message of the [ShError] tells neither
    the command nor what stderr held: it is the same for any two
    commands and any two texts of stderr; but the exception still
    carries both, as its attributes [sh] and [stderr]. *)
Theorem sherrcheck_quiet (sh sh' : option command) (stderr stderr' : string)
    (returncode : option Z) :
  sherr_message sh (Some stderr) returncode false
  = sherr_message sh' (Some stderr') returncode false
  /\ forall e, sherrcheck sh (Some stderr) returncode false = Some e ->
       e_sh e = sh /\ e_stderr e = Some stderr.
Proof.
  split; [reflexivity|]. unfold sherrcheck. intros e.
  destruct (indicates_error (Some stderr) returncode); [|discriminate].
  intros [= <-]. auto.
Qed.

End CliRunClaims.

(** X13 (witness): two lines and a warning, read in three turns. *)
Lemma runsh_i_yields_the_lines_witness :
  let R := {| repr_command := fun _ => "sh"; repr_str := fun s => s |} in
  let p := {| turns := [ {| rd_stdout := Some ("foo" +:+ String newline "ba");
                            rd_stderr := None |};
                         {| rd_stdout := Some ("r" +:+ String newline "");
                            rd_stderr := Some "warning" |};
                         {| rd_stdout := Some ""; rd_stderr := Some "" |} ];
              exit_status := 0 |} in
  let result := runsh_i (B := RefBuiltins) (R := R) (ShCode "make") (Ok p) in
  fst result = ["foo" +:+ String newline ""; "bar" +:+ String newline ""]
  /\ fst result = lines_of (stdout_of (turns_used p))
  /\ joined (fst result) = stdout_of (turns_used p)
  /\ (forall (i : nat) l, fst result !! i = Some l ->
        whole_line l = true \/ (partial_line l = true /\ S i = length (fst result)))
  /\ snd result
     = match sherrcheck (B := RefBuiltins) (R := R) (Some (ShCode "make"))
               (Some (stderr_of (turns_used p))) (Some (exit_status p)) true with
       | Some e => RaisesSh e
       | None => Stops
       end.
Proof.
  intros R p result. split; [vm_compute; reflexivity|].
  exact (runsh_i_yields_the_lines (B := RefBuiltins) (R := R) (ShCode "make") p
           ltac:(vm_compute; discriminate)).
Defined.

(* ===================================================================== *)
(** * Theorems: a read between the calls of racing writers, and [maxage] *)
(* ===================================================================== *)

Section ReadsInARace.

Context {B : Builtins} (env : Env).

Lemma blocked_fine (tree : FS) (rest : list string) :
  forall pre : path,
    (forall q : path, q `prefix_of` pre ++ rest -> q <> [] ->
       tree !! q = None \/ tree !! q = Some Dir) ->
    blocked tree pre rest = false.
Proof.
  induction rest as [|name more IH]; intros pre H; [reflexivity|]. simpl.
  assert (Hnext : blocked tree (pre ++ [name]) more = false).
  { apply IH. intros q Hq. apply H. now rewrite <- app_assoc in Hq. }
  destruct (H (pre ++ [name])) as [-> | ->]; auto.
  - exists more. now rewrite <- app_assoc.
  - now destruct pre.
Qed.

(** While writers race, [basedir] is a directory, or it is not there
    yet and nothing stands in its way. *)
Lemma race_basedir (basedir : path) (fs0 : FS) (calls : list call) (sched : list nat) :
  good_start basedir fs0 calls = true ->
  let s := run_schedule basedir sched (start_system fs0 calls) in
  tree s !! basedir = Some Dir \/ dirs_fine (tree s) basedir.
Proof.
  intros Hstart s.
  destruct (race_state basedir fs0 calls sched Hstart) as ((Hbase & _ & Hok & _) & _ & Hcalls).
  fold s in Hok, Hcalls.
  destruct (procs s) as [|p l] eqn:Hp.
  - assert (calls = []) by (now rewrite <- Hcalls). subst calls.
    assert (Hs : forall s0, procs s0 = [] -> run_schedule basedir sched s0 = s0).
    { clear. induction sched as [|i sched IH]; intros s0 H0; [reflexivity|].
      simpl. rewrite step_unfold, H0. simpl. now apply IH. }
    unfold s. rewrite Hs by reflexivity. simpl.
    unfold good_start in Hstart. rewrite !andb_true_iff in Hstart.
    destruct Hstart as ((((Hdirs & _) & _) & _) & _).
    right. intros q Hq Hne. apply (dirs_ok_fine fs0 basedir [] Hdirs); [exact Hq|].
    destruct q; [congruence | simpl; lia].
  - specialize (Hok 0%nat p eq_refl). unfold proc_ok in Hok.
    destruct (p_pc p); try contradiction; try (left; exact (proj1 Hok));
      try (left; exact Hok).
    right. exact (proj1 Hok).
Qed.

(** X16: a read made between two calls of racing writers never meets a
    half-made entry.  Whatever the schedule so far, the reader finds no
    entry (there was none at the start: the miss that makes [runsh] run
    the command), or it opens the entry that was there at the start,
    with the five texts it held then, or it opens the entry of one of
    the writers, with exactly the five texts of that writer's call.  It
    raises no [IOError], no [OSError] and no [UnboundLocalError]; and
    when the two numbers that a writer formatted read back, the read of
    that writer's entry returns that writer's stdout, stderr and return
    code, or the miss of an entry too old. *)
Theorem reader_between_calls (h : string) (maxage : pynum) (fs0 : FS)
    (calls : list call) (sched : list nat) (w0 : World) :
  good_start (_hash2dir env h) fs0 calls = true ->
  0 < CLICACHE_MAX_RETRIES (settings env) ->
  let w := set_fs w0 (tree (run_schedule (_hash2dir env h) sched
                              (start_system fs0 calls))) in
  let entry_of := fun c : call =>
    {| f_t := fmt_6f (c_now c); f_r := c_r c; f_stdout := c_stdout c;
       f_stderr := c_stderr c; f_returncode := fmt_d (c_returncode c) |} in
  ((_cached_runsh env h maxage w = (Raise (miss_no_entry h), w)
    /\ fs0 !! current (_hash2dir env h) = None)
   \/ (exists hs, current_entry env fs0 h = Some hs
                  /\ current_entry env (fs w) h = Some hs
                  /\ _cached_runsh env h maxage w = examine env h maxage hs w)
   \/ (exists c, c ∈ calls
                 /\ current_entry env (fs w) h = Some (entry_of c)
                 /\ _cached_runsh env h maxage w = examine env h maxage (entry_of c) w))
  /\ (forall e, fst (_cached_runsh env h maxage w) = Raise e ->
        e = miss_no_entry h \/ e = miss_too_old h
        \/ e = err_timestamp \/ e = err_returncode)
  /\ (forall c stamp,
        current_entry env (fs w) h = Some (entry_of c) ->
        py_float (fmt_6f (c_now c)) = Some stamp ->
        py_int (fmt_d (c_returncode c)) = Some (c_returncode c) ->
        fst (_cached_runsh env h maxage w)
        = if py_gt (PrimFloat.sub (clock env (time_calls w)) stamp) maxage
          then Raise (miss_too_old h)
          else Ok (c_stdout c, c_stderr c, c_returncode c)).
Proof.
  intros Hstart Hpos w entry_of.
  assert (Hfs : fs w = tree (run_schedule (_hash2dir env h) sched
                               (start_system fs0 calls))) by reflexivity.
  clearbody w.
  assert (Hcases :
    (_cached_runsh env h maxage w = (Raise (miss_no_entry h), w)
     /\ fs0 !! current (_hash2dir env h) = None)
    \/ (exists hs, current_entry env fs0 h = Some hs
                   /\ current_entry env (fs w) h = Some hs
                   /\ _cached_runsh env h maxage w = examine env h maxage hs w)
    \/ (exists c, c ∈ calls
                  /\ current_entry env (fs w) h = Some (entry_of c)
                  /\ _cached_runsh env h maxage w = examine env h maxage (entry_of c) w)).
  { pose proof (race_current (_hash2dir env h) fs0 calls sched Hstart) as Hcur.
    pose proof (race_basedir (_hash2dir env h) fs0 calls sched Hstart) as Hbase.
    cbn zeta in Hcur, Hbase. rewrite <- Hfs in Hcur, Hbase.
    destruct Hcur as [[Hnone Hnone0]|[(target & text & Hl0 & Hw0 & Hl & Hw & _)
                                      |(c & Hin & Hl & Hw)]].
    - left. split; [|exact Hnone0]. rewrite reader_cases. unfold resolve_current.
      unfold current in Hnone.
      unfold os_readlink, parent_error. rewrite Hnone, parent_snoc.
      destruct Hbase as [Hb|Hfine].
      + now rewrite (is_dir_true _ _ Hb).
      + rewrite (blocked_fine (fs w) (_hash2dir env h) [] Hfine).
        now destruct (is_dir (fs w) (_hash2dir env h)).
    - right. left.
      pose proof (written_current_entry env fs0 h target text Hl0 Hw0) as He0.
      pose proof (written_current_entry env (fs w) h target text Hl Hw) as He.
      eexists. split; [exact He0|]. split; [exact He|]. now apply reader_on_entry.
    - right. right.
      pose proof (written_current_entry env (fs w) h _ _ Hl Hw) as He.
      exists c. split; [exact Hin|]. split; [exact He|]. now apply reader_on_entry. }
  split; [exact Hcases|]. split.
  - intros e. destruct Hcases as [[-> _]|[(hs & _ & _ & ->)|(c & _ & _ & ->)]]; simpl.
    + intros [= <-]. auto.
    + rewrite examine_cases. destruct (py_float (f_t hs)); simpl; [|intros [= <-]; auto].
      destruct (py_gt _ maxage); simpl; [intros [= <-]; auto|].
      destruct (py_int (f_returncode hs)); simpl; [discriminate|intros [= <-]; auto].
    + rewrite examine_cases. destruct (py_float (f_t (entry_of c))); simpl;
        [|intros [= <-]; auto].
      destruct (py_gt _ maxage); simpl; [intros [= <-]; auto|].
      destruct (py_int _); simpl; [discriminate|intros [= <-]; auto].
  - intros c stamp He Hstamp Hrc.
    rewrite (reader_on_entry env h maxage w (entry_of c) Hpos He), examine_cases.
    subst entry_of. simpl. rewrite Hstamp, Hrc.
    now destruct (py_gt _ maxage).
Qed.

End ReadsInARace.

Section MaxageFacts.

Lemma float_gt_int_mono (x : float) (n n' : Z) :
  n <= n' -> float_gt_int x n = false -> float_gt_int x n' = false.
Proof.
  intros Hle. unfold float_gt_int, scaled_compare.
  destruct (Prim2SF x) as [s|s| |s m e]; auto.
  - intros H. apply Z.ltb_ge in H. apply Z.ltb_ge. lia.
  - destruct (Z.leb_spec 0 e) as [He|He].
    + destruct (Z.compare_spec (signed s m * 2 ^ e) n) as [H|H|H]; try discriminate;
        intros _; destruct (Z.compare_spec (signed s m * 2 ^ e) n') as [H'|H'|H'];
        auto; lia.
    + assert (Hpow : 0 < 2 ^ (- e)) by (apply pow2_pos; lia).
      destruct (Z.compare_spec (signed s m) (n * 2 ^ (- e))) as [H|H|H]; try discriminate;
        intros _; destruct (Z.compare_spec (signed s m) (n' * 2 ^ (- e))) as [H'|H'|H'];
        auto; nia.
Qed.

End MaxageFacts.

Section MaxageClaims.

Context {B : Builtins} (env : Env).

(** X17: a larger [maxage] never turns a hit into a miss: a read that
    returns a result with the integer [maxage] returns the same result,
    in the same world, with any integer [maxage] above it. *)
Theorem larger_maxage_keeps_hit (h : string) (n n' : Z) (w w' : World)
    (res : string * string * Z) :
  n <= n' ->
  _cached_runsh env h (PyInt n) w = (Ok res, w') ->
  _cached_runsh env h (PyInt n') w = (Ok res, w').
Proof.
  intros Hle Hread.
  destruct (reader_ok_details env h (PyInt n) w w' res Hread)
    as (Hpos & -> & hs & t & rc & Hcur & Ht & Hgt & Hrc & ->).
  apply (reader_hit env h (PyInt n') w hs t rc Hpos Hcur Ht); [|exact Hrc].
  simpl in *. now apply (float_gt_int_mono _ n n').
Qed.

End MaxageClaims.

Section ReadsInARaceRuns.

#[local] Existing Instance RefBuiltins.

(** X16 (witness): a read after twenty-nine turns of two writers that
    take turns, in a cache that holds an older entry: the first writer
    has renamed, the second has not, and the reader opens the entry of
    the first. *)
Lemma reader_between_calls_witness :
  let env := Examples.ex_env [110%float] 110%float Examples.uuid_a in
  let fs0 := Examples.race_tree in
  let calls := [Examples.call_a; Examples.call_b] in
  let h := Examples.h_echo in
  let maxage := PyInt 100 in
  let w := set_fs (Examples.world_of (∅ : FS))
             (tree (run_schedule (_hash2dir env h) (take 29 Examples.alternating)
                      (start_system fs0 calls))) in
  let entry_of := fun c : call =>
    {| f_t := fmt_6f (c_now c); f_r := c_r c; f_stdout := c_stdout c;
       f_stderr := c_stderr c; f_returncode := fmt_d (c_returncode c) |} in
  good_start (_hash2dir env h) fs0 calls = true
  /\ current_entry env (fs w) h = Some (entry_of Examples.call_a)
  /\ ((_cached_runsh env h maxage w = (Raise (miss_no_entry h), w)
       /\ fs0 !! current (_hash2dir env h) = None)
      \/ (exists hs, current_entry env fs0 h = Some hs
                     /\ current_entry env (fs w) h = Some hs
                     /\ _cached_runsh env h maxage w = examine env h maxage hs w)
      \/ (exists c, c ∈ calls
                    /\ current_entry env (fs w) h = Some (entry_of c)
                    /\ _cached_runsh env h maxage w = examine env h maxage (entry_of c) w))
  /\ (forall e, fst (_cached_runsh env h maxage w) = Raise e ->
        e = miss_no_entry h \/ e = miss_too_old h
        \/ e = err_timestamp \/ e = err_returncode)
  /\ (forall c stamp,
        current_entry env (fs w) h = Some (entry_of c) ->
        py_float (fmt_6f (c_now c)) = Some stamp ->
        py_int (fmt_d (c_returncode c)) = Some (c_returncode c) ->
        fst (_cached_runsh env h maxage w)
        = if py_gt (PrimFloat.sub (clock env (time_calls w)) stamp) maxage
          then Raise (miss_too_old h)
          else Ok (c_stdout c, c_stderr c, c_returncode c)).
Proof.
  intros env fs0 calls h maxage w entry_of.
  assert (H : good_start (_hash2dir env h) fs0 calls = true)
    by (vm_compute; reflexivity).
  split; [exact H|]. split; [vm_compute; reflexivity|].
  exact (reader_between_calls env Examples.h_echo (PyInt 100)
           Examples.race_tree [Examples.call_a; Examples.call_b]
           (take 29 Examples.alternating) (Examples.world_of (∅ : FS)) H eq_refl).
Defined.

End ReadsInARaceRuns.

(** X17 (witness): the entry stamped 100, read at 110 with [maxage] 10
    and then 3600. *)
Lemma larger_maxage_keeps_hit_witness :
  let env := Examples.ex_env [110%float] 110%float Examples.uuid_a in
  let w := Examples.world_of (Examples.tree_with Examples.uuid_a "100.000000" "0") in
  10 <= 3600
  /\ _cached_runsh (B := RefBuiltins) env Examples.h_echo (PyInt 10) w
     = (Ok ("foo", "", 0), tick w)
  /\ _cached_runsh (B := RefBuiltins) env Examples.h_echo (PyInt 3600) w
     = (Ok ("foo", "", 0), tick w).
Proof.
  intros env w.
  assert (H : _cached_runsh (B := RefBuiltins) env Examples.h_echo (PyInt 10) w
              = (Ok ("foo", "", 0), tick w)).
  { apply (reader_hit (B := RefBuiltins) env Examples.h_echo (PyInt 10) w
             {| f_t := "100.000000"; f_r := "echo foo"; f_stdout := "foo";
                f_stderr := ""; f_returncode := "0" |} 100%float 0);
      vm_compute; reflexivity. }
  split; [lia|]. split; [exact H|].
  exact (larger_maxage_keeps_hit (B := RefBuiltins) env Examples.h_echo 10 3600 w (tick w)
           ("foo", "", 0) ltac:(lia) H).
Defined.
